(** * Marriage-hall backend: categories, images and their services

  A shallow embedding of the Express/Mongoose backend:
  - [JsString]  : the string primitives the code calls ([trim],
    [toLowerCase], [split], [parseInt], the two [replace] calls of the
    slug hook) and the regular-expression fragment used by the queries;
  - the two collections (categories, images) with the schema setters,
    validators, hooks and unique indexes of [models/Category.js] and
    [models/Image.js];
  - [CategoryService], [ImageService], the controllers and the error
    handler, written in a state-and-exception monad over the store and
    the asset host;
  - [Legacy] : the older router of [routes/index.js].

  Characters are 8-bit code units; case mapping is the ASCII one. *)

From Stdlib Require Import String Ascii List ZArith Bool Arith Lia.
From Stdlib Require Import DecimalString.
From Stdlib Require Import Sorting.Sorted.
Import ListNotations.

Local Open Scope string_scope.
Local Open Scope list_scope.
Local Open Scope nat_scope.

(* ================================================================== *)
(** ** JavaScript strings *)
(* ================================================================== *)

Module JsString.

Definition chars (s : string) : list ascii := list_ascii_of_string s.
Definition str (cs : list ascii) : string := string_of_list_ascii cs.

Definition code (c : ascii) : nat := nat_of_ascii c.

Definition between (lo hi : nat) (c : ascii) : bool :=
  (lo <=? code c) && (code c <=? hi).

Definition is_upper : ascii -> bool := between 65 90.
Definition is_lower : ascii -> bool := between 97 122.
Definition is_digit : ascii -> bool := between 48 57.

Definition lower_char (c : ascii) : ascii :=
  if is_upper c then ascii_of_nat (code c + 32) else c.

(** [s.toLowerCase()] *)
Definition toLowerCase (s : string) : string :=
  str (map lower_char (chars s)).

(** White space as [String.prototype.trim] sees it, in the 8-bit range:
    TAB, LF, VT, FF, CR, SPACE and NBSP. *)
Definition is_space (c : ascii) : bool :=
  between 9 13 c || (code c =? 32) || (code c =? 160).

Fixpoint trim_start (cs : list ascii) : list ascii :=
  match cs with
  | [] => []
  | c :: r => if is_space c then trim_start r else cs
  end.

Definition trim_end (cs : list ascii) : list ascii :=
  rev (trim_start (rev cs)).

(** [s.trim()] *)
Definition trim (s : string) : string :=
  str (trim_end (trim_start (chars s))).

(** The class [[a-z0-9]] of the slug hook. *)
Definition is_slug_char (c : ascii) : bool := is_lower c || is_digit c.

Definition hyphen : ascii := "-"%char.
Definition is_hyphen (c : ascii) : bool := Ascii.eqb c hyphen.

(** [.replace(/[^a-z0-9]+/g, '-')]: [in_run] records that the previous
    character already belonged to the run being replaced. *)
Fixpoint replace_runs (in_run : bool) (cs : list ascii) : list ascii :=
  match cs with
  | [] => []
  | c :: r =>
      if is_slug_char c then c :: replace_runs false r
      else if in_run then replace_runs true r
      else hyphen :: replace_runs true r
  end.

(** [.replace(/(^-|-$)/g, '')]: the alternative [^-] removes a hyphen at
    offset 0, the alternative [-$] one hyphen at the last offset of what
    is left to scan. *)
Definition drop_first_hyphen (cs : list ascii) : list ascii :=
  match cs with
  | c :: r => if is_hyphen c then r else cs
  | [] => []
  end.

Definition drop_last_hyphen (cs : list ascii) : list ascii :=
  rev (drop_first_hyphen (rev cs)).

Definition replace_edge_hyphens (cs : list ascii) : list ascii :=
  drop_last_hyphen (drop_first_hyphen cs).

(** [s.split(sep)] for a one-character separator. *)
Fixpoint split_acc (sep : ascii) (cur : list ascii) (cs : list ascii)
  : list (list ascii) :=
  match cs with
  | [] => [rev cur]
  | c :: r =>
      if Ascii.eqb c sep then rev cur :: split_acc sep [] r
      else split_acc sep (c :: cur) r
  end.

Definition split (sep : ascii) (s : string) : list string :=
  map str (split_acc sep [] (chars s)).

(** Literal, case-insensitive containment (what a substring search
    would test). *)
Fixpoint prefix_ci (p cs : list ascii) : bool :=
  match p, cs with
  | [], _ => true
  | _ :: _, [] => false
  | a :: p', c :: r =>
      Ascii.eqb (lower_char a) (lower_char c) && prefix_ci p' r
  end.

Fixpoint contains_from (p cs : list ascii) : bool :=
  prefix_ci p cs ||
  match cs with
  | [] => false
  | _ :: r => contains_from p r
  end.

Definition contains_ci (needle hay : string) : bool :=
  contains_from (chars needle) (chars hay).

(** Decimal rendering of a number, as template literals do. *)
Definition of_nat (n : nat) : string :=
  NilZero.string_of_uint (Nat.to_uint n).

(** *** parseInt *)

Definition digit_val (radix : nat) (c : ascii) : option nat :=
  if is_digit c then
    (if code c - 48 <? radix then Some (code c - 48) else None)
  else if between 97 102 c then
    (if radix =? 16 then Some (code c - 87) else None)
  else if between 65 70 c then
    (if radix =? 16 then Some (code c - 55) else None)
  else None.

(** Reads the longest prefix of digits; [None] when there is none. *)
Fixpoint read_digits (radix : nat) (acc : option Z) (cs : list ascii)
  : option Z :=
  match cs with
  | [] => acc
  | c :: r =>
      match digit_val radix c with
      | Some v =>
          let so_far := match acc with Some a => a | None => 0%Z end in
          read_digits radix
            (Some (Z.of_nat radix * so_far + Z.of_nat v)%Z) r
      | None => acc
      end
  end.

Definition strip_sign (cs : list ascii) : bool * list ascii :=
  match cs with
  | c :: r =>
      if Ascii.eqb c "-"%char then (true, r)
      else if Ascii.eqb c "+"%char then (false, r)
      else (false, cs)
  | [] => (false, [])
  end.

Definition strip_hex_prefix (cs : list ascii) : nat * list ascii :=
  match cs with
  | z :: x :: r =>
      if Ascii.eqb z "0"%char
         && (Ascii.eqb x "x"%char || Ascii.eqb x "X"%char)
      then (16, r) else (10, cs)
  | _ => (10, cs)
  end.

(** [parseInt(s)]; [None] stands for [NaN]. *)
Definition parseInt (s : string) : option Z :=
  let (neg, body) := strip_sign (trim_start (chars s)) in
  let (radix, ds) := strip_hex_prefix body in
  match read_digits radix None ds with
  | Some v => Some (if neg then (- v)%Z else v)
  | None => None
  end.

(** [parseInt(q) || d] on an optional query parameter: [undefined], [NaN]
    and [0] are falsy. *)
Definition parseInt_or (q : option string) (d : Z) : Z :=
  match q with
  | None => d
  | Some s =>
      match parseInt s with
      | Some v => if (v =? 0)%Z then d else v
      | None => d
      end
  end.

(** *** Regular expressions

    The queries hand the caller's text to the regular-expression engine.
    The fragment modelled here is the one on which every engine agrees:
    a sequence of literal characters, the wildcard [.], and a backslash
    followed by a syntax character (an escaped literal).  A pattern that
    uses any other operator is outside the fragment and [compile] gives
    [None] for it. *)

Inductive atom : Type :=
| Lit (c : ascii)
| Dot.

Definition is_syntax_char (c : ascii) : bool :=
  existsb (Ascii.eqb c) (chars "^$\.*+?()[]{}|").

Fixpoint compile_chars (cs : list ascii) : option (list atom) :=
  match cs with
  | [] => Some []
  | c :: r =>
      if Ascii.eqb c "."%char then option_map (cons Dot) (compile_chars r)
      else if Ascii.eqb c "\"%char then
        match r with
        | d :: r' =>
            if is_syntax_char d || Ascii.eqb d "/"%char
            then option_map (cons (Lit d)) (compile_chars r')
            else None
        | [] => None
        end
      else if is_syntax_char c then None
      else option_map (cons (Lit c)) (compile_chars r)
  end.

Definition compile (pattern : string) : option (list atom) :=
  compile_chars (chars pattern).

(** One atom against one character under the [i] flag; the wildcard
    matches everything but a line feed. *)
Definition atom_matches (a : atom) (c : ascii) : bool :=
  match a with
  | Lit x => Ascii.eqb (lower_char x) (lower_char c)
  | Dot => negb (code c =? 10)
  end.

Fixpoint match_here (re : list atom) (cs : list ascii) : bool :=
  match re, cs with
  | [], _ => true
  | _ :: _, [] => false
  | a :: re', c :: r => atom_matches a c && match_here re' r
  end.

(** Unanchored search, as [$regex] and [RegExp.prototype.test] do. *)
Fixpoint search_from (re : list atom) (cs : list ascii) : bool :=
  match_here re cs ||
  match cs with
  | [] => false
  | _ :: r => search_from re r
  end.

Definition regex_test (re : list atom) (s : string) : bool :=
  search_from re (chars s).

End JsString.

(* ================================================================== *)
(** ** Documents of the two collections *)
(* ================================================================== *)

Definition ObjectId := nat.

(** [categorySchema] of [models/Category.js]. *)
Module CategoryDoc.

Record t : Type := mk {
  _id : ObjectId;
  name : string;
  description : option string;
  slug : string;
  isActive : bool;
  imageCount : Z;
  createdAt : nat;
  updatedAt : nat
}.

Definition set_slug (s : string) (c : t) : t :=
  mk (_id c) (name c) (description c) s (isActive c) (imageCount c)
     (createdAt c) (updatedAt c).

Definition set_imageCount (n : Z) (c : t) : t :=
  mk (_id c) (name c) (description c) (slug c) (isActive c) n
     (createdAt c) (updatedAt c).

Definition set_stamps (created updated : nat) (c : t) : t :=
  mk (_id c) (name c) (description c) (slug c) (isActive c) (imageCount c)
     created updated.

(** The slug of the [pre('save')] hook:
    [name.toLowerCase().replace(/[^a-z0-9]+/g,'-').replace(/(^-|-$)/g,'')]. *)
Definition slugify (name : string) : string :=
  JsString.str
    (JsString.replace_edge_hyphens
       (JsString.replace_runs false
          (JsString.chars (JsString.toLowerCase name)))).

(** Setters of the [slug] path: [lowercase: true, trim: true]. *)
Definition slug_setter (s : string) : string :=
  JsString.trim (JsString.toLowerCase s).

(** Validators of the schema; the messages are the schema's. *)
Definition validate_name (n : string) : list string :=
  if String.length n =? 0 then ["Category name is required"]
  else if String.length n <? 2
  then ["Category name must be at least 2 characters long"]
  else if 50 <? String.length n
  then ["Category name cannot exceed 50 characters"]
  else [].

Definition validate_description (d : option string) : list string :=
  match d with
  | Some s =>
      if 200 <? String.length s
      then ["Description cannot exceed 200 characters"] else []
  | None => []
  end.

End CategoryDoc.

(** [imageSchema] of [models/Image.js]. *)
Module ImageDoc.

Record t : Type := mk {
  _id : ObjectId;
  title : string;
  description : option string;
  category : ObjectId;
  cloudinaryId : string;
  imageUrl : string;
  thumbnailUrl : string;
  originalFileName : string;
  fileSize : nat;
  mimeType : string;
  width : nat;
  height : nat;
  tags : list string;
  isActive : bool;
  isFeatured : bool;
  viewCount : nat;
  createdAt : nat;
  updatedAt : nat
}.

Definition set_viewCount (n : nat) (i : t) : t :=
  mk (_id i) (title i) (description i) (category i) (cloudinaryId i)
     (imageUrl i) (thumbnailUrl i) (originalFileName i) (fileSize i)
     (mimeType i) (width i) (height i) (tags i) (isActive i)
     (isFeatured i) n (createdAt i) (updatedAt i).

Definition set_stamps (created updated : nat) (i : t) : t :=
  mk (_id i) (title i) (description i) (category i) (cloudinaryId i)
     (imageUrl i) (thumbnailUrl i) (originalFileName i) (fileSize i)
     (mimeType i) (width i) (height i) (tags i) (isActive i)
     (isFeatured i) (viewCount i) created updated.

Definition required (message : string) (s : string) : list string :=
  if String.length s =? 0 then [message] else [].

Definition validate_title (s : string) : list string :=
  if String.length s =? 0 then ["Image title is required"]
  else if 100 <? String.length s
  then ["Title cannot exceed 100 characters"] else [].

Definition validate_description (d : option string) : list string :=
  match d with
  | Some s =>
      if 500 <? String.length s
      then ["Description cannot exceed 500 characters"] else []
  | None => []
  end.

Definition validate_tags (ts : list string) : list string :=
  if existsb (fun s => 30 <? String.length s) ts
  then ["Tag cannot exceed 30 characters"] else [].

(** All validators that run when a document is saved. *)
Definition validate (i : t) : list string :=
  validate_title (title i)
  ++ validate_description (description i)
  ++ required "Cloudinary ID is required" (cloudinaryId i)
  ++ required "Image URL is required" (imageUrl i)
  ++ required "Thumbnail URL is required" (thumbnailUrl i)
  ++ required "Original file name is required" (originalFileName i)
  ++ required "MIME type is required" (mimeType i)
  ++ validate_tags (tags i).

End ImageDoc.

Definition Category : Type := CategoryDoc.t.
Definition Image : Type := ImageDoc.t.

(* ================================================================== *)
(** ** Errors, the asset host and the world *)
(* ================================================================== *)

(** The exceptions that reach the callers. *)
Inductive JsError : Type :=
| PlainError (message : string)
    (** [new Error(message)] thrown by the services and the host wrapper *)
| DuplicateKeyError (field value : string)
    (** the store's error of code 11000, with its [keyValue] *)
| ValidationError (messages : list string)
    (** Mongoose's [ValidationError] *)
| CastError (path value : string)
    (** Mongoose's [CastError] *)
| MongoError (message : string)
    (** any other error of the store *)
| UpstreamError (message : string).
    (** a failure reported by the asset host *)

(** What the asset host returns for an upload. *)
Record UploadResult : Type := mkUpload {
  public_id : string;
  secure_url : string;
  bytes : nat;
  format : string;
  up_width : nat;
  up_height : nat
}.

Definition Buffer := list Byte.byte.

(** The asset host is outside the program: its answers are a parameter of
    the world.  [None]/[false] is a failed call. *)
Record AssetHost : Type := mkHost {
  upload_stream : Buffer -> string -> option UploadResult;
  uploader_destroy : string -> bool;
  api_delete_folder : string -> bool;
  cloudinary_url : string -> string
}.

(** The calls issued to the asset host, oldest first. *)
Inductive HostCall : Type :=
| CallUpload (public_id : string)
| CallDestroy (public_id : string)
| CallDeleteFolder (path : string).

Record World : Type := mkWorld {
  categories : list Category;
  images : list Image;
  now : nat;            (** [Date.now()] and the timestamps *)
  nextId : ObjectId;    (** the next fresh [_id] *)
  isConfigured : bool;  (** [CloudinaryConfig.isConfigured] *)
  host : AssetHost;
  hostCalls : list HostCall
}.

Definition with_categories (cs : list Category) (w : World) : World :=
  mkWorld cs (images w) (now w) (nextId w) (isConfigured w) (host w)
          (hostCalls w).

Definition with_images (imgs : list Image) (w : World) : World :=
  mkWorld (categories w) imgs (now w) (nextId w) (isConfigured w) (host w)
          (hostCalls w).

Definition with_call (c : HostCall) (w : World) : World :=
  mkWorld (categories w) (images w) (now w) (nextId w) (isConfigured w)
          (host w) (hostCalls w ++ [c]).

(** A write advances the clock; a new document takes the next id. *)
Definition advance (w : World) : World :=
  mkWorld (categories w) (images w) (S (now w)) (nextId w)
          (isConfigured w) (host w) (hostCalls w).

Definition take_id (w : World) : World :=
  mkWorld (categories w) (images w) (now w) (S (nextId w))
          (isConfigured w) (host w) (hostCalls w).

(* ================================================================== *)
(** ** The monad of the services: state and exceptions *)
(* ================================================================== *)

Inductive result (A : Type) : Type :=
| Ok (a : A)
| Throw (e : JsError).

Arguments Ok {A} a.
Arguments Throw {A} e.

(** An [async] function: it runs on the world and either returns or
    throws; the effects made before a throw remain. *)
Definition M (A : Type) : Type := World -> result A * World.

Definition ret {A} (a : A) : M A := fun w => (Ok a, w).

Definition throw {A} (e : JsError) : M A := fun w => (Throw e, w).

Definition bind {A B} (m : M A) (k : A -> M B) : M B :=
  fun w =>
    match m w with
    | (Ok a, w') => k a w'
    | (Throw e, w') => (Throw e, w')
    end.

Definition gets {A} (f : World -> A) : M A := fun w => (Ok (f w), w).

Definition modify (f : World -> World) : M unit := fun w => (Ok tt, f w).

(** [try { m } catch (e) { logger.error(...); throw e }] *)
Definition try_rethrow {A} (m : M A) : M A := m.

Declare Scope js_scope.
Delimit Scope js_scope with js.

Notation "'await' x <- m ;; k" := (bind m (fun x => k))
  (at level 100, x name, m at next level, right associativity) : js_scope.
Notation "'await_' m ;; k" := (bind m (fun _ => k))
  (at level 100, m at next level, right associativity) : js_scope.

Local Open Scope js_scope.

Definition result_of {A} (m : M A) (w : World) : result A := fst (m w).
Definition world_after {A} (m : M A) (w : World) : World := snd (m w).

(* ================================================================== *)
(** ** Collections *)
(* ================================================================== *)

Section Collection.

Context {D : Type} (id_of : D -> ObjectId).

Definition find_by_id (id : ObjectId) (l : list D) : option D :=
  find (fun d => id_of d =? id) l.

Definition update_by_id (id : ObjectId) (f : D -> D) (l : list D) : list D :=
  map (fun d => if id_of d =? id then f d else d) l.

Definition remove_by_id (id : ObjectId) (l : list D) : list D :=
  filter (fun d => negb (id_of d =? id)) l.

End Collection.

(** [.sort(...)]: a stable insertion sort on the order [le]. *)
Fixpoint insert_by {A} (le : A -> A -> bool) (x : A) (l : list A) : list A :=
  match l with
  | [] => [x]
  | y :: r => if le x y then x :: l else y :: insert_by le x r
  end.

Definition sort_by {A} (le : A -> A -> bool) (l : list A) : list A :=
  fold_right (insert_by le) [] l.

(** The order of [.sort({ field: dir })] from a three-way comparison;
    [dir] is [1] or [-1]. *)
Definition directed {A} (cmp : A -> A -> comparison) (dir : Z)
  : A -> A -> bool :=
  fun a b =>
    match cmp a b with
    | Eq => true
    | Lt => (0 <? dir)%Z
    | Gt => (dir <? 0)%Z
    end.

(** [.limit(n)]: [0] is no limit, and the driver sends a negative limit
    as its absolute value. *)
Definition limit_docs {A} (n : Z) (l : list A) : list A :=
  if (n =? 0)%Z then l else firstn (Z.abs_nat n) l.

(** [new RegExp(pattern, 'i')] and [{ $regex: pattern, $options: 'i' }];
    a pattern outside the modelled fragment raises. *)
Definition regexp (pattern : string) : M (list JsString.atom) :=
  match JsString.compile pattern with
  | Some re => ret re
  | None => throw (PlainError "Invalid regular expression")
  end.

(* ================================================================== *)
(** ** The Category model *)
(* ================================================================== *)

Module CategoryModel.

(** The body of a create request. *)
Record CategoryData : Type := mkData {
  d_name : string;
  d_description : option string
}.

(** The body of an update request. *)
Record CategoryPatch : Type := mkPatch {
  p_name : option string;
  p_description : option string
}.

(** [new Category(categoryData)]: setters ([trim]) and defaults. *)
Definition new (data : CategoryData) : M Category :=
  fun w =>
    (Ok (CategoryDoc.mk (nextId w)
           (JsString.trim (d_name data))
           (option_map JsString.trim (d_description data))
           "" true 0%Z 0 0),
     take_id w).

(** [categorySchema.pre('save')]. *)
Definition pre_save (nameModified : bool) (c : Category) : Category :=
  if nameModified
  then CategoryDoc.set_slug
         (CategoryDoc.slug_setter (CategoryDoc.slugify (CategoryDoc.name c)))
         c
  else c.

Definition validate (c : Category) : list string :=
  CategoryDoc.validate_name (CategoryDoc.name c)
  ++ CategoryDoc.validate_description (CategoryDoc.description c).

(** The unique index on [name], checked against the documents other
    than [c] itself. *)
Definition name_taken (c : Category) (cs : list Category) : bool :=
  existsb (fun d => negb (CategoryDoc._id d =? CategoryDoc._id c)
                    && String.eqb (CategoryDoc.name d) (CategoryDoc.name c))
          cs.

(** The unique index on [slug]. *)
Definition slug_taken (c : Category) (cs : list Category) : bool :=
  existsb (fun d => negb (CategoryDoc._id d =? CategoryDoc._id c)
                    && String.eqb (CategoryDoc.slug d) (CategoryDoc.slug c))
          cs.

(** What an insert of [c] violates, if anything. *)
Definition unique_violation (c : Category) (cs : list Category)
  : option JsError :=
  if name_taken c cs
  then Some (DuplicateKeyError "name" (CategoryDoc.name c))
  else if slug_taken c cs
  then Some (DuplicateKeyError "slug" (CategoryDoc.slug c))
  else None.

(** [category.save()] on a new document: validation, the hook, the
    insert. *)
Definition save_new (c : Category) : M Category :=
  match validate c with
  | [] =>
      let c1 := pre_save true c in
      fun w =>
        match unique_violation c1 (categories w) with
        | Some e => (Throw e, w)
        | None =>
            let c2 := CategoryDoc.set_stamps (now w) (now w) c1 in
            (Ok c2, advance (with_categories (categories w ++ [c2]) w))
        end
  | msgs => throw (ValidationError msgs)
  end.

(** [category.save()] on a loaded document of which only [imageCount]
    changed. *)
Definition save_imageCount (c : Category) : M Category :=
  if (CategoryDoc.imageCount c <? 0)%Z
  then throw (ValidationError ["imageCount is less than minimum allowed value"])
  else
    fun w =>
      let c' := CategoryDoc.set_stamps (CategoryDoc.createdAt c) (now w) c in
      (Ok c',
       advance
         (with_categories
            (update_by_id CategoryDoc._id (CategoryDoc._id c)
               (fun d =>
                  CategoryDoc.set_stamps (CategoryDoc.createdAt d) (now w)
                    (CategoryDoc.set_imageCount (CategoryDoc.imageCount c) d))
               (categories w))
            w)).

Definition findById (id : ObjectId) : M (option Category) :=
  gets (fun w => find_by_id CategoryDoc._id id (categories w)).

(** [Category.findOne({ _id: id, isActive: true })] *)
Definition findOne_active (id : ObjectId) : M (option Category) :=
  gets (fun w =>
          find (fun c => (CategoryDoc._id c =? id) && CategoryDoc.isActive c)
               (categories w)).

(** [Category.findOne({ slug, isActive: true })] *)
Definition findBySlug (s : string) : M (option Category) :=
  gets (fun w =>
          find (fun c => String.eqb (CategoryDoc.slug c) s
                         && CategoryDoc.isActive c)
               (categories w)).

Definition name_le : Category -> Category -> bool :=
  directed (fun a b => String.compare (CategoryDoc.name a) (CategoryDoc.name b))
           1%Z.

(** [Category.find(filter).sort({ name: 1 })] *)
Definition find_sorted_by_name (keep : Category -> bool) : M (list Category) :=
  gets (fun w => sort_by name_le (filter keep (categories w))).

Definition apply_patch (name' description' : option string) (stamp : nat)
  (c : Category) : Category :=
  CategoryDoc.mk (CategoryDoc._id c)
    (match name' with Some n => n | None => CategoryDoc.name c end)
    (match description' with
     | Some d => Some d
     | None => CategoryDoc.description c
     end)
    (CategoryDoc.slug c) (CategoryDoc.isActive c) (CategoryDoc.imageCount c)
    (CategoryDoc.createdAt c) stamp.

(** [Category.findByIdAndUpdate(id, updateData,
      { new: true, runValidators: true })]: the update is cast through
    the setters, the validators of the updated paths run, the unique
    index of an updated path is checked.  It is a query: the document hook
    [pre('save')] does not run. *)
Definition findByIdAndUpdate (id : ObjectId) (p : CategoryPatch)
  : M (option Category) :=
  let name' := option_map JsString.trim (p_name p) in
  let description' := option_map JsString.trim (p_description p) in
  match
    match name' with Some n => CategoryDoc.validate_name n | None => [] end
    ++ CategoryDoc.validate_description description'
  with
  | [] =>
      fun w =>
        match find_by_id CategoryDoc._id id (categories w) with
        | None => (Ok None, w)
        | Some c =>
            let c' := apply_patch name' description' (now w) c in
            if match name' with
               | Some _ => name_taken c' (categories w)
               | None => false
               end
            then (Throw (DuplicateKeyError "name" (CategoryDoc.name c')), w)
            else
              (Ok (Some c'),
               advance
                 (with_categories
                    (update_by_id CategoryDoc._id id
                       (apply_patch name' description' (now w))
                       (categories w))
                    w))
        end
  | msgs => throw (ValidationError msgs)
  end.

(** [Category.findByIdAndUpdate(id, { $inc: { imageCount: n } })] *)
Definition inc_imageCount (id : ObjectId) (n : Z) : M unit :=
  modify (fun w =>
            advance
              (with_categories
                 (update_by_id CategoryDoc._id id
                    (fun c =>
                       CategoryDoc.set_stamps (CategoryDoc.createdAt c) (now w)
                         (CategoryDoc.set_imageCount
                            (CategoryDoc.imageCount c + n)%Z c))
                    (categories w))
                 w)).

(** [Category.findByIdAndDelete(id)] *)
Definition findByIdAndDelete (id : ObjectId) : M (option Category) :=
  fun w =>
    (Ok (find_by_id CategoryDoc._id id (categories w)),
     with_categories (remove_by_id CategoryDoc._id id (categories w)) w).

End CategoryModel.

(* ================================================================== *)
(** ** The Image model *)
(* ================================================================== *)

Module ImageModel.

(** The image metadata the controller hands to the service. *)
Record ImageData : Type := mkData {
  d_title : string;
  d_description : option string;
  d_tags : list string;
  d_isFeatured : bool;
  d_originalFileName : string
}.

(** The body of an update request: the keys of the [updateImage] schema,
    and two keys that schema does not know. *)
Record ImagePatch : Type := mkPatch {
  p_title : option string;
  p_description : option string;
  p_category : option ObjectId;
  p_tags : option (list string);
  p_isFeatured : option bool;
  p_isActive : option bool;
  p_viewCount : option Z
}.

(** A document after [.populate('category', ...)]: the reference is
    replaced by the category found, or by [null]. *)
Record Populated : Type := mkPopulated {
  doc : Image;
  populated_category : option Category
}.

(** [new Image({ ...imageData, category, cloudinaryId, ... })]: setters
    ([trim]) and defaults. *)
Definition new (data : ImageData) (categoryId : ObjectId)
  (up : UploadResult) (thumbnailUrl : string) : M Image :=
  fun w =>
    (Ok (ImageDoc.mk (nextId w)
           (JsString.trim (d_title data))
           (option_map JsString.trim (d_description data))
           categoryId
           (public_id up)
           (secure_url up)
           thumbnailUrl
           (d_originalFileName data)
           (bytes up)
           (format up)
           (up_width up) (up_height up)
           (map JsString.trim (d_tags data))
           true
           (d_isFeatured data)
           0 0 0),
     take_id w).

(** [imageSchema.pre('save')] *)
Definition pre_save (isNew categoryModified : bool) (i : Image) : M unit :=
  if isNew || categoryModified
  then CategoryModel.inc_imageCount (ImageDoc.category i) 1%Z
  else ret tt.

(** [imageSchema.pre('remove')]: the hook of the document method
    [remove()]. *)
Definition pre_remove (i : Image) : M unit :=
  CategoryModel.inc_imageCount (ImageDoc.category i) (-1)%Z.

(** The unique index on [cloudinaryId]. *)
Definition cloudinaryId_taken (i : Image) (l : list Image) : bool :=
  existsb (fun d => negb (ImageDoc._id d =? ImageDoc._id i)
                    && String.eqb (ImageDoc.cloudinaryId d)
                                  (ImageDoc.cloudinaryId i))
          l.

(** [image.save()] on a new document: validation, the hook, the insert. *)
Definition save_new (i : Image) : M Image :=
  match ImageDoc.validate i with
  | [] =>
      await_ pre_save true false i ;;
      fun w =>
        if cloudinaryId_taken i (images w)
        then (Throw (DuplicateKeyError "cloudinaryId" (ImageDoc.cloudinaryId i)),
              w)
        else
          let i' := ImageDoc.set_stamps (now w) (now w) i in
          (Ok i', advance (with_images (images w ++ [i']) w))
  | msgs => throw (ValidationError msgs)
  end.

(** [this.save()] on a loaded document of which only [viewCount] was
    modified: the hook runs with [isNew = false] and an unmodified
    [category], then the modified path is written. *)
Definition save_viewCount (i : Image) : M Image :=
  await_ pre_save false false i ;;
  fun w =>
    (Ok (ImageDoc.set_stamps (ImageDoc.createdAt i) (now w) i),
     advance
       (with_images
          (update_by_id ImageDoc._id (ImageDoc._id i)
             (fun d =>
                ImageDoc.set_stamps (ImageDoc.createdAt d) (now w)
                  (ImageDoc.set_viewCount (ImageDoc.viewCount i) d))
             (images w))
          w)).

(** [imageSchema.methods.incrementViewCount] *)
Definition incrementViewCount (i : Image) : M Image :=
  save_viewCount (ImageDoc.set_viewCount (ImageDoc.viewCount i + 1) i).

Definition findById (id : ObjectId) : M (option Image) :=
  gets (fun w => find_by_id ImageDoc._id id (images w)).

(** [.populate('category', fields)] with an optional [match]. *)
Definition populate (keep : Category -> bool) (cs : list Category)
  (i : Image) : Populated :=
  mkPopulated i
    (match find_by_id CategoryDoc._id (ImageDoc.category i) cs with
     | Some c => if keep c then Some c else None
     | None => None
     end).

Definition or_else {A} (o : option A) (d : A) : A :=
  match o with Some a => a | None => d end.

Definition validate_patch (p : ImagePatch) : list string :=
  match p_title p with
  | Some s => ImageDoc.validate_title (JsString.trim s)
  | None => []
  end
  ++ ImageDoc.validate_description (option_map JsString.trim (p_description p))
  ++ match p_tags p with
     | Some ts => ImageDoc.validate_tags (map JsString.trim ts)
     | None => []
     end
  ++ match p_viewCount p with
     | Some v =>
         if (v <? 0)%Z
         then ["Path `viewCount` is less than minimum allowed value (0)."]
         else []
     | None => []
     end.

Definition apply_patch (p : ImagePatch) (stamp : nat) (i : Image) : Image :=
  ImageDoc.mk (ImageDoc._id i)
    (or_else (option_map JsString.trim (p_title p)) (ImageDoc.title i))
    (match p_description p with
     | Some d => Some (JsString.trim d)
     | None => ImageDoc.description i
     end)
    (or_else (p_category p) (ImageDoc.category i))
    (ImageDoc.cloudinaryId i) (ImageDoc.imageUrl i) (ImageDoc.thumbnailUrl i)
    (ImageDoc.originalFileName i) (ImageDoc.fileSize i) (ImageDoc.mimeType i)
    (ImageDoc.width i) (ImageDoc.height i)
    (or_else (option_map (map JsString.trim) (p_tags p)) (ImageDoc.tags i))
    (or_else (p_isActive p) (ImageDoc.isActive i))
    (or_else (p_isFeatured p) (ImageDoc.isFeatured i))
    (or_else (option_map Z.to_nat (p_viewCount p)) (ImageDoc.viewCount i))
    (ImageDoc.createdAt i) stamp.

(** [Image.findByIdAndUpdate(id, updateData,
      { new: true, runValidators: true })]: a query, no document hook
    runs. *)
Definition findByIdAndUpdate (id : ObjectId) (p : ImagePatch)
  : M (option Image) :=
  match validate_patch p with
  | [] =>
      fun w =>
        match find_by_id ImageDoc._id id (images w) with
        | None => (Ok None, w)
        | Some i =>
            (Ok (Some (apply_patch p (now w) i)),
             advance
               (with_images
                  (update_by_id ImageDoc._id id (apply_patch p (now w))
                     (images w))
                  w))
        end
  | msgs => throw (ValidationError msgs)
  end.

(** [Image.findByIdAndDelete(id)]: a query, no document hook runs. *)
Definition findByIdAndDelete (id : ObjectId) : M (option Image) :=
  fun w =>
    (Ok (find_by_id ImageDoc._id id (images w)),
     with_images (remove_by_id ImageDoc._id id (images w)) w).

(** [Image.deleteMany({ category: id })]; the answer is [deletedCount]. *)
Definition deleteMany_category (id : ObjectId) : M nat :=
  fun w =>
    (Ok (length (filter (fun i => ImageDoc.category i =? id) (images w))),
     with_images
       (filter (fun i => negb (ImageDoc.category i =? id)) (images w)) w).

(** The filters the services build. *)
Record Query : Type := mkQuery {
  q_isActive : option bool;
  q_category : option ObjectId;
  q_isFeatured : option bool;
  q_or_regex : option (list JsString.atom)
    (** [$or] of the regex on title, on description and on the tags *)
}.

Definition opt_test {A} (o : option A) (test : A -> bool) : bool :=
  match o with Some a => test a | None => true end.

Definition regex_on_image (re : list JsString.atom) (i : Image) : bool :=
  JsString.regex_test re (ImageDoc.title i)
  || match ImageDoc.description i with
     | Some d => JsString.regex_test re d
     | None => false
     end
  || existsb (JsString.regex_test re) (ImageDoc.tags i).

Definition matches (q : Query) (i : Image) : bool :=
  opt_test (q_isActive q) (Bool.eqb (ImageDoc.isActive i))
  && opt_test (q_category q) (Nat.eqb (ImageDoc.category i))
  && opt_test (q_isFeatured q) (Bool.eqb (ImageDoc.isFeatured i))
  && opt_test (q_or_regex q) (fun re => regex_on_image re i).

(** The comparison behind [.sort({ [field]: dir })]; a field the model
    does not carry compares equal. *)
Definition compare_field (field : string) (a b : Image) : comparison :=
  if String.eqb field "createdAt"
  then Nat.compare (ImageDoc.createdAt a) (ImageDoc.createdAt b)
  else if String.eqb field "updatedAt"
  then Nat.compare (ImageDoc.updatedAt a) (ImageDoc.updatedAt b)
  else if String.eqb field "viewCount"
  then Nat.compare (ImageDoc.viewCount a) (ImageDoc.viewCount b)
  else if String.eqb field "fileSize"
  then Nat.compare (ImageDoc.fileSize a) (ImageDoc.fileSize b)
  else if String.eqb field "title"
  then String.compare (ImageDoc.title a) (ImageDoc.title b)
  else Eq.

Definition newest_first : Image -> Image -> bool :=
  directed (compare_field "createdAt") (-1)%Z.

(** [Image.find(query).sort(...)] *)
Definition find_sorted (q : Query) (le : Image -> Image -> bool)
  (w : World) : list Image :=
  sort_by le (filter (matches q) (images w)).

Definition countDocuments (q : Query) : M nat :=
  gets (fun w => length (filter (matches q) (images w))).

(** [imageSchema.statics.findFeatured] *)
Definition findFeatured (limit : Z) : M (list Populated) :=
  gets (fun w =>
          map (populate (fun _ => true) (categories w))
            (limit_docs limit
               (find_sorted (mkQuery (Some true) None (Some true) None)
                  newest_first w))).

(** [imageSchema.statics.findByCategoryName]: [if (limit)] skips both
    [null] and [0]; the [match] of [populate] decides which category
    documents are attached. *)
Definition findByCategoryName (categoryName : string) (limit : option Z)
  : M (list Populated) :=
  await re <- regexp categoryName ;;
  gets (fun w =>
          map (populate
                 (fun c => JsString.regex_test re (CategoryDoc.name c)
                           && CategoryDoc.isActive c)
                 (categories w))
            (limit_docs (or_else limit 0%Z)
               (find_sorted (mkQuery (Some true) None None None)
                  newest_first w))).

(** One entry of the homepage: the projection
    [select('title imageUrl thumbnailUrl createdAt')]. *)
Record HomeImage : Type := mkHomeImage {
  h_id : ObjectId;
  h_title : string;
  h_imageUrl : string;
  h_thumbnailUrl : string;
  h_createdAt : nat
}.

Record HomeCategory : Type := mkHomeCategory {
  hc_id : ObjectId;
  hc_name : string;
  hc_slug : string;
  hc_description : option string
}.

Definition project_home (i : Image) : HomeImage :=
  mkHomeImage (ImageDoc._id i) (ImageDoc.title i) (ImageDoc.imageUrl i)
    (ImageDoc.thumbnailUrl i) (ImageDoc.createdAt i).

(** [imageSchema.statics.getHomepageData] *)
Definition getHomepageData : M (list (HomeCategory * list HomeImage)) :=
  await cats <- CategoryModel.find_sorted_by_name CategoryDoc.isActive ;;
  gets (fun w =>
          map (fun c =>
                 (mkHomeCategory (CategoryDoc._id c) (CategoryDoc.name c)
                    (CategoryDoc.slug c) (CategoryDoc.description c),
                  map project_home
                    (limit_docs 20%Z
                       (find_sorted
                          (mkQuery (Some true) (Some (CategoryDoc._id c))
                             None None)
                          newest_first w))))
              cats).

End ImageModel.

(** [categorySchema.methods.updateImageCount] *)
Definition updateImageCount (c : Category) : M Category :=
  await count <-
    ImageModel.countDocuments
      (ImageModel.mkQuery (Some true) (Some (CategoryDoc._id c)) None None) ;;
  CategoryModel.save_imageCount
    (CategoryDoc.set_imageCount (Z.of_nat count) c).

(* ================================================================== *)
(** ** The asset-host wrapper ([config/cloudinary.js]) *)
(* ================================================================== *)

Module cloudinaryConfig.

Definition not_configured : JsError :=
  PlainError "Cloudinary is not configured".

(** [uploadImage(fileBuffer, { public_id, transformation })] *)
Definition uploadImage (fileBuffer : Buffer) (publicId : string)
  : M UploadResult :=
  fun w =>
    if isConfigured w then
      match upload_stream (host w) fileBuffer publicId with
      | Some r => (Ok r, with_call (CallUpload publicId) w)
      | None =>
          (Throw (UpstreamError "upload failed"),
           with_call (CallUpload publicId) w)
      end
    else (Throw not_configured, w).

(** [deleteImage(publicId)] *)
Definition deleteImage (publicId : string) : M unit :=
  fun w =>
    if isConfigured w then
      if uploader_destroy (host w) publicId
      then (Ok tt, with_call (CallDestroy publicId) w)
      else (Throw (UpstreamError "destroy failed"),
            with_call (CallDestroy publicId) w)
    else (Throw not_configured, w).

(** [getImageUrl(publicId, options)]: no call to the host. *)
Definition getImageUrl (publicId : string) : M string :=
  fun w =>
    if isConfigured w then (Ok (cloudinary_url (host w) publicId), w)
    else (Throw not_configured, w).

End cloudinaryConfig.

(** The calls of one kind in a log. *)
Definition is_destroy (c : HostCall) : bool :=
  match c with CallDestroy _ => true | _ => false end.

Definition destroy_calls (w : World) : list HostCall :=
  filter is_destroy (hostCalls w).

(* ================================================================== *)
(** ** CategoryService *)
(* ================================================================== *)

Module CategoryService.

Definition not_found : JsError := PlainError "Category not found".

Definition createCategory (categoryData : CategoryModel.CategoryData)
  : M Category :=
  try_rethrow
    (await category <- CategoryModel.new categoryData ;;
     CategoryModel.save_new category).

Definition getAllCategories : M (list Category) :=
  try_rethrow (CategoryModel.find_sorted_by_name CategoryDoc.isActive).

(** The virtual [images] is filled by [populate('images')]. *)
Definition getCategoryById (categoryId : ObjectId)
  : M (Category * list Image) :=
  try_rethrow
    (await found <- CategoryModel.findOne_active categoryId ;;
     match found with
     | None => throw not_found
     | Some category =>
         gets (fun w =>
                 (category,
                  filter (fun i => ImageDoc.category i =? categoryId)
                         (images w)))
     end).

Definition getCategoryByName (categoryName : string) : M Category :=
  try_rethrow
    (await re <- regexp categoryName ;;
     await found <-
       gets (fun w =>
               find (fun c => JsString.regex_test re (CategoryDoc.name c)
                              && CategoryDoc.isActive c)
                    (categories w)) ;;
     match found with
     | None => throw not_found
     | Some category => ret category
     end).

Definition getCategoryBySlug (slug : string) : M Category :=
  try_rethrow
    (await found <- CategoryModel.findBySlug slug ;;
     match found with
     | None => throw not_found
     | Some category => ret category
     end).

Definition updateCategory (categoryId : ObjectId)
  (updateData : CategoryModel.CategoryPatch) : M Category :=
  try_rethrow
    (await found <- CategoryModel.findByIdAndUpdate categoryId updateData ;;
     match found with
     | None => throw not_found
     | Some category => ret category
     end).

(** The summary [deleteCategory] returns. *)
Record Deleted : Type := mkDeleted {
  deleted_category : string;
  deletedImagesCount : nat
}.

Definition deleteCategory (categoryId : ObjectId) : M Deleted :=
  try_rethrow
    (await found <- CategoryModel.findById categoryId ;;
     match found with
     | None => throw not_found
     | Some category =>
         await deletedCount <- ImageModel.deleteMany_category categoryId ;;
         await_ CategoryModel.findByIdAndDelete categoryId ;;
         ret (mkDeleted (CategoryDoc.name category) deletedCount)
     end).

Definition regex_on_category (re : list JsString.atom) (c : Category)
  : bool :=
  JsString.regex_test re (CategoryDoc.name c)
  || match CategoryDoc.description c with
     | Some d => JsString.regex_test re d
     | None => false
     end.

Definition searchCategories (searchTerm : string) : M (list Category) :=
  try_rethrow
    (await re <- regexp searchTerm ;;
     CategoryModel.find_sorted_by_name
       (fun c => CategoryDoc.isActive c && regex_on_category re c)).

End CategoryService.

(* ================================================================== *)
(** ** ImageService *)
(* ================================================================== *)

Module ImageService.

Definition not_found : JsError := PlainError "Image not found".

(** [`marriage-hall/${category.name.toLowerCase()}/${Date.now()}`] *)
Definition upload_public_id (category : Category) (w : World) : string :=
  "marriage-hall/" ++ JsString.toLowerCase (CategoryDoc.name category)
  ++ "/" ++ JsString.of_nat (now w).

Definition uploadImage (fileBuffer : Buffer)
  (imageData : ImageModel.ImageData) (categoryId : ObjectId) : M Image :=
  try_rethrow
    (await found <- CategoryModel.findById categoryId ;;
     match found with
     | None => throw CategoryService.not_found
     | Some category =>
         await publicId <- gets (upload_public_id category) ;;
         await cloudinaryResult <-
           cloudinaryConfig.uploadImage fileBuffer publicId ;;
         await thumbnailUrl <-
           cloudinaryConfig.getImageUrl (public_id cloudinaryResult) ;;
         await image <-
           ImageModel.new imageData categoryId cloudinaryResult thumbnailUrl ;;
         ImageModel.save_new image
     end).

Definition getHomepageData
  : M (list (ImageModel.HomeCategory * list ImageModel.HomeImage)) :=
  try_rethrow ImageModel.getHomepageData.

Definition getImagesByCategory (categoryName : string) (limit : option Z)
  : M (list ImageModel.Populated) :=
  try_rethrow (ImageModel.findByCategoryName categoryName limit).

Definition getImageById (imageId : ObjectId) : M ImageModel.Populated :=
  try_rethrow
    (await found <- ImageModel.findById imageId ;;
     match found with
     | None => throw not_found
     | Some image =>
         await saved <- ImageModel.incrementViewCount image ;;
         gets (fun w => ImageModel.populate (fun _ => true) (categories w) saved)
     end).

(** The [options] of [getAllImages]; an absent field is [undefined]. *)
Record Options : Type := mkOptions {
  o_page : option Z;
  o_limit : option Z;
  o_sortBy : option string;
  o_sortOrder : option string;
  o_category : option ObjectId;
  o_featured : option string;
  o_search : option string
}.

Record Pagination : Type := mkPagination {
  pg_page : Z;
  pg_limit : Z;
  pg_total : Z;
  pg_totalPages : option Z;  (** [None]: not a finite number *)
  pg_hasNext : bool;
  pg_hasPrev : bool
}.

Record Page : Type := mkPage {
  page_images : list ImageModel.Populated;
  pagination : Pagination
}.

(** Mongoose's cast of a query value to a boolean. *)
Definition cast_boolean (s : string) : option bool :=
  if String.eqb s "true" || String.eqb s "1" || String.eqb s "yes"
  then Some true
  else if String.eqb s "false" || String.eqb s "0" || String.eqb s "no"
  then Some false
  else None.

Definition truthy_string (o : option string) : option string :=
  match o with
  | Some s => if String.length s =? 0 then None else Some s
  | None => None
  end.

(** [Math.ceil(total / limit)] *)
Definition ceil_div (total limit : Z) : option Z :=
  if (limit =? 0)%Z then None else Some (- ((- total) / limit))%Z.

Definition getAllImages (options : Options) : M Page :=
  try_rethrow
    (let page := ImageModel.or_else (o_page options) 1%Z in
     let limit := ImageModel.or_else (o_limit options) 20%Z in
     let sortBy := ImageModel.or_else (o_sortBy options) "createdAt" in
     let sortOrder := ImageModel.or_else (o_sortOrder options) "desc" in
     await isFeatured <-
       match o_featured options with
       | None => ret None
       | Some s =>
           match cast_boolean s with
           | Some b => ret (Some b)
           | None => throw (CastError "isFeatured" s)
           end
       end ;;
     await re <-
       match truthy_string (o_search options) with
       | None => ret None
       | Some s => await r <- regexp s ;; ret (Some r)
       end ;;
     let query :=
       ImageModel.mkQuery (Some true) (o_category options) isFeatured re in
     let dir := if String.eqb sortOrder "desc" then (-1)%Z else 1%Z in
     let skip := ((page - 1) * limit)%Z in
     if (skip <? 0)%Z
     then throw (MongoError "Skip value must be non-negative")
     else
       await found <-
         gets (fun w =>
                 map (ImageModel.populate (fun _ => true) (categories w))
                   (limit_docs limit
                      (skipn (Z.to_nat skip)
                         (ImageModel.find_sorted query
                            (directed (ImageModel.compare_field sortBy) dir)
                            w)))) ;;
       await count <- ImageModel.countDocuments query ;;
       let total := Z.of_nat count in
       let totalPages := ceil_div total limit in
       ret (mkPage found
              (mkPagination page limit total totalPages
                 (match totalPages with
                  | Some tp => (page <? tp)%Z
                  | None => (0 <? total)%Z
                  end)
                 (1 <? page)%Z))).

Definition updateImage (imageId : ObjectId)
  (updateData : ImageModel.ImagePatch) : M ImageModel.Populated :=
  try_rethrow
    (await found <- ImageModel.findByIdAndUpdate imageId updateData ;;
     match found with
     | None => throw not_found
     | Some image =>
         gets (fun w => ImageModel.populate (fun _ => true) (categories w) image)
     end).

(** The summary [deleteImage] returns. *)
Record Deleted : Type := mkDeleted {
  deleted_title : string;
  deleted_cloudinaryId : string
}.

Definition deleteImage (imageId : ObjectId) : M Deleted :=
  try_rethrow
    (await found <- ImageModel.findById imageId ;;
     match found with
     | None => throw not_found
     | Some image =>
         await_ cloudinaryConfig.deleteImage (ImageDoc.cloudinaryId image) ;;
         await_ ImageModel.findByIdAndDelete imageId ;;
         ret (mkDeleted (ImageDoc.title image) (ImageDoc.cloudinaryId image))
     end).

Definition getFeaturedImages (limit : Z) : M (list ImageModel.Populated) :=
  try_rethrow (ImageModel.findFeatured limit).

(** [{ ...options, search: searchTerm }] *)
Definition searchImages (searchTerm : string) (options : Options) : M Page :=
  try_rethrow
    (getAllImages
       (mkOptions (o_page options) (o_limit options) (o_sortBy options)
          (o_sortOrder options) (o_category options) (o_featured options)
          (Some searchTerm))).

End ImageService.

(* ================================================================== *)
(** ** The HTTP layer: validation, controllers, error handler *)
(* ================================================================== *)

Module Http.

(** What a handler sends back. *)
Inductive Payload : Type :=
| NoData
| OneCategory (c : Category)
| OneImage (i : ImageModel.Populated)
| ImagePage (l : list ImageModel.Populated) (p : ImageService.Pagination)
| FieldErrors (fields : list string).

Record Response : Type := mkResponse {
  status : nat;
  success : bool;
  message : string;
  data : Payload
}.

(** [AppError] of [middleware/errorHandler.js]. *)
Record AppError : Type := mkAppError {
  ae_message : string;
  statusCode : nat;
  isOperational : bool
}.

Definition handleDuplicateKeyError (field value : string) : AppError :=
  mkAppError (field ++ " '" ++ value ++ "' already exists") 400 true.

Definition handleValidationError (messages : list string) : AppError :=
  mkAppError ("Invalid input data: " ++ String.concat ". " messages) 400 true.

Definition handleCastError (path value : string) : AppError :=
  mkAppError ("Invalid " ++ path ++ ": " ++ value) 400 true.

Definition error_message (e : JsError) : string :=
  match e with
  | PlainError m => m
  | DuplicateKeyError f v => "E11000 duplicate key error: " ++ f ++ " " ++ v
  | ValidationError ms => String.concat ", " ms
  | CastError p v => "Cast failed for " ++ p ++ ": " ++ v
  | MongoError m => m
  | UpstreamError m => m
  end.

(** The errors the services throw carry no [statusCode], so the handler
    starts from 500; the error is an [AppError] only after one of the
    three conversions.  The handler reads [name] and [code] from a copy
    of the error, and the model takes both to be present on the copy. *)
Definition classify (e : JsError) : option AppError :=
  match e with
  | CastError p v => Some (handleCastError p v)
  | DuplicateKeyError f v => Some (handleDuplicateKeyError f v)
  | ValidationError ms => Some (handleValidationError ms)
  | _ => None
  end.

(** [errorHandler], with [development] for
    [process.env.NODE_ENV === 'development']. *)
Definition errorHandler (development : bool) (e : JsError) : Response :=
  match classify e with
  | Some app =>
      (* sendErrorDev: err.statusCode; sendErrorProd: operational *)
      mkResponse (statusCode app) false (ae_message app) NoData
  | None =>
      if development
      then mkResponse 500 false (error_message e) NoData
      else mkResponse 500 false "Something went wrong!" NoData
  end.

(** [asyncHandler(fn)] followed by the error middleware. *)
Definition asyncHandler {A} (development : bool) (fn : M A)
  (respond : A -> Response) : World -> Response * World :=
  fun w =>
    match fn w with
    | (Ok a, w') => (respond a, w')
    | (Throw e, w') => (errorHandler development e, w')
    end.

(** *** [middleware/validation.js] *)

(** [schemas.createCategory]: the fields that fail. *)
Definition schema_createCategory (body : CategoryModel.CategoryData)
  : list string :=
  (if (String.length (CategoryModel.d_name body) <? 2)
      || (50 <? String.length (CategoryModel.d_name body))
   then ["name"] else [])
  ++ match CategoryModel.d_description body with
     | Some d =>
         if (String.length d =? 0) || (200 <? String.length d)
         then ["description"] else []
     | None => []
     end.



Definition spread {A} (under over : option A) : option A :=
  match over with Some a => Some a | None => under end.


Definition validation_failed (fields : list string) : Response :=
  mkResponse 400 false "Validation failed" (FieldErrors fields).


(** [schemas.pagination], the bounds on [limit]:
    [Joi.number().integer().min(1).max(100).default(20)].  The schema
    accepts or rejects; no route of [routes/imageRoutes.js] installs
    it. *)
Definition schema_pagination_limit (limit : option Z) : option Z :=
  match limit with
  | None => Some 20%Z
  | Some l => if (1 <=? l)%Z && (l <=? 100)%Z then Some l else None
  end.

(** *** Routes *)

(** [POST /api/categories]:
    [validate('createCategory'), CategoryController.createCategory]. *)
Definition POST_categories (development : bool)
  (body : CategoryModel.CategoryData) : World -> Response * World :=
  match schema_createCategory body with
  | [] =>
      asyncHandler development (CategoryService.createCategory body)
        (fun category =>
           mkResponse 201 true "Category created successfully"
             (OneCategory category))
  | fields => fun w => (validation_failed fields, w)
  end.

(** A query string: the parameters by name. *)
Definition QueryString := list (string * string).

Fixpoint param (key : string) (q : QueryString) : option string :=
  match q with
  | [] => None
  | (k, v) :: r => if String.eqb k key then Some v else param key r
  end.

(** [x || d] on an optional string. *)
Definition string_or (o : option string) (d : string) : string :=
  match ImageService.truthy_string o with Some s => s | None => d end.

(** Mongoose's cast of a 24-digit hexadecimal string to an [ObjectId];
    the ids of the model are the numbers such strings denote. *)
Definition cast_objectId (s : string) : option ObjectId :=
  if (String.length s =? 24)
     && forallb (fun c => match JsString.digit_val 16 c with
                          | Some _ => true
                          | None => false
                          end)
                (JsString.chars s)
  then option_map Z.to_nat (JsString.read_digits 16 None (JsString.chars s))
  else None.

(** The [options] object [ImageController.getAllImages] builds from
    [req.query].  The category arrives as text; the cast Mongoose applies
    to it when the query runs is made here. *)
Definition getAllImages_options (query : QueryString)
  : result ImageService.Options :=
  match
    match ImageService.truthy_string (param "category" query) with
    | None => Some None
    | Some s => option_map Some (cast_objectId s)
    end
  with
  | None =>
      Throw (CastError "category"
               (ImageModel.or_else (param "category" query) ""))
  | Some category =>
      Ok (ImageService.mkOptions
            (Some (JsString.parseInt_or (param "page" query) 1%Z))
            (Some (JsString.parseInt_or (param "limit" query) 20%Z))
            (Some (string_or (param "sortBy" query) "createdAt"))
            (Some (string_or (param "sortOrder" query) "desc"))
            category
            (param "featured" query)
            (param "search" query))
  end.

(** [GET /api/images]: [ImageController.getAllImages], with no validation
    middleware before it. *)
Definition GET_images (development : bool) (query : QueryString)
  : World -> Response * World :=
  asyncHandler development
    (match getAllImages_options query with
     | Ok options => ImageService.getAllImages options
     | Throw e => throw e
     end)
    (fun page =>
       mkResponse 200 true "Images retrieved successfully"
         (ImagePage (ImageService.page_images page)
            (ImageService.pagination page))).

(** The records of a list response. *)
Definition records (r : Response) : list ImageModel.Populated :=
  match data r with
  | ImagePage l _ => l
  | _ => []
  end.


End Http.

(* ================================================================== *)
(** ** The older router ([routes/index.js], [model/]) *)
(* ================================================================== *)

Module Legacy.

(** [model/Image.js] and [model/Category.js]. *)
Record LImage : Type := mkImage {
  i_id : ObjectId;
  i_category : ObjectId;
  i_image : string;     (** the asset's URL *)
  i_createdAt : nat
}.

Record LCategory : Type := mkCategory {
  c_id : ObjectId;
  c_name : string
}.

Record LWorld : Type := mkWorld {
  l_categories : list LCategory;
  l_images : list LImage;
  l_now : nat;
  l_nextId : ObjectId;
  l_host : AssetHost;
  l_calls : list HostCall
}.

Definition log_call (c : HostCall) (w : LWorld) : LWorld :=
  mkWorld (l_categories w) (l_images w) (l_now w) (l_nextId w) (l_host w)
          (l_calls w ++ [c]).

Record Response : Type := mkResponse {
  status : nat;
  success : bool;
  deletedImagesCount : option nat
}.

(** [urlParts[urlParts.length - 1].split('.')[0]] *)
Definition publicId_of_url (url : string) : string :=
  hd "" (JsString.split "."%char (last (JsString.split "/"%char url) "")).

(** [`myapp/${category.name}/${publicId}`] *)
Definition fullPublicId (category : LCategory) (image : LImage) : string :=
  "myapp/" ++ c_name category ++ "/" ++ publicId_of_url (i_image image).

(** One iteration of the clean-up loop: the call is issued; a failure is
    logged and the loop goes on. *)
Definition destroy_one (category : LCategory) (w : LWorld) (image : LImage)
  : LWorld :=
  let publicId := fullPublicId category image in
  if uploader_destroy (l_host w) publicId
  then log_call (CallDestroy publicId) w
  else (* console.error(...) *) log_call (CallDestroy publicId) w.

(** [router.delete('/categories/:categoryId')] *)
Definition DELETE_category (categoryId : ObjectId) (w : LWorld)
  : Response * LWorld :=
  match find_by_id c_id categoryId (l_categories w) with
  | None => (mkResponse 404 false None, w)
  | Some category =>
      let found := filter (fun i => i_category i =? categoryId) (l_images w) in
      let w1 := fold_left (destroy_one category) found w in
      let w2 :=
        mkWorld (remove_by_id c_id categoryId (l_categories w1))
          (filter (fun i => negb (i_category i =? categoryId)) (l_images w1))
          (l_now w1) (l_nextId w1) (l_host w1) (l_calls w1) in
      let w3 :=
        log_call (CallDeleteFolder ("myapp/" ++ c_name category)%string) w2 in
      (mkResponse 200 true (Some (length found)), w3)
  end.

(** [Category.create({ name })] under the schema's [trim], [lowercase]
    and [unique]. *)
Definition create_category (name : string) (w : LWorld)
  : option LCategory * LWorld :=
  let stored := JsString.toLowerCase (JsString.trim name) in
  if existsb (fun c => String.eqb (c_name c) stored) (l_categories w)
  then (None, w)
  else
    let c := mkCategory (l_nextId w) stored in
    (Some c,
     mkWorld (l_categories w ++ [c]) (l_images w) (S (l_now w))
       (S (l_nextId w)) (l_host w) (l_calls w)).

(** One upload of [POST /categories-with-images]: the asset first, the
    record only when the asset exists. *)
Definition upload_one (category : LCategory) (acc : bool * LWorld)
  (file : Buffer) : bool * LWorld :=
  let (all_ok, w) := acc in
  let folder := ("myapp/" ++ c_name category)%string in
  let w1 := log_call (CallUpload folder) w in
  match upload_stream (l_host w) file folder with
  | Some r =>
      (all_ok,
       mkWorld (l_categories w1)
         (l_images w1
          ++ [mkImage (l_nextId w1) (c_id category) (secure_url r) (l_now w1)])
         (S (l_now w1)) (S (l_nextId w1)) (l_host w1) (l_calls w1))
  | None => (false, w1)
  end.

(** [router.post('/categories-with-images')] *)
Definition POST_category_with_images (name : string) (files : list Buffer)
  (w : LWorld) : Response * LWorld :=
  if String.length name =? 0 then (mkResponse 400 false None, w)
  else if length files =? 0 then (mkResponse 400 false None, w)
  else if 10 <? length files then (mkResponse 400 false None, w)
  else
    match create_category (JsString.toLowerCase (JsString.trim name)) w with
    | (None, w1) =>
        (* error.code === 11000 *)
        (mkResponse 409 false None, w1)
    | (Some category, w1) =>
        let (all_ok, w2) := fold_left (upload_one category) files (true, w1) in
        if all_ok then (mkResponse 201 true None, w2)
        else (mkResponse 500 false None, w2)
    end.

Definition destroy_calls (w : LWorld) : list HostCall :=
  filter is_destroy (l_calls w).

End Legacy.

(* ================================================================== *)
(** ** Operations of the two services, as a caller sees them *)
(* ================================================================== *)

Inductive Operation : Type :=
| CreateCategory (data : CategoryModel.CategoryData)
| GetAllCategories
| GetCategoryById (id : ObjectId)
| GetCategoryByName (name : string)
| GetCategoryBySlug (slug : string)
| UpdateCategory (id : ObjectId) (patch : CategoryModel.CategoryPatch)
| DeleteCategory (id : ObjectId)
| SearchCategories (term : string)
| UploadImage (file : Buffer) (data : ImageModel.ImageData) (id : ObjectId)
| GetHomepageData
| GetImagesByCategory (name : string) (limit : option Z)
| GetImageById (id : ObjectId)
| GetAllImages (options : ImageService.Options)
| UpdateImage (id : ObjectId) (patch : ImageModel.ImagePatch)
| DeleteImage (id : ObjectId)
| GetFeaturedImages (limit : Z)
| SearchImages (term : string) (options : ImageService.Options).

(** The world an operation leaves, whether it returned or threw. *)
Definition run (op : Operation) (w : World) : World :=
  match op with
  | CreateCategory d => world_after (CategoryService.createCategory d) w
  | GetAllCategories => world_after CategoryService.getAllCategories w
  | GetCategoryById id => world_after (CategoryService.getCategoryById id) w
  | GetCategoryByName n => world_after (CategoryService.getCategoryByName n) w
  | GetCategoryBySlug s => world_after (CategoryService.getCategoryBySlug s) w
  | UpdateCategory id p => world_after (CategoryService.updateCategory id p) w
  | DeleteCategory id => world_after (CategoryService.deleteCategory id) w
  | SearchCategories t => world_after (CategoryService.searchCategories t) w
  | UploadImage f d id => world_after (ImageService.uploadImage f d id) w
  | GetHomepageData => world_after ImageService.getHomepageData w
  | GetImagesByCategory n l =>
      world_after (ImageService.getImagesByCategory n l) w
  | GetImageById id => world_after (ImageService.getImageById id) w
  | GetAllImages o => world_after (ImageService.getAllImages o) w
  | UpdateImage id p => world_after (ImageService.updateImage id p) w
  | DeleteImage id => world_after (ImageService.deleteImage id) w
  | GetFeaturedImages l => world_after (ImageService.getFeaturedImages l) w
  | SearchImages t o => world_after (ImageService.searchImages t o) w
  end.


(** The persisted view count of the image [id]. *)
Definition viewCount_at (id : ObjectId) (w : World) : option nat :=
  option_map ImageDoc.viewCount (find_by_id ImageDoc._id id (images w)).

(** The persisted [imageCount] of the category [id]. *)
Definition imageCount_at (id : ObjectId) (w : World) : option Z :=
  option_map CategoryDoc.imageCount
    (find_by_id CategoryDoc._id id (categories w)).

(** The number of active images that reference the category [id]. *)
Definition active_images_of (id : ObjectId) (w : World) : nat :=
  length (filter (fun i => (ImageDoc.category i =? id) && ImageDoc.isActive i)
                 (images w)).

(** The images that reference the category [id]. *)
Definition images_of (id : ObjectId) (w : World) : list Image :=
  filter (fun i => ImageDoc.category i =? id) (images w).

(** The store keeps [_id] unique within a collection. *)
Definition unique_ids (w : World) : Prop :=
  NoDup (map ImageDoc._id (images w))
  /\ NoDup (map CategoryDoc._id (categories w)).

(** [n] calls of [getImageById] in sequence. *)
Fixpoint repeat_getImageById (n : nat) (id : ObjectId) (w : World) : World :=
  match n with
  | 0 => w
  | S k => repeat_getImageById k id (run (GetImageById id) w)
  end.

(** The remote upload of [uploadImage] fails in [w]: the wrapper is not
    configured, or the host rejects the upload. *)
Definition upload_fails (file : Buffer) (c : Category) (w : World) : Prop :=
  isConfigured w = false
  \/ upload_stream (host w) file (ImageService.upload_public_id c w) = None.

Definition is_throw {A} (r : result A) : Prop :=
  match r with Throw _ => True | Ok _ => False end.

(* ================================================================== *)
(** ** The slug as the specification words it *)
(* ================================================================== *)

Module SlugSpec.

(** A character outside [[a-z0-9]] stands for its whole run when it is
    the last one of the run: it gives the single hyphen of the run. *)
Fixpoint hyphen_per_run (cs : list ascii) : list ascii :=
  match cs with
  | [] => []
  | c :: r =>
      if JsString.is_slug_char c then c :: hyphen_per_run r
      else
        match r with
        | d :: _ =>
            if JsString.is_slug_char d
            then JsString.hyphen :: hyphen_per_run r
            else hyphen_per_run r
        | [] => [JsString.hyphen]
        end
  end.

(** Every leading hyphen removed. *)
Fixpoint drop_hyphens (cs : list ascii) : list ascii :=
  match cs with
  | [] => []
  | c :: r => if JsString.is_hyphen c then drop_hyphens r else cs
  end.

(** Lowercase, one hyphen per maximal run of non-alphanumeric
    characters, leading and trailing hyphens removed. *)
Definition spec_slug (name : string) : string :=
  JsString.str
    (rev (drop_hyphens
            (rev (drop_hyphens
                    (hyphen_per_run
                       (JsString.chars (JsString.toLowerCase name))))))).

(** Two hyphens in a row somewhere in [cs]. *)
Definition adjacent_hyphens (cs : list ascii) : Prop :=
  exists l1 l2, cs = l1 ++ JsString.hyphen :: JsString.hyphen :: l2.

End SlugSpec.

(** The names of two create requests are equal after trimming and
    ignoring case. *)
Definition same_name (n1 n2 : string) : Prop :=
  JsString.toLowerCase (JsString.trim n1)
  = JsString.toLowerCase (JsString.trim n2).

(** A computation that issues no call to the asset host. *)
Definition keeps_calls {A} (m : M A) : Prop :=
  forall w, hostCalls (snd (m w)) = hostCalls w.

(** The document [createCategory] tries to insert in [w]. *)
Definition candidate (d : CategoryModel.CategoryData) (w : World) : Category :=
  CategoryModel.pre_save true
    (CategoryDoc.mk (nextId w) (JsString.trim (CategoryModel.d_name d))
       (option_map JsString.trim (CategoryModel.d_description d))
       "" true 0%Z 0 0).

(** The document [uploadImage] builds from the answer [r] of the host. *)
Definition uploaded_doc (data : ImageModel.ImageData) (id : ObjectId)
  (r : UploadResult) (w : World) : Image :=
  ImageDoc.mk (nextId w)
    (JsString.trim (ImageModel.d_title data))
    (option_map JsString.trim (ImageModel.d_description data))
    id (public_id r) (secure_url r)
    (cloudinary_url (host w) (public_id r))
    (ImageModel.d_originalFileName data) (bytes r) (format r)
    (up_width r) (up_height r)
    (map JsString.trim (ImageModel.d_tags data))
    true (ImageModel.d_isFeatured data) 0 0 0.

(** The world once the save hook of a new image has counted it. *)
Definition counted (id : ObjectId) (w : World) : World :=
  snd (CategoryModel.inc_imageCount id 1%Z w).

(** The characters a slug is made of. *)
Definition slug_alphabet (c : ascii) : Prop :=
  JsString.is_slug_char c = true \/ c = JsString.hyphen.

(** A computation that leaves the world as it found it. *)
Definition reads_only {A} (m : M A) : Prop :=
  forall w, snd (m w) = w.

(** The ids of the records of an answer. *)
Definition ids_of (l : list ImageModel.Populated) : list ObjectId :=
  map (fun p => ImageDoc._id (ImageModel.doc p)) l.

(* ================================================================== *)
(** ** Scenarios *)
(* ================================================================== *)

Module Scenario.

(** A host that accepts every call, and one that rejects every call. *)
Definition accepting : AssetHost :=
  mkHost
    (fun _ publicId =>
       Some (mkUpload publicId
               ("https://assets.test/" ++ publicId ++ ".jpg")%string
               2048 "jpg" 800 600))
    (fun _ => true)
    (fun _ => true)
    (fun publicId => ("https://assets.test/thumb/" ++ publicId)%string).

Definition rejecting : AssetHost :=
  mkHost (fun _ _ => None) (fun _ => false) (fun _ => false)
    (fun publicId => publicId).

Definition empty : World := mkWorld [] [] 1000 1 true accepting [].

Definition empty_rejecting : World := mkWorld [] [] 1000 1 true rejecting [].

Definition category_data (name : string) : CategoryModel.CategoryData :=
  CategoryModel.mkData name None.

Definition image_data (title : string) : ImageModel.ImageData :=
  ImageModel.mkData title None [] false "photo.jpg".

Definition file : Buffer := [].

(** One category (id 1) owning two uploaded images (ids 2 and 3). *)
Definition halls_with_two_images : World :=
  run (UploadImage file (image_data "Stage") 1)
    (run (UploadImage file (image_data "Entrance") 1)
       (run (CreateCategory (category_data "Halls")) empty)).

(** "Outdoor Venues" (id 1) with the image "Sunset Shot" (id 2). *)
Definition outdoor_with_sunset : World :=
  run (UploadImage file (image_data "Sunset Shot") 1)
    (run (CreateCategory (category_data "Outdoor Venues")) empty).

(** "Grand Hall" (id 1). *)
Definition grand_hall : World :=
  run (CreateCategory (category_data "Grand Hall")) empty.

(** "Halls" (id 1) without images, "Gardens" (id 2) with one image
    (id 3). *)
Definition halls_and_gardens : World :=
  run (UploadImage file (image_data "Rose walk") 2)
    (run (CreateCategory (category_data "Gardens"))
       (run (CreateCategory (category_data "Halls")) empty)).

(** A store of [n] active images of category 1. *)
Definition stored_image (k : nat) : Image :=
  ImageDoc.mk (S k) "Photo" None 1 (JsString.of_nat k) "u" "t" "f.jpg" 1
    "jpg" 1 1 [] true false 0 k k.

Definition many_images (n : nat) : World :=
  mkWorld
    [CategoryDoc.mk 1 "Halls" None "halls" true (Z.of_nat n) 0 0]
    (map stored_image (seq 1 n)) 1000 (n + 2) true accepting [].

(** The image "Sunset Shot" after five reads by id. *)
Definition sunset_viewed_five_times : World :=
  repeat_getImageById 5 2 outdoor_with_sunset.

Definition reset_views : ImageModel.ImagePatch :=
  ImageModel.mkPatch None None None None None None (Some 0%Z).

Definition deactivate : ImageModel.ImagePatch :=
  ImageModel.mkPatch None None None None None (Some false) None.

Definition rename (name : string) : CategoryModel.CategoryPatch :=
  CategoryModel.mkPatch (Some name) None.

(** "Sunset Shot" after an update that sets [isActive] to [false]. *)
Definition sunset_deactivated : World :=
  run (UpdateImage 2 deactivate) outdoor_with_sunset.

(** Options that ask for nothing but a search. *)
Definition search_for (term : string) : ImageService.Options :=
  ImageService.mkOptions None None None None None None (Some term).

(** "hull" (id 1) with the image "Hill view" (id 2). *)
Definition hull_with_hill : World :=
  run (UploadImage file (image_data "Hill view") 1)
    (run (CreateCategory (category_data "hull")) empty).

(** The older store: "halls" (id 1) with two images. *)
Definition legacy_halls (h : AssetHost) : Legacy.LWorld :=
  Legacy.mkWorld
    [Legacy.mkCategory 1 "halls"]
    [Legacy.mkImage 2 1 "https://assets.test/v1/myapp/halls/abc.jpg" 10;
     Legacy.mkImage 3 1 "https://assets.test/v1/myapp/halls/def.png" 11]
    1000 4 h [].

End Scenario.

(* ================================================================== *)
(** ** More routes ([routes/imageRoutes.js], [routes/categoryRoutes.js],
       the controllers they install) *)
(* ================================================================== *)

Module Routes.

Definition is_hex (c : ascii) : bool :=
  match JsString.digit_val 16 c with Some _ => true | None => false end.

(** [validateObjectId(paramName)]: the test of
    [/^[0-9a-fA-F]{24}$/]. *)
Definition validateObjectId (param : string) : bool :=
  (String.length param =? 24) && forallb is_hex (JsString.chars param).

Definition invalid_id : Http.Response :=
  Http.mkResponse 400 false "Invalid id format" Http.NoData.

(** A route guarded by [validateObjectId('id')]: the handler runs on the
    id the parameter denotes. *)
Definition with_id {A} (development : bool) (param : string)
  (handler : ObjectId -> M A) (respond : A -> Http.Response)
  : World -> Http.Response * World :=
  if validateObjectId param then
    match Http.cast_objectId param with
    | Some id => Http.asyncHandler development (handler id) respond
    | None =>
        fun w => (Http.errorHandler development (CastError "_id" param), w)
    end
  else fun w => (invalid_id, w).

(** [GET /api/images/:id] *)
Definition GET_image (development : bool) (param : string)
  : World -> Http.Response * World :=
  with_id development param ImageService.getImageById
    (fun image =>
       Http.mkResponse 200 true "Image retrieved successfully"
         (Http.OneImage image)).

(** [GET /api/categories/:id] *)
Definition GET_category (development : bool) (param : string)
  : World -> Http.Response * World :=
  with_id development param CategoryService.getCategoryById
    (fun found =>
       Http.mkResponse 200 true "Category retrieved successfully"
         (Http.OneCategory (fst found))).

(** [DELETE /api/images/:id]; the summary of the deletion is not part of
    the modelled payload. *)
Definition DELETE_image (development : bool) (param : string)
  : World -> Http.Response * World :=
  with_id development param ImageService.deleteImage
    (fun _ => Http.mkResponse 200 true "Image deleted successfully" Http.NoData).

(** [DELETE /api/categories/:id] *)
Definition DELETE_category (development : bool) (param : string)
  : World -> Http.Response * World :=
  with_id development param CategoryService.deleteCategory
    (fun _ =>
       Http.mkResponse 200 true "Category deleted successfully" Http.NoData).

(** The part of [process.env] the upload routes read. *)
Record Env : Type := mkEnv {
  ALLOWED_FILE_TYPES : option string;
  MAX_FILE_SIZE : option string
}.

(** [req.file], as the multipart parser leaves it. *)
Record File : Type := mkFile {
  originalname : string;
  mimetype : string;
  size : nat;
  buffer : Buffer
}.

(** The text fields of a multipart upload. *)
Record Fields : Type := mkFields {
  f_title : option string;
  f_description : option string;
  f_tags : option string;
  f_isFeatured : option string;
  f_categoryName : option string;
  f_categoryDescription : option string
}.

Definition default_types : list string :=
  ["image/jpeg"; "image/png"; "image/webp"; "image/gif"].

(** [process.env.ALLOWED_FILE_TYPES?.split(',') || [...]] *)
Definition allowedTypes (env : Env) : list string :=
  match ALLOWED_FILE_TYPES env with
  | Some s => JsString.split ","%char s
  | None => default_types
  end.

(** [parseInt(process.env.MAX_FILE_SIZE) || 10 * 1024 * 1024] *)
Definition maxSize (env : Env) : Z :=
  JsString.parseInt_or (MAX_FILE_SIZE env) (10 * 1024 * 1024)%Z.

(** [Math.round(maxSize / 1024 / 1024)] *)
Definition round_MB (bytes : Z) : Z :=
  ((2 * bytes + 1024 * 1024) / (2 * 1024 * 1024))%Z.

(** A number inside a template literal. *)
Definition render (z : Z) : string :=
  if (z <? 0)%Z then "-" ++ JsString.of_nat (Z.abs_nat z)
  else JsString.of_nat (Z.to_nat z).

(** [validateFileUpload()]: the answer that stops the request, or [None]
    for [next()]. *)
Definition validateFileUpload (env : Env) (file : option File)
  : option Http.Response :=
  match file with
  | None =>
      Some (Http.mkResponse 400 false "No file uploaded" Http.NoData)
  | Some f =>
      if negb (existsb (String.eqb (mimetype f)) (allowedTypes env))
      then
        Some (Http.mkResponse 400 false
                ("Invalid file type. Allowed types: "
                 ++ String.concat ", " (allowedTypes env))
                Http.NoData)
      else if (maxSize env <? Z.of_nat (size f))%Z
      then
        Some (Http.mkResponse 400 false
                ("File size too large. Maximum size: "
                 ++ render (round_MB (maxSize env)) ++ "MB")
                Http.NoData)
      else None
  end.

(** [req.body.tags ? req.body.tags.split(',').map(tag => tag.trim()) : []] *)
Definition parse_tags (tags : option string) : list string :=
  match ImageService.truthy_string tags with
  | Some s => map JsString.trim (JsString.split ","%char s)
  | None => []
  end.

(** The [imageData] both upload handlers build; an absent title is the
    empty one for the schema's [required]. *)
Definition imageData_of (fields : Fields) (file : File)
  : ImageModel.ImageData :=
  ImageModel.mkData
    (ImageModel.or_else (f_title fields) "")
    (f_description fields)
    (parse_tags (f_tags fields))
    (match f_isFeatured fields with
     | Some s => String.eqb s "true"
     | None => false
     end)
    (originalname file).

(** [ImageController.uploadImageWithCategory]: the category first, then
    the image. *)
Definition uploadImageWithCategory (fields : Fields) (file : File)
  : M (Image * Category) :=
  await category <-
    CategoryService.createCategory
      (CategoryModel.mkData
         (ImageModel.or_else (f_categoryName fields) "")
         (f_categoryDescription fields)) ;;
  await image <-
    ImageService.uploadImage (buffer file) (imageData_of fields file)
      (CategoryDoc._id category) ;;
  ret (image, category).

(** [POST /api/images/with-category], after the multipart parser:
    [validateFileUpload(), ImageController.uploadImageWithCategory].  Of
    the two documents of the answer the modelled payload keeps the
    category. *)
Definition POST_image_with_category (development : bool) (env : Env)
  (fields : Fields) (file : option File) : World -> Http.Response * World :=
  match validateFileUpload env file, file with
  | None, Some f =>
      Http.asyncHandler development (uploadImageWithCategory fields f)
        (fun created =>
           Http.mkResponse 201 true "Image and category created successfully"
             (Http.OneCategory (snd created)))
  | Some response, _ => fun w => (response, w)
  | None, None =>
      fun w => (Http.mkResponse 400 false "No file uploaded" Http.NoData, w)
  end.

End Routes.

(* ================================================================== *)
(** ** More of the older router *)
(* ================================================================== *)

Module LegacyRoutes.

Definition reply (status : nat) : Legacy.Response :=
  Legacy.mkResponse status (status <? 400) None.

(** [router.delete('/images/:imageId')].  The category of the image is
    populated; building the public id of an image whose category is gone
    throws inside the inner [try], as a rejected [destroy] does, and the
    deletion of the record follows in both cases.  The answer names the
    category again, outside the inner [try]. *)
Definition DELETE_image (imageId : ObjectId) (w : Legacy.LWorld)
  : Legacy.Response * Legacy.LWorld :=
  match find_by_id Legacy.i_id imageId (Legacy.l_images w) with
  | None => (reply 404, w)
  | Some image =>
      let category :=
        find_by_id Legacy.c_id (Legacy.i_category image)
          (Legacy.l_categories w) in
      let w1 :=
        match category with
        | Some c => Legacy.destroy_one c w image
        | None => w
        end in
      let w2 :=
        Legacy.mkWorld (Legacy.l_categories w1)
          (remove_by_id Legacy.i_id imageId (Legacy.l_images w1))
          (Legacy.l_now w1) (Legacy.l_nextId w1) (Legacy.l_host w1)
          (Legacy.l_calls w1) in
      match category with
      | Some _ => (reply 200, w2)
      | None => (reply 500, w2)
      end
  end.

(** [router.patch('/categories/:categoryId')] *)
Definition PATCH_category (categoryId : ObjectId) (name : option string)
  (w : Legacy.LWorld) : Legacy.Response * Legacy.LWorld :=
  match name with
  | None => (reply 400, w)
  | Some n =>
      if String.length (JsString.trim n) =? 0 then (reply 400, w)
      else
        match find_by_id Legacy.c_id categoryId (Legacy.l_categories w) with
        | None => (reply 404, w)
        | Some _ =>
            let stored :=
              JsString.toLowerCase
                (JsString.trim (JsString.toLowerCase (JsString.trim n))) in
            if existsb
                 (fun c => negb (Legacy.c_id c =? categoryId)
                           && String.eqb (Legacy.c_name c) stored)
                 (Legacy.l_categories w)
            then (reply 409, w)
            else
              (reply 200,
               Legacy.mkWorld
                 (update_by_id Legacy.c_id categoryId
                    (fun c => Legacy.mkCategory (Legacy.c_id c) stored)
                    (Legacy.l_categories w))
                 (Legacy.l_images w) (S (Legacy.l_now w)) (Legacy.l_nextId w)
                 (Legacy.l_host w) (Legacy.l_calls w))
        end
  end.

(** [router.post('/categories/:categoryId/images')] *)
Definition POST_images (categoryId : ObjectId) (files : list Buffer)
  (w : Legacy.LWorld) : Legacy.Response * Legacy.LWorld :=
  match find_by_id Legacy.c_id categoryId (Legacy.l_categories w) with
  | None => (reply 404, w)
  | Some category =>
      if length files =? 0 then (reply 400, w)
      else if 10 <? length files then (reply 400, w)
      else
        let (all_ok, w1) :=
          fold_left (Legacy.upload_one category) files (true, w) in
        if all_ok then (reply 201, w1) else (reply 500, w1)
  end.

(** The uploads of [files] the host accepts. *)
Definition accepted (w : Legacy.LWorld) (folder : string)
  (files : list Buffer) : list Buffer :=
  filter (fun f => match upload_stream (Legacy.l_host w) f folder with
                   | Some _ => true
                   | None => false
                   end)
         files.

End LegacyRoutes.

(* ================================================================== *)
(** ** Invariants of the store *)
(* ================================================================== *)

(** The store as the database keeps it: ids unique within a collection
    and older than the next fresh id, the unique indexes respected. *)
Record well_formed (w : World) : Prop := mkWellFormed {
  wf_image_ids : NoDup (map ImageDoc._id (images w));
  wf_category_ids : NoDup (map CategoryDoc._id (categories w));
  wf_image_fresh : Forall (fun i => ImageDoc._id i < nextId w) (images w);
  wf_category_fresh :
    Forall (fun c => CategoryDoc._id c < nextId w) (categories w);
  wf_names : NoDup (map CategoryDoc.name (categories w));
  wf_slugs : NoDup (map CategoryDoc.slug (categories w));
  wf_cloudinaryIds : NoDup (map ImageDoc.cloudinaryId (images w))
}.

(** Every stored image references a stored category. *)
Definition references_resolve (w : World) : Prop :=
  Forall (fun i =>
            find_by_id CategoryDoc._id (ImageDoc.category i) (categories w)
            <> None)
         (images w).

(** The patch of an image update sets [category]. *)
Definition sets_category (op : Operation) : bool :=
  match op with
  | UpdateImage _ p =>
      match ImageModel.p_category p with Some _ => true | None => false end
  | _ => false
  end.

(** [a] is not older than [b]. *)
Definition not_older (a b : Image) : Prop :=
  ImageDoc.createdAt b <= ImageDoc.createdAt a.

(** The term uses none of the syntax characters of regular
    expressions. *)
Definition plain_term (term : string) : Prop :=
  Forall (fun c => JsString.is_syntax_char c = false) (JsString.chars term).

(** The filter [getAllImages] builds from options without [featured]
    and [search]. *)
Definition listing_query (o : ImageService.Options) : ImageModel.Query :=
  ImageModel.mkQuery (Some true) (ImageService.o_category o) None None.

(** The summary of a category on the homepage. *)
Definition home_summary (c : Category) : ImageModel.HomeCategory :=
  ImageModel.mkHomeCategory (CategoryDoc._id c) (CategoryDoc.name c)
    (CategoryDoc.slug c) (CategoryDoc.description c).

(** The text is found, whatever the case, in the title, the description
    or a tag of the image. *)
Definition image_contains (term : string) (i : Image) : Prop :=
  JsString.contains_ci term (ImageDoc.title i) = true
  \/ (exists d, ImageDoc.description i = Some d
                /\ JsString.contains_ci term d = true)
  \/ (exists t, In t (ImageDoc.tags i) /\ JsString.contains_ci term t = true).

(** The text is found, whatever the case, in the name or the description
    of the category. *)
Definition category_contains (term : string) (c : Category) : Prop :=
  JsString.contains_ci term (CategoryDoc.name c) = true
  \/ (exists d, CategoryDoc.description c = Some d
                /\ JsString.contains_ci term d = true).

(** Categories in ascending order of name. *)
Definition by_name (a b : Category) : Prop :=
  String.compare (CategoryDoc.name a) (CategoryDoc.name b) <> Gt.

(* ================================================================== *)
(** ** More scenarios *)
(* ================================================================== *)

Module MoreScenarios.

(** A host that answers every upload with the same asset id. *)
Definition same_asset : AssetHost :=
  mkHost
    (fun _ _ =>
       Some (mkUpload "marriage-hall/outdoor venues/1001"
               "https://assets.test/sunset.jpg" 2048 "jpg" 800 600))
    (fun _ => true)
    (fun _ => true)
    (fun publicId => publicId).

(** "Outdoor Venues" and "Sunset Shot" on that host. *)
Definition sunset_on_same_asset : World :=
  mkWorld (categories Scenario.outdoor_with_sunset)
    (images Scenario.outdoor_with_sunset) 2000 3 true same_asset [].

(** The same store before the wrapper of the host is configured. *)
Definition sunset_unconfigured : World :=
  mkWorld (categories Scenario.outdoor_with_sunset)
    (images Scenario.outdoor_with_sunset) 2000 3 false Scenario.accepting [].

(** An uploaded file of 2 KB, and an environment that sets neither
    [ALLOWED_FILE_TYPES] nor [MAX_FILE_SIZE]. *)
Definition photo : Routes.File := Routes.mkFile "photo.jpg" "image/jpeg" 2048 [].

Definition no_env : Routes.Env := Routes.mkEnv None None.

(** The text fields of an upload that names its category. *)
Definition fields_for (categoryName title : string) : Routes.Fields :=
  Routes.mkFields (Some title) None (Some "garden, rose ") (Some "true")
    (Some categoryName) None.

(** The older store: "halls" (id 1) with one image, and an image (id 3)
    whose category is gone. *)
Definition legacy_orphan (h : AssetHost) : Legacy.LWorld :=
  Legacy.mkWorld
    [Legacy.mkCategory 1 "halls"]
    [Legacy.mkImage 2 1 "https://assets.test/v1/myapp/halls/abc.jpg" 10;
     Legacy.mkImage 3 7 "https://assets.test/v1/myapp/gone/def.png" 11]
    1000 4 h [].

(** A host that accepts the uploads of non-empty files only. *)
Definition picky : AssetHost :=
  mkHost
    (fun file folder =>
       match file with
       | [] => None
       | _ =>
           Some (mkUpload folder
                   ("https://assets.test/" ++ folder ++ "/x.jpg")%string
                   2048 "jpg" 800 600)
       end)
    (fun _ => true)
    (fun _ => true)
    (fun publicId => publicId).

End MoreScenarios.

(* ================================================================== *)
(** * Properties *)
(* ================================================================== *)

Local Open Scope js_scope.

(* ================================================================== *)
(** ** Facts about collections *)
(* ================================================================== *)

Section CollectionFacts.

Context {D : Type} (id_of : D -> ObjectId).

Lemma find_by_id_some (id : ObjectId) (l : list D) (d : D) :
  find_by_id id_of id l = Some d -> In d l /\ id_of d = id.
Proof.
  unfold find_by_id. intros H. apply find_some in H.
  destruct H as [Hin Heq]. apply Nat.eqb_eq in Heq. auto.
Qed.

Lemma find_by_id_app (id : ObjectId) (l l' : list D) (d : D) :
  find_by_id id_of id l = Some d -> find_by_id id_of id (l ++ l') = Some d.
Proof.
  unfold find_by_id. induction l as [|x l IH]; simpl; [discriminate|].
  destruct (id_of x =? id); auto.
Qed.

Lemma find_by_id_update (id id' : ObjectId) (f : D -> D) (l : list D) :
  (forall d, id_of (f d) = id_of d) ->
  find_by_id id_of id (update_by_id id_of id' f l)
  = option_map (fun d => if id_of d =? id' then f d else d)
      (find_by_id id_of id l).
Proof.
  intros Hid. unfold find_by_id, update_by_id.
  induction l as [|x l IH]; simpl; [reflexivity|].
  destruct (id_of x =? id') eqn:E'.
  - rewrite Hid. destruct (id_of x =? id); simpl; [now rewrite E'|exact IH].
  - destruct (id_of x =? id); simpl; [now rewrite E'|exact IH].
Qed.

Lemma find_by_id_remove (id id' : ObjectId) (l : list D) :
  find_by_id id_of id (remove_by_id id_of id' l)
  = if id =? id' then None else find_by_id id_of id l.
Proof.
  unfold find_by_id, remove_by_id.
  induction l as [|x l IH]; simpl.
  - now destruct (id =? id').
  - destruct (id_of x =? id') eqn:E'; simpl.
    + rewrite IH. destruct (id =? id') eqn:E; [reflexivity|].
      apply Nat.eqb_eq in E'. apply Nat.eqb_neq in E.
      destruct (id_of x =? id) eqn:Ex; [|reflexivity].
      apply Nat.eqb_eq in Ex. congruence.
    + destruct (id_of x =? id) eqn:Ex.
      * apply Nat.eqb_eq in Ex. apply Nat.eqb_neq in E'.
        destruct (id =? id') eqn:E; [|reflexivity].
        apply Nat.eqb_eq in E. congruence.
      * exact IH.
Qed.

Lemma find_by_id_unique (l : list D) (d : D) :
  NoDup (map id_of l) -> In d l -> find_by_id id_of (id_of d) l = Some d.
Proof.
  unfold find_by_id. induction l as [|x l IH]; simpl; [tauto|].
  intros Hnd [->|Hin].
  - now rewrite Nat.eqb_refl.
  - inversion Hnd as [|? ? Hnotin Hnd']; subst.
    destruct (id_of x =? id_of d) eqn:E; [|auto].
    apply Nat.eqb_eq in E. exfalso. apply Hnotin. rewrite E.
    now apply in_map.
Qed.


End CollectionFacts.

Lemma insert_by_In {A} (le : A -> A -> bool) (x y : A) (l : list A) :
  In y (insert_by le x l) <-> y = x \/ In y l.
Proof.
  induction l as [|z l IH]; simpl.
  - intuition.
  - destruct (le x z); simpl; rewrite ?IH; intuition.
Qed.

Lemma sort_by_In {A} (le : A -> A -> bool) (y : A) (l : list A) :
  In y (sort_by le l) <-> In y l.
Proof.
  unfold sort_by. induction l as [|x l IH]; simpl; [tauto|].
  rewrite insert_by_In, IH. intuition.
Qed.

Lemma insert_by_length {A} (le : A -> A -> bool) (x : A) (l : list A) :
  length (insert_by le x l) = S (length l).
Proof.
  induction l as [|z l IH]; simpl; [reflexivity|].
  destruct (le x z); simpl; [reflexivity|now rewrite IH].
Qed.

Lemma sort_by_length {A} (le : A -> A -> bool) (l : list A) :
  length (sort_by le l) = length l.
Proof.
  unfold sort_by. induction l as [|x l IH]; simpl; [reflexivity|].
  now rewrite insert_by_length, IH.
Qed.

Lemma firstn_subset {A} (n : nat) (x : A) (l : list A) :
  In x (firstn n l) -> In x l.
Proof.
  revert l. induction n as [|n IH]; intros [|y l]; simpl; try tauto.
  intros [->|H]; auto.
Qed.

Lemma limit_docs_In {A} (n : Z) (x : A) (l : list A) :
  In x (limit_docs n l) -> In x l.
Proof.
  unfold limit_docs. destruct (n =? 0)%Z; [auto|]. apply firstn_subset.
Qed.

Lemma skipn_In {A} (n : nat) (x : A) (l : list A) :
  In x (skipn n l) -> In x l.
Proof.
  revert l. induction n as [|n IH]; intros [|y l]; simpl; auto.
Qed.

(* ================================================================== *)
(** ** Laws of the monad *)
(* ================================================================== *)

Lemma bind_ok {A B} (m : M A) (k : A -> M B) (w w' : World) (a : A) :
  m w = (Ok a, w') -> bind m k w = k a w'.
Proof. unfold bind. now intros ->. Qed.

Lemma bind_throw {A B} (m : M A) (k : A -> M B) (w w' : World) (e : JsError) :
  m w = (Throw e, w') -> bind m k w = (Throw e, w').
Proof. unfold bind. now intros ->. Qed.

Lemma bind_gets {A B} (f : World -> A) (k : A -> M B) (w : World) :
  bind (gets f) k w = k (f w) w.
Proof. reflexivity. Qed.

Lemma bind_ret {A B} (a : A) (k : A -> M B) (w : World) :
  bind (ret a) k w = k a w.
Proof. reflexivity. Qed.

Lemma keeps_calls_bind {A B} (m : M A) (k : A -> M B) :
  keeps_calls m -> (forall a, keeps_calls (k a)) -> keeps_calls (bind m k).
Proof.
  intros Hm Hk w. unfold bind. specialize (Hm w).
  destruct (m w) as [[a|e] w']; simpl in *; [|exact Hm].
  now rewrite Hk.
Qed.

Lemma keeps_calls_getImageUrl (publicId : string) :
  keeps_calls (cloudinaryConfig.getImageUrl publicId).
Proof.
  intros w. unfold cloudinaryConfig.getImageUrl.
  now destruct (isConfigured w).
Qed.

Lemma keeps_calls_new_image data id r t :
  keeps_calls (ImageModel.new data id r t).
Proof. intros w. reflexivity. Qed.

Lemma keeps_calls_inc_imageCount (id : ObjectId) (n : Z) :
  keeps_calls (CategoryModel.inc_imageCount id n).
Proof. intros w. reflexivity. Qed.

Lemma keeps_calls_save_new (i : Image) : keeps_calls (ImageModel.save_new i).
Proof.
  unfold ImageModel.save_new.
  destruct (ImageDoc.validate i); [|intros w; reflexivity].
  apply keeps_calls_bind.
  - apply keeps_calls_inc_imageCount.
  - intros _ w. now destruct (ImageModel.cloudinaryId_taken i (images w)).
Qed.

(* ================================================================== *)
(** ** Category deletion *)
(* ================================================================== *)

Ltac unfold_monad :=
  unfold result_of, world_after, try_rethrow, bind, ret, throw, gets, modify.

Lemma filter_out_then_filter {A} (p : A -> bool) (l : list A) :
  filter p (filter (fun x => negb (p x)) l) = [].
Proof.
  induction l as [|x l IH]; simpl; [reflexivity|].
  destruct (p x) eqn:E; simpl; [exact IH|]. now rewrite E.
Qed.

(** [deleteCategory] never talks to the asset host. *)
Lemma deleteCategory_leaves_host_alone (id : ObjectId) (w : World) :
  hostCalls (run (DeleteCategory id) w) = hostCalls w.
Proof.
  unfold run, CategoryService.deleteCategory, CategoryModel.findById,
    ImageModel.deleteMany_category, CategoryModel.findByIdAndDelete.
  unfold_monad.
  destruct (find_by_id CategoryDoc._id id (categories w)); reflexivity.
Qed.

(** What [deleteCategory] does to the store of an existing category. *)
Lemma deleteCategory_removes_records (id : ObjectId) (w : World)
  (c : Category) :
  find_by_id CategoryDoc._id id (categories w) = Some c ->
  result_of (CategoryService.deleteCategory id) w
  = Ok (CategoryService.mkDeleted (CategoryDoc.name c)
          (length (images_of id w)))
  /\ images_of id (run (DeleteCategory id) w) = []
  /\ find_by_id CategoryDoc._id id (categories (run (DeleteCategory id) w))
     = None.
Proof.
  intros Hc.
  unfold run, CategoryService.deleteCategory, CategoryModel.findById,
    ImageModel.deleteMany_category, CategoryModel.findByIdAndDelete,
    images_of.
  unfold_monad. rewrite Hc. simpl. repeat split.
  - apply (filter_out_then_filter (fun i => ImageDoc.category i =? id)).
  - rewrite find_by_id_remove. now rewrite Nat.eqb_refl.
Qed.

Lemma deleteCategory_not_found (id : ObjectId) (w : World) :
  find_by_id CategoryDoc._id id (categories w) = None ->
  CategoryService.deleteCategory id w
  = (Throw CategoryService.not_found, w).
Proof.
  intros Hc.
  unfold CategoryService.deleteCategory, CategoryModel.findById.
  unfold_monad. now rewrite Hc.
Qed.

(** The clean-up loop of the older router logs one call per image,
    whatever the host answers. *)
Lemma legacy_destroy_loop (c : Legacy.LCategory) (l : list Legacy.LImage)
  (w : Legacy.LWorld) :
  let w' := fold_left (Legacy.destroy_one c) l w in
  Legacy.l_calls w'
  = Legacy.l_calls w ++ map (fun i => CallDestroy (Legacy.fullPublicId c i)) l
  /\ Legacy.l_categories w' = Legacy.l_categories w
  /\ Legacy.l_images w' = Legacy.l_images w.
Proof.
  revert w. induction l as [|i l IH]; intros w; simpl.
  - now rewrite app_nil_r.
  - destruct (IH (Legacy.destroy_one c w i)) as (Hc & Hcat & Himg).
    rewrite Hc, Hcat, Himg. unfold Legacy.destroy_one.
    destruct (uploader_destroy (Legacy.l_host w) (Legacy.fullPublicId c i));
      simpl; rewrite <- app_assoc; auto.
Qed.

Lemma filter_is_destroy_map {A} (f : A -> string) (l : list A) :
  filter is_destroy (map (fun i => CallDestroy (f i)) l)
  = map (fun i => CallDestroy (f i)) l.
Proof. induction l as [|x l IH]; simpl; [reflexivity|now rewrite IH]. Qed.

(** The older router, on a category owning N images: N delete attempts
    whatever the host answers, no image of the category left, the
    category gone, and N reported. *)
Lemma legacy_delete_attempts_every_image (id : ObjectId)
  (w : Legacy.LWorld) (c : Legacy.LCategory) :
  find_by_id Legacy.c_id id (Legacy.l_categories w) = Some c ->
  let owned := filter (fun i => Legacy.i_category i =? id) (Legacy.l_images w) in
  let after := snd (Legacy.DELETE_category id w) in
  Legacy.destroy_calls after
  = Legacy.destroy_calls w
    ++ map (fun i => CallDestroy (Legacy.fullPublicId c i)) owned
  /\ filter (fun i => Legacy.i_category i =? id) (Legacy.l_images after) = []
  /\ find_by_id Legacy.c_id id (Legacy.l_categories after) = None
  /\ Legacy.deletedImagesCount (fst (Legacy.DELETE_category id w))
     = Some (length owned).
Proof.
  intros Hc owned after. subst owned after.
  unfold Legacy.DELETE_category. rewrite Hc. simpl.
  destruct (legacy_destroy_loop c
              (filter (fun i => Legacy.i_category i =? id) (Legacy.l_images w))
              w) as (Hcalls & Hcat & Himg).
  cbv zeta in Hcalls, Hcat, Himg.
  unfold Legacy.destroy_calls. simpl.
  rewrite Hcalls, Hcat, Himg. repeat split.
  - rewrite !filter_app. simpl. rewrite app_nil_r.
    now rewrite filter_is_destroy_map.
  - apply (filter_out_then_filter (fun i => Legacy.i_category i =? id)).
  - rewrite find_by_id_remove. now rewrite Nat.eqb_refl.
Qed.

(** C1 (the code at the failing input).  The category "Halls" owns two
    images.  [deleteCategory] removes both image records and the
    category and reports ("Halls", 2), but the log of calls to the asset
    host holds no delete attempt, where the specification asks for two. *)
Theorem deleteCategory_issues_no_remote_delete :
  let w := Scenario.halls_with_two_images in
  let after := run (DeleteCategory 1) w in
  length (images_of 1 w) = 2
  /\ result_of (CategoryService.deleteCategory 1) w
     = Ok (CategoryService.mkDeleted "Halls" 2)
  /\ images_of 1 after = []
  /\ find_by_id CategoryDoc._id 1 (categories after) = None
  /\ length (destroy_calls after) = 0
  /\ hostCalls after = hostCalls w.
Proof. vm_compute. repeat split. Qed.

(** The same request on the older router issues the two attempts, also
    when the host rejects each of them. *)
Example legacy_delete_two_attempts :
  Legacy.destroy_calls
    (snd (Legacy.DELETE_category 1 (Scenario.legacy_halls Scenario.rejecting)))
  = [CallDestroy "myapp/halls/abc"; CallDestroy "myapp/halls/def"].
Proof. reflexivity. Qed.

(* ================================================================== *)
(** ** Image upload *)
(* ================================================================== *)

(** C4.  If [categoryId] resolves to no category, or the remote upload
    fails, [uploadImage] throws and the image collection is unchanged
    (contents and count); and whenever the image collection did change,
    the category existed and the host had accepted the upload, whose
    call is in the log. *)
Theorem uploadImage_writes_record_only_after_upload
  (file : Buffer) (data : ImageModel.ImageData) (id : ObjectId) (w : World) :
  let after := world_after (ImageService.uploadImage file data id) w in
  ((find_by_id CategoryDoc._id id (categories w) = None
    \/ exists c, find_by_id CategoryDoc._id id (categories w) = Some c
                 /\ upload_fails file c w) ->
   is_throw (result_of (ImageService.uploadImage file data id) w)
   /\ images after = images w
   /\ length (images after) = length (images w))
  /\
  (images after <> images w ->
   exists c r,
     find_by_id CategoryDoc._id id (categories w) = Some c
     /\ isConfigured w = true
     /\ upload_stream (host w) file (ImageService.upload_public_id c w)
        = Some r
     /\ In (CallUpload (ImageService.upload_public_id c w))
           (hostCalls after)).
Proof.
  cbv zeta. unfold result_of, world_after, upload_fails.
  unfold ImageService.uploadImage, try_rethrow, CategoryModel.findById.
  rewrite bind_gets. split.
  - intros [Hnone | (c & Hc & Hfail)].
    + rewrite Hnone. simpl. auto.
    + rewrite Hc, bind_gets.
      rewrite bind_throw
        with (e := if isConfigured w
                   then UpstreamError "upload failed"
                   else cloudinaryConfig.not_configured)
             (w' := if isConfigured w
                    then with_call
                           (CallUpload (ImageService.upload_public_id c w)) w
                    else w).
      * destruct (isConfigured w); simpl; auto.
      * unfold cloudinaryConfig.uploadImage.
        destruct Hfail as [Hcfg | Hup]; [now rewrite Hcfg|].
        rewrite Hup. now destruct (isConfigured w).
  - intros Hchanged.
    destruct (find_by_id CategoryDoc._id id (categories w)) as [c|] eqn:Hc;
      [|now contradiction Hchanged].
    rewrite bind_gets in Hchanged |- *.
    destruct (isConfigured w) eqn:Hcfg.
    + destruct (upload_stream (host w) file
                  (ImageService.upload_public_id c w)) as [r|] eqn:Hup.
      * exists c, r. repeat split; auto.
        rewrite bind_ok
          with (a := r)
               (w' := with_call
                        (CallUpload (ImageService.upload_public_id c w)) w)
          by (unfold cloudinaryConfig.uploadImage; now rewrite Hcfg, Hup).
        rewrite keeps_calls_bind.
        -- simpl. apply in_or_app. right. now left.
        -- apply keeps_calls_getImageUrl.
        -- intros t. apply keeps_calls_bind;
             [apply keeps_calls_new_image | apply keeps_calls_save_new].
      * contradiction Hchanged.
        rewrite bind_throw
          with (e := UpstreamError "upload failed")
               (w' := with_call
                        (CallUpload (ImageService.upload_public_id c w)) w)
          by (unfold cloudinaryConfig.uploadImage; now rewrite Hcfg, Hup).
        reflexivity.
    + contradiction Hchanged.
      rewrite bind_throw
        with (e := cloudinaryConfig.not_configured) (w' := w)
        by (unfold cloudinaryConfig.uploadImage; now rewrite Hcfg).
      reflexivity.
Qed.

(** An upload to an unknown category, and the one upload that did write
    a record. *)
Lemma uploadImage_writes_record_only_after_upload_witness :
  (is_throw (result_of
               (ImageService.uploadImage Scenario.file
                  (Scenario.image_data "Stage") 9) Scenario.grand_hall)
   /\ images (world_after
                (ImageService.uploadImage Scenario.file
                   (Scenario.image_data "Stage") 9) Scenario.grand_hall)
      = images Scenario.grand_hall
   /\ length (images (world_after
                (ImageService.uploadImage Scenario.file
                   (Scenario.image_data "Stage") 9) Scenario.grand_hall))
      = length (images Scenario.grand_hall))
  /\ exists c r,
       find_by_id CategoryDoc._id 1 (categories Scenario.grand_hall) = Some c
       /\ isConfigured Scenario.grand_hall = true
       /\ upload_stream (host Scenario.grand_hall) Scenario.file
            (ImageService.upload_public_id c Scenario.grand_hall) = Some r
       /\ In (CallUpload (ImageService.upload_public_id c Scenario.grand_hall))
            (hostCalls
               (world_after
                  (ImageService.uploadImage Scenario.file
                     (Scenario.image_data "Stage") 1) Scenario.grand_hall)).
Proof.
  split.
  - apply (proj1 (uploadImage_writes_record_only_after_upload Scenario.file
                    (Scenario.image_data "Stage") 9 Scenario.grand_hall)).
    left. reflexivity.
  - apply (proj2 (uploadImage_writes_record_only_after_upload Scenario.file
                    (Scenario.image_data "Stage") 1 Scenario.grand_hall)).
    vm_compute. discriminate.
Defined.

(* ================================================================== *)
(** ** The slug *)
(* ================================================================== *)

Lemma chars_str (cs : list ascii) : JsString.chars (JsString.str cs) = cs.
Proof. apply list_ascii_of_string_of_list_ascii. Qed.

Lemma str_chars (s : string) : JsString.str (JsString.chars s) = s.
Proof. apply string_of_list_ascii_of_string. Qed.

Lemma slug_char_not_hyphen (c : ascii) :
  JsString.is_slug_char c = true -> JsString.is_hyphen c = false.
Proof.
  unfold JsString.is_hyphen. intros H.
  destruct (Ascii.eqb c JsString.hyphen) eqn:E; [|reflexivity].
  apply Ascii.eqb_eq in E. subst c. discriminate H.
Qed.

Lemma is_hyphen_eq (c : ascii) :
  JsString.is_hyphen c = true -> c = JsString.hyphen.
Proof. apply Ascii.eqb_eq. Qed.

(** The run replacement of the hook, against the run replacement of the
    specification. *)
Lemma replace_runs_hyphen_per_run (cs : list ascii) :
  JsString.replace_runs false cs = SlugSpec.hyphen_per_run cs
  /\ forall c, JsString.is_slug_char c = false ->
               JsString.hyphen :: JsString.replace_runs true cs
               = SlugSpec.hyphen_per_run (c :: cs).
Proof.
  induction cs as [|d r [IH1 IH2]].
  - split; [reflexivity|]. intros c Hc. simpl. now rewrite Hc.
  - split.
    + simpl JsString.replace_runs.
      destruct (JsString.is_slug_char d) eqn:Hd.
      * simpl. rewrite Hd. now rewrite IH1.
      * now apply IH2.
    + intros c Hc.
      change (SlugSpec.hyphen_per_run (c :: d :: r))
        with (if JsString.is_slug_char c
              then c :: SlugSpec.hyphen_per_run (d :: r)
              else if JsString.is_slug_char d
                   then JsString.hyphen :: SlugSpec.hyphen_per_run (d :: r)
                   else SlugSpec.hyphen_per_run (d :: r)).
      rewrite Hc. simpl JsString.replace_runs.
      destruct (JsString.is_slug_char d) eqn:Hd.
      * simpl. rewrite Hd. now rewrite IH1.
      * now apply IH2.
Qed.

(** The run replacement never leaves two hyphens in a row, and after a
    run already started it does not begin with a hyphen. *)
Lemma replace_runs_no_adjacent (cs : list ascii) :
  forall b,
    ~ SlugSpec.adjacent_hyphens (JsString.replace_runs b cs)
    /\ (b = true ->
        forall r, JsString.replace_runs b cs <> JsString.hyphen :: r).
Proof.
  induction cs as [|c r IH]; intros b.
  - split.
    + intros (l1 & l2 & H). now destruct l1.
    + intros _ r H. discriminate H.
  - simpl. destruct (JsString.is_slug_char c) eqn:Hc.
    + split.
      * intros (l1 & l2 & H). destruct l1 as [|x l1]; simpl in H.
        -- injection H as -> _. discriminate Hc.
        -- injection H as _ H. apply (proj1 (IH false)). now exists l1, l2.
      * intros _ r' H. injection H as -> _. discriminate Hc.
    + destruct b.
      * apply IH.
      * split; [|discriminate].
        intros (l1 & l2 & H). destruct l1 as [|x l1]; simpl in H.
        -- injection H as H. now apply (proj2 (IH true) eq_refl l2).
        -- injection H as _ H. apply (proj1 (IH true)). now exists l1, l2.
Qed.

Lemma adjacent_hyphens_rev (cs : list ascii) :
  SlugSpec.adjacent_hyphens (rev cs) -> SlugSpec.adjacent_hyphens cs.
Proof.
  intros (l1 & l2 & H). exists (rev l2), (rev l1).
  rewrite <- (rev_involutive cs), H, rev_app_distr. simpl.
  now rewrite <- !app_assoc.
Qed.

Lemma adjacent_hyphens_drop_first (cs : list ascii) :
  SlugSpec.adjacent_hyphens (JsString.drop_first_hyphen cs) ->
  SlugSpec.adjacent_hyphens cs.
Proof.
  destruct cs as [|c r]; simpl; [auto|].
  destruct (JsString.is_hyphen c); [|auto].
  intros (l1 & l2 & H). exists (c :: l1), l2. now rewrite H.
Qed.

(** Without two hyphens in a row, removing one leading hyphen removes
    them all. *)
Lemma drop_hyphens_drop_first (cs : list ascii) :
  ~ SlugSpec.adjacent_hyphens cs ->
  SlugSpec.drop_hyphens cs = JsString.drop_first_hyphen cs.
Proof.
  destruct cs as [|c r]; simpl; [reflexivity|].
  destruct (JsString.is_hyphen c) eqn:Hc; [|reflexivity].
  intros Hadj. destruct r as [|d r]; simpl; [reflexivity|].
  destruct (JsString.is_hyphen d) eqn:Hd; [|reflexivity].
  exfalso. apply Hadj. exists [], r.
  now rewrite (is_hyphen_eq _ Hc), (is_hyphen_eq _ Hd).
Qed.

(** The slug the hook computes is the slug the specification
    describes. *)
Lemma slugify_spec_slug (name : string) :
  CategoryDoc.slugify name = SlugSpec.spec_slug name.
Proof.
  unfold CategoryDoc.slugify, SlugSpec.spec_slug,
    JsString.replace_edge_hyphens, JsString.drop_last_hyphen.
  set (cs := JsString.chars (JsString.toLowerCase name)).
  destruct (replace_runs_hyphen_per_run cs) as [<- _].
  pose proof (proj1 (replace_runs_no_adjacent cs false)) as Hadj.
  rewrite (drop_hyphens_drop_first _ Hadj).
  rewrite drop_hyphens_drop_first; [reflexivity|].
  intros H. apply Hadj.
  now apply adjacent_hyphens_drop_first, adjacent_hyphens_rev.
Qed.

Example slugify_grand_hall : CategoryDoc.slugify "Grand Hall #1" = "grand-hall-1".
Proof. reflexivity. Qed.

(** *** The setters of the [slug] path leave a computed slug as it is *)

Lemma replace_runs_alphabet (b : bool) (cs : list ascii) :
  Forall slug_alphabet (JsString.replace_runs b cs).
Proof.
  revert b. induction cs as [|c r IH]; intros b; simpl; [constructor|].
  destruct (JsString.is_slug_char c) eqn:Hc.
  - constructor; [now left|apply IH].
  - destruct b; [apply IH|]. constructor; [now right|apply IH].
Qed.

Lemma drop_first_hyphen_alphabet (cs : list ascii) :
  Forall slug_alphabet cs -> Forall slug_alphabet (JsString.drop_first_hyphen cs).
Proof.
  destruct cs as [|c r]; simpl; [auto|].
  intros H. destruct (JsString.is_hyphen c); [now inversion H|exact H].
Qed.

Lemma replace_edge_hyphens_alphabet (cs : list ascii) :
  Forall slug_alphabet cs ->
  Forall slug_alphabet (JsString.replace_edge_hyphens cs).
Proof.
  intros H. unfold JsString.replace_edge_hyphens, JsString.drop_last_hyphen.
  apply Forall_rev, drop_first_hyphen_alphabet, Forall_rev.
  now apply drop_first_hyphen_alphabet.
Qed.

Lemma between_spec (lo hi : nat) (c : ascii) :
  JsString.between lo hi c = true <-> lo <= JsString.code c <= hi.
Proof.
  unfold JsString.between. rewrite andb_true_iff, !Nat.leb_le. tauto.
Qed.

Lemma slug_alphabet_code (c : ascii) :
  slug_alphabet c ->
  97 <= JsString.code c <= 122 \/ 48 <= JsString.code c <= 57
  \/ JsString.code c = 45.
Proof.
  intros [H| ->].
  - unfold JsString.is_slug_char, JsString.is_lower, JsString.is_digit in H.
    apply orb_true_iff in H. rewrite !between_spec in H. tauto.
  - right. right. reflexivity.
Qed.

Lemma slug_alphabet_lower (c : ascii) :
  slug_alphabet c -> JsString.lower_char c = c.
Proof.
  intros H. apply slug_alphabet_code in H. unfold JsString.lower_char.
  destruct (JsString.is_upper c) eqn:E; [|reflexivity].
  apply between_spec in E. lia.
Qed.

Lemma slug_alphabet_not_space (c : ascii) :
  slug_alphabet c -> JsString.is_space c = false.
Proof.
  intros H. apply slug_alphabet_code in H. unfold JsString.is_space.
  destruct (JsString.between 9 13 c) eqn:E.
  - apply between_spec in E. lia.
  - simpl. apply orb_false_iff. split; apply Nat.eqb_neq; lia.
Qed.

Lemma trim_start_alphabet (cs : list ascii) :
  Forall slug_alphabet cs -> JsString.trim_start cs = cs.
Proof.
  destruct cs as [|c r]; simpl; [reflexivity|].
  intros H. inversion H as [|? ? Hc _]; subst.
  now rewrite (slug_alphabet_not_space _ Hc).
Qed.

Lemma slug_setter_alphabet (cs : list ascii) :
  Forall slug_alphabet cs ->
  CategoryDoc.slug_setter (JsString.str cs) = JsString.str cs.
Proof.
  intros H. unfold CategoryDoc.slug_setter, JsString.trim, JsString.toLowerCase.
  rewrite !chars_str.
  assert (Hmap : map JsString.lower_char cs = cs).
  { induction H as [|c r Hc _ IH]; simpl; [reflexivity|].
    now rewrite (slug_alphabet_lower _ Hc), IH. }
  rewrite Hmap, (trim_start_alphabet _ H).
  unfold JsString.trim_end.
  rewrite trim_start_alphabet by now apply Forall_rev.
  now rewrite rev_involutive.
Qed.

Lemma slug_setter_slugify (name : string) :
  CategoryDoc.slug_setter (CategoryDoc.slugify name) = CategoryDoc.slugify name.
Proof.
  unfold CategoryDoc.slugify. apply slug_setter_alphabet.
  apply replace_edge_hyphens_alphabet, replace_runs_alphabet.
Qed.

(* ================================================================== *)
(** ** Category creation and update *)
(* ================================================================== *)

Lemma createCategory_unfold (d : CategoryModel.CategoryData) (w : World) :
  CategoryService.createCategory d w
  = match
      CategoryDoc.validate_name (JsString.trim (CategoryModel.d_name d))
      ++ CategoryDoc.validate_description
           (option_map JsString.trim (CategoryModel.d_description d))
    with
    | [] =>
        match CategoryModel.unique_violation (candidate d w) (categories w) with
        | Some e => (Throw e, take_id w)
        | None =>
            let c := CategoryDoc.set_stamps (now w) (now w) (candidate d w) in
            (Ok c, advance (with_categories (categories w ++ [c]) (take_id w)))
        end
    | msgs => (Throw (ValidationError msgs), take_id w)
    end.
Proof.
  unfold CategoryService.createCategory, try_rethrow, CategoryModel.new,
    CategoryModel.save_new, CategoryModel.validate, bind, throw, candidate.
  simpl.
  destruct (CategoryDoc.validate_name (JsString.trim (CategoryModel.d_name d))
            ++ CategoryDoc.validate_description
                 (option_map JsString.trim (CategoryModel.d_description d)));
    reflexivity.
Qed.

(** A successful create stores the returned record, with the slug of its
    (trimmed) name. *)
Lemma createCategory_ok (d : CategoryModel.CategoryData) (w w' : World)
  (c : Category) :
  CategoryService.createCategory d w = (Ok c, w') ->
  CategoryDoc._id c = nextId w
  /\ CategoryDoc.name c = JsString.trim (CategoryModel.d_name d)
  /\ CategoryDoc.slug c = CategoryDoc.slugify (CategoryDoc.name c)
  /\ CategoryDoc.validate_name (CategoryDoc.name c) = []
  /\ categories w' = categories w ++ [c]
  /\ nextId w' = S (nextId w).
Proof.
  rewrite createCategory_unfold.
  destruct (CategoryDoc.validate_name _ ++ _) eqn:Hv; [|discriminate].
  destruct (CategoryModel.unique_violation _ _); [discriminate|].
  cbv zeta. intros H. injection H as <- <-.
  apply app_eq_nil in Hv. destruct Hv as [Hv _].
  unfold candidate. simpl. rewrite slug_setter_slugify.
  repeat split; auto.
Qed.

(** The slug a create stores is the one the specification describes. *)
Lemma createCategory_slug (d : CategoryModel.CategoryData) (w w' : World)
  (c : Category) :
  CategoryService.createCategory d w = (Ok c, w') ->
  In c (categories w')
  /\ CategoryDoc.slug c = SlugSpec.spec_slug (CategoryDoc.name c).
Proof.
  intros H. apply createCategory_ok in H.
  destruct H as (_ & _ & Hslug & _ & Hcats & _). split.
  - rewrite Hcats. apply in_or_app. right. now left.
  - now rewrite Hslug, slugify_spec_slug.
Qed.

Lemma slugify_toLowerCase (n1 n2 : string) :
  JsString.toLowerCase n1 = JsString.toLowerCase n2 ->
  CategoryDoc.slugify n1 = CategoryDoc.slugify n2.
Proof. unfold CategoryDoc.slugify. now intros ->. Qed.

Lemma existsb_last {A} (p : A -> bool) (l : list A) (x : A) :
  p x = true -> existsb p (l ++ [x]) = true.
Proof. intros H. rewrite existsb_app. simpl. rewrite H. apply orb_true_r. Qed.

(** After a successful create, a create under a name that differs only
    by case and outer white space throws, and the collection of
    categories stays as it was; unless the request fails validation, the
    error is the store's duplicate-key error. *)
Lemma second_create_rejected (d1 d2 : CategoryModel.CategoryData)
  (w w1 : World) (c1 : Category) :
  same_name (CategoryModel.d_name d1) (CategoryModel.d_name d2) ->
  CategoryService.createCategory d1 w = (Ok c1, w1) ->
  exists e,
    result_of (CategoryService.createCategory d2) w1 = Throw e
    /\ (exists msgs, e = ValidationError msgs
        \/ exists field value, e = DuplicateKeyError field value)
    /\ categories (world_after (CategoryService.createCategory d2) w1)
       = categories w1.
Proof.
  intros Hsame H1. apply createCategory_ok in H1.
  destruct H1 as (Hid & Hname & Hslug & Hvalid & Hcats & Hnext).
  unfold result_of, world_after. rewrite createCategory_unfold.
  destruct (CategoryDoc.validate_name _ ++ _) as [|m ms].
  - assert (Htaken :
      CategoryModel.slug_taken (candidate d2 w1) (categories w1) = true).
    { rewrite Hcats. apply existsb_last. apply andb_true_iff. split.
      - unfold candidate. simpl. rewrite Hid, Hnext.
        apply negb_true_iff, Nat.eqb_neq. lia.
      - apply String.eqb_eq. rewrite Hslug, Hname. unfold candidate. simpl.
        rewrite slug_setter_slugify. now apply slugify_toLowerCase. }
    unfold CategoryModel.unique_violation. rewrite Htaken.
    destruct (CategoryModel.name_taken _ _);
      eexists; (split; [reflexivity|]); (split; [|reflexivity]);
      exists []; right; eauto.
  - eexists. split; [reflexivity|]. split; [|reflexivity].
    exists (m :: ms). now left.
Qed.

(** A 201 of the route is a successful [createCategory]. *)
Lemma post_201_created (development : bool)
  (d : CategoryModel.CategoryData) (w : World) :
  Http.status (fst (Http.POST_categories development d w)) = 201 ->
  exists c,
    CategoryService.createCategory d w
    = (Ok c, snd (Http.POST_categories development d w)).
Proof.
  unfold Http.POST_categories.
  destruct (Http.schema_createCategory d); [|discriminate].
  unfold Http.asyncHandler.
  destruct (CategoryService.createCategory d w) as [[c|e] w1]; simpl.
  - intros _. now exists c.
  - unfold Http.errorHandler.
    destruct e; simpl; try discriminate; destruct development; discriminate.
Qed.

(** Whatever the second request fails on, the answer of the route is
    400. *)
Lemma second_post_answers_400 (development : bool)
  (d1 d2 : CategoryModel.CategoryData) (w : World) :
  same_name (CategoryModel.d_name d1) (CategoryModel.d_name d2) ->
  Http.status (fst (Http.POST_categories development d1 w)) = 201 ->
  let w1 := snd (Http.POST_categories development d1 w) in
  Http.status (fst (Http.POST_categories development d2 w1)) = 400
  /\ categories (snd (Http.POST_categories development d2 w1)) = categories w1.
Proof.
  intros Hsame H201. cbv zeta.
  destruct (post_201_created development d1 w H201) as (c1 & H1).
  set (w1 := snd (Http.POST_categories development d1 w)) in *.
  destruct (second_create_rejected d1 d2 w w1 c1 Hsame H1)
    as (e & Hres & (msgs & Hkind) & Hcats).
  unfold Http.POST_categories.
  destruct (Http.schema_createCategory d2); [|now split].
  unfold Http.asyncHandler. unfold result_of, world_after in *.
  destruct (CategoryService.createCategory d2 w1) as [[c2|e2] w2];
    simpl in *; [discriminate|].
  injection Hres as ->. split; [|exact Hcats].
  destruct Hkind as [-> | (f & v & ->)]; reflexivity.
Qed.

(** [updateCategory] writes the name and the description and nothing
    else: the slug of the updated category is the one it had. *)
Lemma updateCategory_keeps_slug (id : ObjectId)
  (p : CategoryModel.CategoryPatch) (w : World) :
  option_map CategoryDoc.slug
    (find_by_id CategoryDoc._id id (categories (run (UpdateCategory id p) w)))
  = option_map CategoryDoc.slug (find_by_id CategoryDoc._id id (categories w)).
Proof.
  unfold run, CategoryService.updateCategory, CategoryModel.findByIdAndUpdate.
  unfold_monad.
  destruct (_ ++ _); [|reflexivity].
  destruct (find_by_id CategoryDoc._id id (categories w)) as [c|] eqn:Hc;
    simpl; [|now rewrite Hc].
  match goal with
  | |- context [if ?b then _ else _] => destruct b
  end; simpl; [now rewrite Hc|].
  rewrite find_by_id_update by reflexivity. rewrite Hc. simpl.
  now destruct (CategoryDoc._id c =? id).
Qed.

(** C5 (the code at the failing input).  "Grand Hall" is created with
    the slug "grand-hall"; the update to the name "Garden Venue"
    succeeds and stores the new name, and the stored slug is still
    "grand-hall", not the transform "garden-venue" of the current
    name. *)
Theorem updateCategory_leaves_stale_slug :
  let w := Scenario.grand_hall in
  let stored v := find_by_id CategoryDoc._id 1 (categories v) in
  let after := run (UpdateCategory 1 (Scenario.rename "Garden Venue")) w in
  option_map CategoryDoc.name (stored w) = Some "Grand Hall"
  /\ option_map CategoryDoc.slug (stored w) = Some "grand-hall"
  /\ option_map CategoryDoc.name (stored after) = Some "Garden Venue"
  /\ option_map CategoryDoc.slug (stored after) = Some "grand-hall"
  /\ CategoryDoc.slugify "Garden Venue" = "garden-venue"
  /\ SlugSpec.spec_slug "Garden Venue" = "garden-venue".
Proof. vm_compute. repeat split. Qed.

(** C3 (the code at the failing input).  "Grand Hall" is created (201);
    the request for "  grand hall " is then rejected and no second
    category is stored, yet the status of the answer is 400, where the
    specification asks for 409. *)
Theorem duplicate_category_answers_400 :
  let first :=
    Http.POST_categories false (Scenario.category_data "Grand Hall")
      Scenario.empty in
  let second :=
    Http.POST_categories false (Scenario.category_data "  grand hall ")
      (snd first) in
  same_name "Grand Hall" "  grand hall "
  /\ Http.status (fst first) = 201
  /\ Http.status (fst second) = 400
  /\ Http.message (fst second) = "slug 'grand-hall' already exists"
  /\ categories (snd second) = categories (snd first)
  /\ length (categories (snd second)) = 1.
Proof. vm_compute. repeat split. Qed.

(** The older router answers the same two requests with 201 and 409. *)
Example legacy_duplicate_category_answers_409 :
  let w := Scenario.legacy_halls Scenario.accepting in
  Legacy.status
    (fst (Legacy.POST_category_with_images " Halls " [Scenario.file] w))
  = 409
  /\ Legacy.status
       (fst (Legacy.POST_category_with_images "Gardens" [Scenario.file] w))
     = 201.
Proof. vm_compute. split; reflexivity. Qed.

(* ================================================================== *)
(** ** The image counter of a category *)
(* ================================================================== *)

Lemma uploadImage_unfold (file : Buffer) (data : ImageModel.ImageData)
  (id : ObjectId) (w : World) :
  ImageService.uploadImage file data id w
  = match find_by_id CategoryDoc._id id (categories w) with
    | None => (Throw CategoryService.not_found, w)
    | Some c =>
        if isConfigured w then
          match
            upload_stream (host w) file (ImageService.upload_public_id c w)
          with
          | None =>
              (Throw (UpstreamError "upload failed"),
               with_call (CallUpload (ImageService.upload_public_id c w)) w)
          | Some r =>
              let w1 :=
                with_call (CallUpload (ImageService.upload_public_id c w)) w in
              let i := uploaded_doc data id r w in
              match ImageDoc.validate i with
              | [] =>
                  let w2 := counted id (take_id w1) in
                  if ImageModel.cloudinaryId_taken i (images w)
                  then
                    (Throw (DuplicateKeyError "cloudinaryId"
                              (ImageDoc.cloudinaryId i)), w2)
                  else
                    let i' := ImageDoc.set_stamps (now w2) (now w2) i in
                    (Ok i', advance (with_images (images w ++ [i']) w2))
              | msgs => (Throw (ValidationError msgs), take_id w1)
              end
          end
        else (Throw cloudinaryConfig.not_configured, w)
    end.
Proof.
  unfold ImageService.uploadImage, try_rethrow, CategoryModel.findById.
  rewrite bind_gets.
  destruct (find_by_id CategoryDoc._id id (categories w)) as [c|];
    [|reflexivity].
  rewrite bind_gets. unfold bind at 1. unfold cloudinaryConfig.uploadImage.
  destruct (isConfigured w) eqn:Hcfg; [|reflexivity].
  destruct (upload_stream (host w) file (ImageService.upload_public_id c w))
    as [r|]; [|reflexivity].
  unfold bind at 1. unfold cloudinaryConfig.getImageUrl. simpl isConfigured.
  rewrite Hcfg. unfold bind at 1. unfold ImageModel.new.
  unfold ImageModel.save_new. cbv zeta.
  change (ImageDoc.mk _ _ _ _ _ _ _ _ _ _ _ _ _ _ _ _ _ _)
    with (uploaded_doc data id r w).
  destruct (ImageDoc.validate (uploaded_doc data id r w)); [|reflexivity].
  unfold ImageModel.pre_save, CategoryModel.inc_imageCount, bind, modify.
  simpl.
  destruct (ImageModel.cloudinaryId_taken (uploaded_doc data id r w)
              (images w)); reflexivity.
Qed.

(** A successful upload stores one more active image of the category and
    adds exactly one to the category's counter. *)
Lemma uploadImage_counts_one (file : Buffer) (data : ImageModel.ImageData)
  (id : ObjectId) (w w' : World) (i : Image) :
  ImageService.uploadImage file data id w = (Ok i, w') ->
  images w' = images w ++ [i]
  /\ ImageDoc.category i = id
  /\ ImageDoc.isActive i = true
  /\ active_images_of id w' = active_images_of id w + 1
  /\ imageCount_at id w'
     = option_map (fun n => (n + 1)%Z) (imageCount_at id w).
Proof.
  rewrite uploadImage_unfold.
  destruct (find_by_id CategoryDoc._id id (categories w)) as [c|] eqn:Hc;
    [|discriminate].
  destruct (isConfigured w); [|discriminate].
  destruct (upload_stream _ _ _) as [r|]; [|discriminate].
  cbv zeta.
  destruct (ImageDoc.validate _); [|discriminate].
  destruct (ImageModel.cloudinaryId_taken _ _); [discriminate|].
  intros H. injection H as <- <-. simpl.
  repeat split.
  - unfold active_images_of. simpl. rewrite filter_app, length_app. simpl.
    now rewrite Nat.eqb_refl.
  - unfold imageCount_at. simpl.
    rewrite find_by_id_update by reflexivity. rewrite Hc. simpl.
    apply find_by_id_some in Hc. destruct Hc as [_ Hid].
    apply Nat.eqb_eq in Hid. now rewrite Hid.
Qed.


(** C2 (the code at the failing input).  The upload of "Sunset Shot"
    takes the counter of "Outdoor Venues" from 0 to 1.  The deletion of
    the image succeeds and leaves no image of the category, and the
    counter is still 1, where the specification asks for 0. *)
Theorem deleteImage_leaves_imageCount :
  let created :=
    run (CreateCategory (Scenario.category_data "Outdoor Venues"))
      Scenario.empty in
  let uploaded := Scenario.outdoor_with_sunset in
  let deleted := run (DeleteImage 2) uploaded in
  imageCount_at 1 created = Some 0%Z
  /\ imageCount_at 1 uploaded = Some 1%Z
  /\ active_images_of 1 uploaded = 1
  /\ result_of (ImageService.deleteImage 2) uploaded
     = Ok (ImageService.mkDeleted "Sunset Shot"
             "marriage-hall/outdoor venues/1001")
  /\ images deleted = []
  /\ active_images_of 1 deleted = 0
  /\ imageCount_at 1 deleted = Some 1%Z.
Proof. vm_compute. repeat split. Qed.

(* ================================================================== *)
(** ** Images by category name *)
(* ================================================================== *)

(** The documents [getImagesByCategory] returns do not depend on the
    name: they are the active images, newest first, cut at the limit.
    The name only decides which of them carry their category. *)
Lemma getImagesByCategory_docs (categoryName : string) (limit : option Z)
  (w : World) (l : list ImageModel.Populated) :
  result_of (ImageService.getImagesByCategory categoryName limit) w = Ok l ->
  map ImageModel.doc l
  = limit_docs (ImageModel.or_else limit 0%Z)
      (ImageModel.find_sorted
         (ImageModel.mkQuery (Some true) None None None)
         ImageModel.newest_first w).
Proof.
  unfold ImageService.getImagesByCategory, ImageModel.findByCategoryName,
    regexp.
  unfold_monad.
  destruct (JsString.compile categoryName); simpl; [|discriminate].
  intros H. injection H as <-. rewrite map_map. simpl. apply map_id.
Qed.

(** C6 (the code at the failing input).  "Halls" owns no image and
    "Gardens" owns "Rose walk".  The images of the name "Halls" are
    asked for: the answer holds "Rose walk", an image of the category
    "Gardens", with its category left empty. *)
Theorem getImagesByCategory_returns_other_categories :
  let w := Scenario.halls_and_gardens in
  option_map CategoryDoc.name (find_by_id CategoryDoc._id 1 (categories w))
  = Some "Halls"
  /\ option_map CategoryDoc.name (find_by_id CategoryDoc._id 2 (categories w))
     = Some "Gardens"
  /\ images_of 1 w = []
  /\ exists p,
       result_of (ImageService.getImagesByCategory "Halls" None) w = Ok [p]
       /\ ImageDoc.title (ImageModel.doc p) = "Rose walk"
       /\ ImageDoc.category (ImageModel.doc p) = 2
       /\ ImageModel.populated_category p = None.
Proof.
  vm_compute. repeat split. eexists. repeat split.
Qed.

(* ================================================================== *)
(** ** Listing images *)
(* ================================================================== *)

(** Without [page] and [limit] in the query string the controller asks
    for page 1 and limit 20. *)
Lemma getAllImages_options_defaults (query : Http.QueryString)
  (options : ImageService.Options) :
  Http.param "page" query = None ->
  Http.param "limit" query = None ->
  Http.getAllImages_options query = Ok options ->
  ImageService.o_page options = Some 1%Z
  /\ ImageService.o_limit options = Some 20%Z.
Proof.
  intros Hp Hl. unfold Http.getAllImages_options. rewrite Hp, Hl.
  destruct (match ImageService.truthy_string (Http.param "category" query) with
            | Some s => option_map Some (Http.cast_objectId s)
            | None => Some None
            end); [|discriminate].
  intros H. injection H as <-. split; reflexivity.
Qed.

(** The service applies the same defaults to absent options. *)
Lemma getAllImages_defaults (options : ImageService.Options) (w : World)
  (page : ImageService.Page) :
  ImageService.o_page options = None ->
  ImageService.o_limit options = None ->
  result_of (ImageService.getAllImages options) w = Ok page ->
  ImageService.pg_page (ImageService.pagination page) = 1%Z
  /\ ImageService.pg_limit (ImageService.pagination page) = 20%Z
  /\ length (ImageService.page_images page) <= 20.
Proof.
  intros Hp Hl. unfold ImageService.getAllImages. rewrite Hp, Hl.
  unfold_monad. simpl ImageModel.or_else.
  destruct (ImageService.o_featured options) as [s|];
    [destruct (ImageService.cast_boolean s); [|discriminate]|];
    (destruct (ImageService.truthy_string (ImageService.o_search options))
       as [t|];
     [unfold regexp; destruct (JsString.compile t); [|discriminate]|]);
    simpl; intros H; injection H as <-; simpl;
    (repeat split); rewrite length_map; apply firstn_le_length.
Qed.

(** C7 (the code at the failing input).  The store holds 101 active
    images and the request is [GET /api/images?limit=500].  The
    pagination schema would refuse this limit, but no route installs it:
    the answer is a 200 carrying limit 500 and 101 records, more than
    the 100 of the specification. *)
Theorem list_limit_is_not_capped :
  let response :=
    fst (Http.GET_images false [("limit", "500")] (Scenario.many_images 101)) in
  Http.schema_pagination_limit (Some 500%Z) = None
  /\ Http.status response = 200
  /\ length (Http.records response) = 101
  /\ match Http.data response with
     | Http.ImagePage _ p => ImageService.pg_limit p = 500%Z
     | _ => False
     end.
Proof. vm_compute. repeat split. Qed.

(* ================================================================== *)
(** ** Reads *)
(* ================================================================== *)

Lemma reads_only_ret {A} (a : A) : reads_only (ret a).
Proof. intros w. reflexivity. Qed.

Lemma reads_only_throw {A} (e : JsError) : reads_only (@throw A e).
Proof. intros w. reflexivity. Qed.

Lemma reads_only_gets {A} (f : World -> A) : reads_only (gets f).
Proof. intros w. reflexivity. Qed.

Lemma reads_only_bind {A B} (m : M A) (k : A -> M B) :
  reads_only m -> (forall a, reads_only (k a)) -> reads_only (bind m k).
Proof.
  intros Hm Hk w. unfold bind. specialize (Hm w).
  destruct (m w) as [[a|e] w']; simpl in *; subst; [apply Hk|reflexivity].
Qed.

Lemma reads_only_regexp (pattern : string) : reads_only (regexp pattern).
Proof.
  unfold regexp. destruct (JsString.compile pattern);
    [apply reads_only_ret | apply reads_only_throw].
Qed.

Create HintDb reads.
#[local] Hint Resolve reads_only_ret reads_only_throw reads_only_gets
  reads_only_regexp : reads.

Ltac reads :=
  repeat first
    [ apply reads_only_bind; [|intros ?]
    | solve [auto with reads]
    | match goal with
      | |- reads_only (match ?x with _ => _ end) => destruct x
      | |- reads_only (if ?x then _ else _) => destruct x
      end ].

Lemma reads_only_getAllImages (options : ImageService.Options) :
  reads_only (ImageService.getAllImages options).
Proof.
  unfold ImageService.getAllImages, try_rethrow, ImageModel.countDocuments.
  cbv zeta. reads.
Qed.

(** The operations that only read leave the world as it is. *)
Lemma run_read (op : Operation) (w : World) :
  match op with
  | GetAllCategories | GetCategoryById _ | GetCategoryByName _
  | GetCategoryBySlug _ | SearchCategories _ | GetHomepageData
  | GetImagesByCategory _ _ | GetAllImages _ | GetFeaturedImages _
  | SearchImages _ _ => run op w = w
  | _ => True
  end.
Proof.
  destruct op; try exact I; unfold run, world_after.
  - unfold CategoryService.getAllCategories, try_rethrow,
      CategoryModel.find_sorted_by_name. apply reads_only_gets.
  - unfold CategoryService.getCategoryById, try_rethrow,
      CategoryModel.findOne_active. generalize w. reads.
  - unfold CategoryService.getCategoryByName, try_rethrow.
    generalize w. reads.
  - unfold CategoryService.getCategoryBySlug, try_rethrow,
      CategoryModel.findBySlug. generalize w. reads.
  - unfold CategoryService.searchCategories, try_rethrow,
      CategoryModel.find_sorted_by_name. generalize w. reads.
  - unfold ImageService.getHomepageData, try_rethrow,
      ImageModel.getHomepageData, CategoryModel.find_sorted_by_name.
    generalize w. reads.
  - unfold ImageService.getImagesByCategory, try_rethrow,
      ImageModel.findByCategoryName. generalize w. reads.
  - apply reads_only_getAllImages.
  - unfold ImageService.getFeaturedImages, try_rethrow,
      ImageModel.findFeatured. apply reads_only_gets.
  - unfold ImageService.searchImages, try_rethrow.
    apply reads_only_getAllImages.
Qed.

(* ================================================================== *)
(** ** View counts *)
(* ================================================================== *)

Lemma getImageById_unfold (id : ObjectId) (w : World) :
  ImageService.getImageById id w
  = match find_by_id ImageDoc._id id (images w) with
    | None => (Throw ImageService.not_found, w)
    | Some i =>
        let i' := ImageDoc.set_viewCount (ImageDoc.viewCount i + 1) i in
        let w' :=
          advance
            (with_images
               (update_by_id ImageDoc._id (ImageDoc._id i)
                  (fun d =>
                     ImageDoc.set_stamps (ImageDoc.createdAt d) (now w)
                       (ImageDoc.set_viewCount (ImageDoc.viewCount i + 1) d))
                  (images w))
               w) in
        (Ok (ImageModel.populate (fun _ => true) (categories w)
               (ImageDoc.set_stamps (ImageDoc.createdAt i) (now w) i')),
         w')
    end.
Proof.
  unfold ImageService.getImageById, try_rethrow, ImageModel.findById.
  rewrite bind_gets.
  destruct (find_by_id ImageDoc._id id (images w)); reflexivity.
Qed.

(** One read by id: the answer and the store both carry the count plus
    one. *)
Lemma getImageById_increments (id : ObjectId) (w : World) (i : Image) :
  find_by_id ImageDoc._id id (images w) = Some i ->
  (exists p,
     result_of (ImageService.getImageById id) w = Ok p
     /\ ImageDoc._id (ImageModel.doc p) = id
     /\ ImageDoc.viewCount (ImageModel.doc p) = ImageDoc.viewCount i + 1)
  /\ exists i',
       find_by_id ImageDoc._id id (images (run (GetImageById id) w)) = Some i'
       /\ ImageDoc.viewCount i' = ImageDoc.viewCount i + 1
       /\ ImageDoc.isActive i' = ImageDoc.isActive i.
Proof.
  intros Hi. unfold run, result_of, world_after.
  rewrite getImageById_unfold, Hi. cbv zeta. simpl.
  destruct (find_by_id_some _ _ _ _ Hi) as [_ Hid]. split.
  - eexists. split; [reflexivity|]. simpl. auto.
  - rewrite Hid, find_by_id_update by reflexivity. rewrite Hi. simpl.
    apply Nat.eqb_eq in Hid. rewrite Hid. eexists. split; [reflexivity|].
    simpl. auto.
Qed.












(** So "no operation lowers a view count" does not hold of the
    services. *)
Corollary viewCount_not_monotone :
  ~ (forall op w id v v',
       unique_ids w ->
       viewCount_at id w = Some v ->
       viewCount_at id (run op w) = Some v' ->
       v <= v').
Proof.
  intros H.
  specialize (H (UpdateImage 2 Scenario.reset_views)
                Scenario.sunset_viewed_five_times 2 5 0).
  assert (5 <= 0) as Habs; [|lia].
  apply H.
  - split; vm_compute; repeat constructor; simpl; intuition discriminate.
  - vm_compute. reflexivity.
  - vm_compute. reflexivity.
Qed.

(* ================================================================== *)
(** ** Inactive images *)
(* ================================================================== *)

Lemma find_sorted_active (q : ImageModel.Query)
  (le : Image -> Image -> bool) (w : World) (j : Image) :
  ImageModel.q_isActive q = Some true ->
  In j (ImageModel.find_sorted q le w) ->
  In j (images w) /\ ImageDoc.isActive j = true.
Proof.
  intros Hq Hin. unfold ImageModel.find_sorted in Hin.
  apply sort_by_In, filter_In in Hin. destruct Hin as [Hin Hm].
  split; [exact Hin|].
  unfold ImageModel.matches in Hm. rewrite Hq in Hm. simpl in Hm.
  repeat (apply andb_true_iff in Hm; destruct Hm as [Hm _]).
  now destruct (ImageDoc.isActive j).
Qed.

(** With unique ids, the id of an inactive image is not the id of any
    active one. *)
Lemma inactive_id_not_active (w : World) (id : ObjectId) (i j : Image) :
  unique_ids w ->
  find_by_id ImageDoc._id id (images w) = Some i ->
  ImageDoc.isActive i = false ->
  In j (images w) ->
  ImageDoc.isActive j = true ->
  ImageDoc._id j <> id.
Proof.
  intros [Hnd _] Hi Hoff Hin Hon Hid.
  rewrite <- Hid in Hi.
  rewrite (find_by_id_unique ImageDoc._id _ _ Hnd Hin) in Hi.
  injection Hi as <-. congruence.
Qed.

Lemma ids_of_populate (keep : Category -> bool) (cs : list Category)
  (l : list Image) :
  ids_of (map (ImageModel.populate keep cs) l) = map ImageDoc._id l.
Proof. unfold ids_of. rewrite map_map. reflexivity. Qed.

(** The records of the three listings are active stored images. *)
Lemma getAllImages_active (o : ImageService.Options) (w : World)
  (page : ImageService.Page) (id : ObjectId) :
  result_of (ImageService.getAllImages o) w = Ok page ->
  In id (ids_of (ImageService.page_images page)) ->
  exists j, In j (images w) /\ ImageDoc.isActive j = true /\ ImageDoc._id j = id.
Proof.
  unfold ImageService.getAllImages. unfold_monad. cbv zeta.
  destruct (ImageService.o_featured o) as [s|];
    [destruct (ImageService.cast_boolean s); [|discriminate]|];
    (destruct (ImageService.truthy_string (ImageService.o_search o)) as [t|];
     [unfold regexp; destruct (JsString.compile t); [|discriminate]|]);
    simpl;
    match goal with
    | |- context [if ?b then _ else _] => destruct b; [discriminate|]
    end;
    simpl; intros H; injection H as <-; simpl;
    rewrite ids_of_populate; intros Hin;
    apply in_map_iff in Hin; destruct Hin as (j & Hid & Hin);
    apply limit_docs_In, skipn_In, find_sorted_active in Hin;
    try reflexivity; exists j; tauto.
Qed.

Lemma getFeaturedImages_active (limit : Z) (w : World)
  (l : list ImageModel.Populated) (id : ObjectId) :
  result_of (ImageService.getFeaturedImages limit) w = Ok l ->
  In id (ids_of l) ->
  exists j, In j (images w) /\ ImageDoc.isActive j = true /\ ImageDoc._id j = id.
Proof.
  unfold ImageService.getFeaturedImages, ImageModel.findFeatured.
  unfold_monad. intros H. injection H as <-.
  rewrite ids_of_populate. intros Hin.
  apply in_map_iff in Hin. destruct Hin as (j & Hid & Hin).
  apply limit_docs_In, find_sorted_active in Hin; [|reflexivity].
  exists j. tauto.
Qed.

Lemma getImagesByCategory_active (name : string) (limit : option Z)
  (w : World) (l : list ImageModel.Populated) (id : ObjectId) :
  result_of (ImageService.getImagesByCategory name limit) w = Ok l ->
  In id (ids_of l) ->
  exists j, In j (images w) /\ ImageDoc.isActive j = true /\ ImageDoc._id j = id.
Proof.
  intros H Hin. apply getImagesByCategory_docs in H.
  unfold ids_of in Hin. rewrite <- (map_map ImageModel.doc ImageDoc._id) in Hin.
  rewrite H in Hin.
  apply in_map_iff in Hin. destruct Hin as (j & Hid & Hin).
  apply limit_docs_In, find_sorted_active in Hin; [|reflexivity].
  exists j. tauto.
Qed.

Lemma getHomepageData_active (w : World)
  (l : list (ImageModel.HomeCategory * list ImageModel.HomeImage))
  (entry : ImageModel.HomeCategory * list ImageModel.HomeImage)
  (id : ObjectId) :
  result_of ImageService.getHomepageData w = Ok l ->
  In entry l ->
  In id (map ImageModel.h_id (snd entry)) ->
  exists j, In j (images w) /\ ImageDoc.isActive j = true /\ ImageDoc._id j = id.
Proof.
  unfold ImageService.getHomepageData, ImageModel.getHomepageData,
    CategoryModel.find_sorted_by_name.
  unfold_monad. intros H. injection H as <-. intros Hentry Hin.
  apply in_map_iff in Hentry. destruct Hentry as (c & <- & _).
  simpl in Hin. rewrite map_map in Hin.
  apply in_map_iff in Hin. destruct Hin as (j & Hid & Hin).
  apply limit_docs_In, find_sorted_active in Hin; [|reflexivity].
  exists j. tauto.
Qed.

(** C9.  An image stored with [isActive = false] is still answered by
    [getImageById], which persists its view count plus one, while its
    id appears in no answer of the listing, of the featured images, of
    the homepage or of the images by category name. *)
Theorem getImageById_ignores_isActive (w : World) (id : ObjectId)
  (i : Image) :
  unique_ids w ->
  find_by_id ImageDoc._id id (images w) = Some i ->
  ImageDoc.isActive i = false ->
  (exists p,
     result_of (ImageService.getImageById id) w = Ok p
     /\ ImageDoc._id (ImageModel.doc p) = id
     /\ ImageDoc.isActive (ImageModel.doc p) = false
     /\ ImageDoc.viewCount (ImageModel.doc p) = ImageDoc.viewCount i + 1)
  /\ viewCount_at id (run (GetImageById id) w)
     = Some (ImageDoc.viewCount i + 1)
  /\ (forall o page,
        result_of (ImageService.getAllImages o) w = Ok page ->
        ~ In id (ids_of (ImageService.page_images page)))
  /\ (forall limit l,
        result_of (ImageService.getFeaturedImages limit) w = Ok l ->
        ~ In id (ids_of l))
  /\ (forall l entry,
        result_of ImageService.getHomepageData w = Ok l ->
        In entry l ->
        ~ In id (map ImageModel.h_id (snd entry)))
  /\ (forall name limit l,
        result_of (ImageService.getImagesByCategory name limit) w = Ok l ->
        ~ In id (ids_of l)).
Proof.
  intros Hu Hi Hoff.
  assert (Hex : forall j, In j (images w) /\ ImageDoc.isActive j = true
                          /\ ImageDoc._id j = id -> False).
  { intros j (Hin & Hon & Hid).
    now apply (inactive_id_not_active w id i j Hu Hi Hoff Hin Hon). }
  repeat split.
  - unfold result_of. rewrite getImageById_unfold, Hi. cbv zeta.
    eexists. split; [reflexivity|]. simpl.
    destruct (find_by_id_some _ _ _ _ Hi) as [_ Hid]. auto.
  - destruct (getImageById_increments id w i Hi) as (_ & i' & Hi' & Hv & _).
    unfold viewCount_at. rewrite Hi'. simpl. now rewrite Hv.
  - intros o page H Hin.
    destruct (getAllImages_active o w page id H Hin) as (j & Hj).
    eauto.
  - intros limit l H Hin.
    destruct (getFeaturedImages_active limit w l id H Hin) as (j & Hj).
    eauto.
  - intros l entry H He Hin.
    destruct (getHomepageData_active w l entry id H He Hin) as (j & Hj).
    eauto.
  - intros name limit l H Hin.
    destruct (getImagesByCategory_active name limit w l id H Hin) as (j & Hj).
    eauto.
Qed.

(** "Sunset Shot" once deactivated: still counted by a read, absent from
    the featured images. *)
Lemma getImageById_ignores_isActive_witness :
  viewCount_at 2 (run (GetImageById 2) Scenario.sunset_deactivated) = Some 1
  /\ forall limit l,
       result_of (ImageService.getFeaturedImages limit)
         Scenario.sunset_deactivated = Ok l ->
       ~ In 2 (ids_of l).
Proof.
  edestruct (getImageById_ignores_isActive Scenario.sunset_deactivated 2)
    as (_ & Hv & _ & Hf & _).
  - split; vm_compute; repeat constructor; simpl; intuition discriminate.
  - vm_compute. reflexivity.
  - reflexivity.
  - split; [exact Hv | exact Hf].
Defined.

(* ================================================================== *)
(** ** Search terms *)
(* ================================================================== *)


(** A literal search for the same term would find nothing there, and a
    term without metacharacters finds what contains it. *)
Example literal_terms_match_literally :
  JsString.contains_ci "h.ll" "hull" = false
  /\ JsString.contains_ci "h.ll" "Hill view" = false
  /\ option_map (fun re => JsString.regex_test re "Grand Hall")
       (JsString.compile "hall") = Some true
  /\ option_map (fun re => JsString.regex_test re "h.ll")
       (JsString.compile "h\.ll") = Some true
  /\ option_map (fun re => JsString.regex_test re "hull")
       (JsString.compile "h\.ll") = Some false.
Proof. vm_compute. repeat split. Qed.

(* ================================================================== *)
(** ** The shape of a slug *)
(* ================================================================== *)

Lemma drop_first_hyphen_no_lead (cs : list ascii) :
  ~ SlugSpec.adjacent_hyphens cs ->
  forall r, JsString.drop_first_hyphen cs <> JsString.hyphen :: r.
Proof.
  intros Hadj r. destruct cs as [|c cs]; simpl; [discriminate|].
  destruct (JsString.is_hyphen c) eqn:Hc.
  - intros ->. apply Hadj. exists [], r.
    now rewrite (is_hyphen_eq _ Hc).
  - intros H. injection H as -> _. discriminate Hc.
Qed.

Lemma drop_first_hyphen_suffix (cs : list ascii) :
  exists p, cs = p ++ JsString.drop_first_hyphen cs.
Proof.
  destruct cs as [|c cs]; simpl; [now exists []|].
  destruct (JsString.is_hyphen c); [now exists [c]|now exists []].
Qed.

Lemma drop_last_hyphen_prefix (cs : list ascii) :
  exists s, cs = JsString.drop_last_hyphen cs ++ s.
Proof.
  unfold JsString.drop_last_hyphen.
  destruct (drop_first_hyphen_suffix (rev cs)) as (p & Hp).
  exists (rev p). rewrite <- rev_app_distr, <- Hp. now rewrite rev_involutive.
Qed.

Lemma not_adjacent_rev (cs : list ascii) :
  ~ SlugSpec.adjacent_hyphens cs -> ~ SlugSpec.adjacent_hyphens (rev cs).
Proof.
  intros H Hrev. apply H. now apply adjacent_hyphens_rev.
Qed.

Lemma not_adjacent_drop_first (cs : list ascii) :
  ~ SlugSpec.adjacent_hyphens cs ->
  ~ SlugSpec.adjacent_hyphens (JsString.drop_first_hyphen cs).
Proof. intros H Hd. now apply H, adjacent_hyphens_drop_first. Qed.

Lemma not_adjacent_replace_edge (cs : list ascii) :
  ~ SlugSpec.adjacent_hyphens cs ->
  ~ SlugSpec.adjacent_hyphens (JsString.replace_edge_hyphens cs).
Proof.
  intros H. unfold JsString.replace_edge_hyphens, JsString.drop_last_hyphen.
  now apply not_adjacent_rev, not_adjacent_drop_first, not_adjacent_rev,
    not_adjacent_drop_first.
Qed.

Lemma replace_edge_hyphens_no_lead (cs : list ascii) :
  ~ SlugSpec.adjacent_hyphens cs ->
  forall r, JsString.replace_edge_hyphens cs <> JsString.hyphen :: r.
Proof.
  intros Hadj r H. unfold JsString.replace_edge_hyphens in H.
  destruct (drop_last_hyphen_prefix (JsString.drop_first_hyphen cs))
    as (s & Hs).
  rewrite H in Hs. simpl in Hs.
  now apply (drop_first_hyphen_no_lead cs Hadj (r ++ s)).
Qed.

Lemma replace_edge_hyphens_no_trail (cs : list ascii) :
  ~ SlugSpec.adjacent_hyphens cs ->
  forall r, JsString.replace_edge_hyphens cs <> r ++ [JsString.hyphen].
Proof.
  intros Hadj r H.
  unfold JsString.replace_edge_hyphens, JsString.drop_last_hyphen in H.
  apply (f_equal (@rev ascii)) in H.
  rewrite rev_involutive, rev_app_distr in H. simpl in H.
  revert H. apply drop_first_hyphen_no_lead.
  now apply not_adjacent_rev, not_adjacent_drop_first.
Qed.

Lemma slugify_shape_facts (name : string) :
  Forall slug_alphabet (JsString.chars (CategoryDoc.slugify name))
  /\ ~ SlugSpec.adjacent_hyphens (JsString.chars (CategoryDoc.slugify name))
  /\ (forall r, JsString.chars (CategoryDoc.slugify name)
                <> JsString.hyphen :: r)
  /\ (forall r, JsString.chars (CategoryDoc.slugify name)
                <> r ++ [JsString.hyphen]).
Proof.
  unfold CategoryDoc.slugify. rewrite chars_str.
  set (runs := JsString.replace_runs false _).
  assert (Hadj : ~ SlugSpec.adjacent_hyphens runs)
    by apply (proj1 (replace_runs_no_adjacent _ false)).
  repeat split.
  - apply replace_edge_hyphens_alphabet, replace_runs_alphabet.
  - now apply not_adjacent_replace_edge.
  - now apply replace_edge_hyphens_no_lead.
  - now apply replace_edge_hyphens_no_trail.
Qed.

(** X1.  Whatever the name, the slug the save hook computes is made of
    the characters a-z, 0-9 and "-" only, holds no two hyphens in a row,
    and neither begins nor ends with a hyphen. *)
Theorem slugify_shape (name : string) :
  let cs := JsString.chars (CategoryDoc.slugify name) in
  Forall slug_alphabet cs
  /\ ~ SlugSpec.adjacent_hyphens cs
  /\ (forall r, cs <> JsString.hyphen :: r)
  /\ (forall r, cs <> r ++ [JsString.hyphen]).
Proof. exact (slugify_shape_facts name). Qed.

Lemma slug_alphabet_hyphen_or_slug (c : ascii) :
  slug_alphabet c ->
  JsString.is_slug_char c = true
  \/ (JsString.is_slug_char c = false /\ c = JsString.hyphen).
Proof.
  intros [H| ->]; [now left|]. right. split; reflexivity.
Qed.

(** On a text that is already shaped like a slug the run replacement
    changes nothing. *)
Lemma replace_runs_fixpoint (cs : list ascii) :
  Forall slug_alphabet cs ->
  ~ SlugSpec.adjacent_hyphens cs ->
  JsString.replace_runs false cs = cs
  /\ ((forall r, cs <> JsString.hyphen :: r) ->
      JsString.replace_runs true cs = cs).
Proof.
  induction cs as [|c r IH]; intros Hal Hadj; [split; reflexivity|].
  inversion Hal as [|? ? Hc Hr]; subst.
  assert (Hadj' : ~ SlugSpec.adjacent_hyphens r).
  { intros (l1 & l2 & E). apply Hadj. exists (c :: l1), l2. now rewrite E. }
  destruct (IH Hr Hadj') as [IH1 IH2]. simpl.
  destruct (slug_alphabet_hyphen_or_slug c Hc) as [Hs | [Hs ->]]; rewrite Hs.
  - rewrite IH1. split; reflexivity.
  - split.
    + rewrite IH2; [reflexivity|].
      intros r' ->. apply Hadj. now exists [], r'.
    + intros Hlead. now contradiction (Hlead r).
Qed.

Lemma drop_first_hyphen_fixpoint (cs : list ascii) :
  (forall r, cs <> JsString.hyphen :: r) -> JsString.drop_first_hyphen cs = cs.
Proof.
  destruct cs as [|c r]; simpl; [reflexivity|]. intros H.
  destruct (JsString.is_hyphen c) eqn:Hc; [|reflexivity].
  contradiction (H r). now rewrite (is_hyphen_eq _ Hc).
Qed.

Lemma replace_edge_hyphens_fixpoint (cs : list ascii) :
  (forall r, cs <> JsString.hyphen :: r) ->
  (forall r, cs <> r ++ [JsString.hyphen]) ->
  JsString.replace_edge_hyphens cs = cs.
Proof.
  intros Hlead Htrail.
  unfold JsString.replace_edge_hyphens, JsString.drop_last_hyphen.
  rewrite (drop_first_hyphen_fixpoint cs Hlead).
  rewrite drop_first_hyphen_fixpoint; [apply rev_involutive|].
  intros r H. apply (Htrail (rev r)).
  rewrite <- (rev_involutive cs), H. reflexivity.
Qed.

Lemma map_lower_alphabet (cs : list ascii) :
  Forall slug_alphabet cs -> map JsString.lower_char cs = cs.
Proof.
  induction 1 as [|c r Hc _ IH]; simpl; [reflexivity|].
  now rewrite (slug_alphabet_lower _ Hc), IH.
Qed.

(** X2.  The slug of a slug is the slug itself: applying the hook's
    transform to its own output changes nothing. *)
Theorem slugify_idempotent (name : string) :
  CategoryDoc.slugify (CategoryDoc.slugify name) = CategoryDoc.slugify name.
Proof.
  destruct (slugify_shape_facts name) as (Hal & Hadj & Hlead & Htrail).
  rewrite <- (str_chars (CategoryDoc.slugify name)) at 2.
  set (cs := JsString.chars (CategoryDoc.slugify name)) in *.
  rewrite <- (str_chars (CategoryDoc.slugify name)). fold cs.
  unfold CategoryDoc.slugify at 1. unfold JsString.toLowerCase.
  rewrite !chars_str, (map_lower_alphabet cs Hal).
  rewrite (proj1 (replace_runs_fixpoint cs Hal Hadj)).
  now rewrite (replace_edge_hyphens_fixpoint cs Hlead Htrail).
Qed.

(* ================================================================== *)
(** ** The store stays well formed *)
(* ================================================================== *)

Lemma NoDup_map_filter {D K} (key : D -> K) (p : D -> bool) (l : list D) :
  NoDup (map key l) -> NoDup (map key (filter p l)).
Proof.
  induction l as [|x l IH]; simpl; [auto|].
  intros H. inversion H as [|? ? Hnotin Hnd]; subst.
  destruct (p x); simpl; [|auto].
  constructor; [|auto].
  intros Hin. apply Hnotin. apply in_map_iff in Hin.
  destruct Hin as (d & Hk & Hd). apply filter_In in Hd.
  apply in_map_iff. exists d. tauto.
Qed.

Lemma NoDup_snoc {A} (l : list A) (x : A) :
  NoDup l -> ~ In x l -> NoDup (l ++ [x]).
Proof.
  induction l as [|y l IH]; simpl; intros Hnd Hx.
  - constructor; [tauto|constructor].
  - inversion Hnd as [|? ? Hy Hl]; subst. constructor.
    + rewrite in_app_iff. simpl. intros [H|[H|[]]]; [tauto|].
      subst. tauto.
    + apply IH; tauto.
Qed.

Section UniqueKeys.

Context {D K : Type} (id_of : D -> ObjectId) (key : D -> K).

Lemma map_update_by_id (id : ObjectId) (g : D -> D) (l : list D) :
  (forall d, key (g d) = key d) ->
  map key (update_by_id id_of id g l) = map key l.
Proof.
  intros Hg. unfold update_by_id. rewrite map_map. apply map_ext.
  intros d. now destruct (id_of d =? id).
Qed.

(** The check of a unique index, read on a store whose ids are all older
    than the candidate's. *)
Lemma index_free (eqb : K -> K -> bool) (i : ObjectId) (v : K) (l : list D) :
  (forall a b, eqb a b = true <-> a = b) ->
  existsb (fun d => negb (id_of d =? i) && eqb (key d) v) l = false ->
  Forall (fun d => id_of d < i) l ->
  ~ In v (map key l).
Proof.
  intros Heqb Hex Hfresh Hin. apply in_map_iff in Hin.
  destruct Hin as (d & Hk & Hd).
  rewrite Forall_forall in Hfresh. specialize (Hfresh d Hd).
  assert (Htrue : existsb (fun d => negb (id_of d =? i) && eqb (key d) v) l
                  = true).
  { apply existsb_exists. exists d. split; [exact Hd|].
    apply andb_true_iff. split.
    - apply negb_true_iff, Nat.eqb_neq. lia.
    - now apply Heqb. }
  congruence.
Qed.

(** The same check on an update: the other documents do not hold the
    new key. *)
Lemma index_free_others (eqb : K -> K -> bool) (i : ObjectId) (v : K)
  (l : list D) (d : D) :
  (forall a b, eqb a b = true <-> a = b) ->
  existsb (fun d => negb (id_of d =? i) && eqb (key d) v) l = false ->
  In d l -> id_of d <> i -> key d <> v.
Proof.
  intros Heqb Hex Hd Hid Hk.
  assert (Htrue : existsb (fun d => negb (id_of d =? i) && eqb (key d) v) l
                  = true).
  { apply existsb_exists. exists d. split; [exact Hd|].
    apply andb_true_iff. split.
    - now apply negb_true_iff, Nat.eqb_neq.
    - now apply Heqb. }
  congruence.
Qed.

Lemma update_by_id_absent (id : ObjectId) (g : D -> D) (l : list D) :
  ~ In id (map id_of l) -> update_by_id id_of id g l = l.
Proof.
  unfold update_by_id. induction l as [|x l IH]; simpl; [reflexivity|].
  intros H. destruct (id_of x =? id) eqn:E.
  - apply Nat.eqb_eq in E. tauto.
  - rewrite IH; tauto.
Qed.

(** Writing a key no other document holds keeps the keys unique. *)
Lemma NoDup_map_update (id : ObjectId) (g : D -> D) (v : K) (l : list D) :
  NoDup (map id_of l) ->
  NoDup (map key l) ->
  (forall d, key (g d) = v) ->
  (forall d, In d l -> id_of d <> id -> key d <> v) ->
  NoDup (map key (update_by_id id_of id g l)).
Proof.
  intros Hids Hkeys Hg Hothers.
  induction l as [|x l IH]; simpl; [constructor|].
  inversion Hids as [|? ? Hxid Hids']; subst.
  inversion Hkeys as [|? ? Hxkey Hkeys']; subst.
  destruct (id_of x =? id) eqn:E.
  - apply Nat.eqb_eq in E. subst id.
    fold (update_by_id id_of (id_of x) g l).
    rewrite (update_by_id_absent _ _ _ Hxid). rewrite Hg.
    constructor; [|exact Hkeys'].
    intros Hin. apply in_map_iff in Hin. destruct Hin as (d & Hk & Hd).
    apply (Hothers d); [now right| |exact Hk].
    intros Heq. apply Hxid. rewrite <- Heq. now apply in_map.
  - apply Nat.eqb_neq in E. constructor.
    + fold (update_by_id id_of id g l). intros Hin.
      apply in_map_iff in Hin. destruct Hin as (d & Hk & Hd).
      unfold update_by_id in Hd. apply in_map_iff in Hd.
      destruct Hd as (d0 & Hd0 & Hin0).
      destruct (id_of d0 =? id) eqn:E0; subst d.
      * rewrite Hg in Hk. apply (Hothers x); [now left|exact E|now symmetry].
      * apply Hxkey. rewrite <- Hk. now apply in_map.
    + apply IH; auto. intros d Hd. apply Hothers. now right.
Qed.

End UniqueKeys.

Lemma Forall_filter {A} (P : A -> Prop) (p : A -> bool) (l : list A) :
  Forall P l -> Forall P (filter p l).
Proof.
  rewrite !Forall_forall. intros H x Hx. apply filter_In in Hx. apply H, Hx.
Qed.

Lemma Forall_update_by_id {D} (id_of : D -> ObjectId) (P : D -> Prop)
  (id : ObjectId) (g : D -> D) (l : list D) :
  (forall d, P d -> P (g d)) ->
  Forall P l -> Forall P (update_by_id id_of id g l).
Proof.
  intros Hg H. unfold update_by_id. apply Forall_forall. intros x Hx.
  apply in_map_iff in Hx. destruct Hx as (d & <- & Hd).
  rewrite Forall_forall in H. destruct (id_of d =? id); auto.
Qed.

Lemma Forall_lt_S {A} (f : A -> nat) (n : nat) (l : list A) :
  Forall (fun x => f x < n) l -> Forall (fun x => f x < S n) l.
Proof. apply Forall_impl. intros x. lia. Qed.

Lemma fresh_not_in {A} (f : A -> nat) (n : nat) (l : list A) :
  Forall (fun x => f x < n) l -> ~ In n (map f l).
Proof.
  intros H Hin. apply in_map_iff in Hin. destruct Hin as (x & Hx & Hin).
  rewrite Forall_forall in H. specialize (H x Hin). lia.
Qed.

Lemma string_eqb_iff (a b : string) : String.eqb a b = true <-> a = b.
Proof. apply String.eqb_eq. Qed.

Lemma well_formed_take_id (w : World) : well_formed w -> well_formed (take_id w).
Proof.
  intros [H1 H2 H3 H4 H5 H6 H7]. constructor; simpl; auto using Forall_lt_S.
Qed.

Lemma well_formed_advance (w : World) : well_formed w -> well_formed (advance w).
Proof. intros [H1 H2 H3 H4 H5 H6 H7]. constructor; simpl; auto. Qed.

Lemma well_formed_with_call (c : HostCall) (w : World) :
  well_formed w -> well_formed (with_call c w).
Proof. intros [H1 H2 H3 H4 H5 H6 H7]. constructor; simpl; auto. Qed.

(** Rewriting stored categories without touching their id, name or
    slug. *)
Lemma well_formed_update_categories (id : ObjectId) (g : Category -> Category)
  (w : World) :
  (forall c, CategoryDoc._id (g c) = CategoryDoc._id c) ->
  (forall c, CategoryDoc.name (g c) = CategoryDoc.name c) ->
  (forall c, CategoryDoc.slug (g c) = CategoryDoc.slug c) ->
  well_formed w ->
  well_formed
    (with_categories (update_by_id CategoryDoc._id id g (categories w)) w).
Proof.
  intros Hid Hname Hslug [H1 H2 H3 H4 H5 H6 H7]. constructor; simpl; auto.
  - now rewrite map_update_by_id.
  - apply Forall_update_by_id; [|exact H4]. intros c. now rewrite Hid.
  - now rewrite map_update_by_id.
  - now rewrite map_update_by_id.
Qed.

(** Rewriting stored images without touching their id or asset id. *)
Lemma well_formed_update_images (id : ObjectId) (g : Image -> Image)
  (w : World) :
  (forall i, ImageDoc._id (g i) = ImageDoc._id i) ->
  (forall i, ImageDoc.cloudinaryId (g i) = ImageDoc.cloudinaryId i) ->
  well_formed w ->
  well_formed (with_images (update_by_id ImageDoc._id id g (images w)) w).
Proof.
  intros Hid Hcid [H1 H2 H3 H4 H5 H6 H7]. constructor; simpl; auto.
  - now rewrite map_update_by_id.
  - apply Forall_update_by_id; [|exact H3]. intros i. now rewrite Hid.
  - now rewrite map_update_by_id.
Qed.

Lemma well_formed_filter (keep_i : Image -> bool) (keep_c : Category -> bool)
  (w : World) :
  well_formed w ->
  well_formed
    (with_categories (filter keep_c (categories w))
       (with_images (filter keep_i (images w)) w)).
Proof.
  intros [H1 H2 H3 H4 H5 H6 H7].
  constructor; simpl.
  - now apply (NoDup_map_filter ImageDoc._id).
  - now apply (NoDup_map_filter CategoryDoc._id).
  - now apply Forall_filter.
  - now apply Forall_filter.
  - now apply (NoDup_map_filter CategoryDoc.name).
  - now apply (NoDup_map_filter CategoryDoc.slug).
  - now apply (NoDup_map_filter ImageDoc.cloudinaryId).
Qed.

Lemma well_formed_createCategory (d : CategoryModel.CategoryData) (w : World) :
  well_formed w -> well_formed (run (CreateCategory d) w).
Proof.
  intros Hw. unfold run, world_after. rewrite createCategory_unfold.
  destruct (CategoryDoc.validate_name _ ++ _);
    [|now apply well_formed_take_id].
  destruct (CategoryModel.unique_violation (candidate d w) (categories w))
    eqn:Hu; [now apply well_formed_take_id|].
  unfold CategoryModel.unique_violation in Hu.
  destruct (CategoryModel.name_taken _ _) eqn:Hn; [discriminate|].
  destruct (CategoryModel.slug_taken _ _) eqn:Hs; [discriminate|].
  destruct Hw as [H1 H2 H3 H4 H5 H6 H7].
  cbv zeta. constructor; simpl; auto using Forall_lt_S.
  - rewrite map_app. simpl. apply NoDup_snoc; [exact H2|].
    now apply fresh_not_in.
  - apply Forall_app. split; [now apply Forall_lt_S|].
    constructor; [simpl; lia|constructor].
  - rewrite map_app. simpl. apply NoDup_snoc; [exact H5|].
    apply (index_free CategoryDoc._id CategoryDoc.name String.eqb
             (nextId w) _ _ string_eqb_iff Hn H4).
  - rewrite map_app. simpl. apply NoDup_snoc; [exact H6|].
    apply (index_free CategoryDoc._id CategoryDoc.slug String.eqb
             (nextId w) _ _ string_eqb_iff Hs H4).
Qed.

Lemma well_formed_updateCategory (id : ObjectId)
  (p : CategoryModel.CategoryPatch) (w : World) :
  well_formed w -> well_formed (run (UpdateCategory id p) w).
Proof.
  intros Hw.
  unfold run, CategoryService.updateCategory, CategoryModel.findByIdAndUpdate.
  unfold_monad.
  destruct (_ ++ _); [|exact Hw].
  destruct (find_by_id CategoryDoc._id id (categories w)) as [c|] eqn:Hc;
    [|exact Hw].
  destruct (find_by_id_some _ _ _ _ Hc) as [Hin Hid].
  destruct (option_map JsString.trim (CategoryModel.p_name p)) as [n|] eqn:Hn.
  - destruct (CategoryModel.name_taken _ _) eqn:Ht; [exact Hw|]. simpl.
    apply well_formed_advance.
    destruct Hw as [H1 H2 H3 H4 H5 H6 H7]. constructor; simpl; auto.
    + now rewrite map_update_by_id.
    + apply Forall_update_by_id; [|exact H4]. now intros c0.
    + apply NoDup_map_update with (v := n); auto.
      intros d0 Hd0 Hne.
      apply (index_free_others CategoryDoc._id CategoryDoc.name String.eqb
               id n (categories w) d0 string_eqb_iff); auto.
      unfold CategoryModel.name_taken in Ht. simpl in Ht.
      now rewrite Hid in Ht.
    + now rewrite map_update_by_id.
  - simpl. apply well_formed_advance.
    now apply well_formed_update_categories.
Qed.

Lemma well_formed_deleteCategory (id : ObjectId) (w : World) :
  well_formed w -> well_formed (run (DeleteCategory id) w).
Proof.
  intros Hw.
  unfold run, CategoryService.deleteCategory, CategoryModel.findById,
    ImageModel.deleteMany_category, CategoryModel.findByIdAndDelete.
  unfold_monad.
  destruct (find_by_id CategoryDoc._id id (categories w)); [|exact Hw].
  simpl. now apply (well_formed_filter _ _ w).
Qed.

Lemma well_formed_counted (id : ObjectId) (w : World) :
  well_formed w -> well_formed (counted id w).
Proof.
  intros Hw. unfold counted, CategoryModel.inc_imageCount, modify. simpl.
  apply well_formed_advance. now apply well_formed_update_categories.
Qed.

Lemma well_formed_uploadImage (file : Buffer) (data : ImageModel.ImageData)
  (id : ObjectId) (w : World) :
  well_formed w -> well_formed (run (UploadImage file data id) w).
Proof.
  intros Hw. unfold run, world_after. rewrite uploadImage_unfold.
  destruct (find_by_id CategoryDoc._id id (categories w)); [|exact Hw].
  destruct (isConfigured w); [|exact Hw].
  destruct (upload_stream _ _ _) as [r|];
    [|now apply well_formed_with_call].
  cbv zeta.
  set (w1 := with_call _ w).
  assert (Hw2 : well_formed (counted id (take_id w1)))
    by now apply well_formed_counted, well_formed_take_id,
         well_formed_with_call.
  destruct (ImageDoc.validate _);
    [|now apply well_formed_take_id, well_formed_with_call].
  destruct (ImageModel.cloudinaryId_taken _ _) eqn:Ht; [exact Hw2|].
  simpl. apply well_formed_advance.
  destruct Hw as [H1 H2 H3 H4 H5 H6 H7].
  destruct Hw2 as [K1 K2 K3 K4 K5 K6 K7].
  constructor; simpl in *; auto.
  - rewrite map_app. simpl. apply NoDup_snoc; [exact H1|].
    now apply fresh_not_in.
  - apply Forall_app. split; [now apply Forall_lt_S|].
    constructor; [simpl; lia|constructor].
  - rewrite map_app. simpl. apply NoDup_snoc; [exact H7|].
    apply (index_free ImageDoc._id ImageDoc.cloudinaryId String.eqb
             (nextId w) _ _ string_eqb_iff Ht H3).
Qed.

Lemma well_formed_getImageById (id : ObjectId) (w : World) :
  well_formed w -> well_formed (run (GetImageById id) w).
Proof.
  intros Hw. unfold run, world_after. rewrite getImageById_unfold.
  destruct (find_by_id ImageDoc._id id (images w)); [|exact Hw].
  cbv zeta. simpl. apply well_formed_advance.
  now apply well_formed_update_images.
Qed.

Lemma well_formed_updateImage (id : ObjectId) (p : ImageModel.ImagePatch)
  (w : World) :
  well_formed w -> well_formed (run (UpdateImage id p) w).
Proof.
  intros Hw.
  unfold run, ImageService.updateImage, ImageModel.findByIdAndUpdate.
  unfold_monad.
  destruct (ImageModel.validate_patch p); [|exact Hw].
  destruct (find_by_id ImageDoc._id id (images w)); [|exact Hw].
  simpl. apply well_formed_advance. now apply well_formed_update_images.
Qed.

Lemma well_formed_deleteImage (id : ObjectId) (w : World) :
  well_formed w -> well_formed (run (DeleteImage id) w).
Proof.
  intros Hw.
  unfold run, ImageService.deleteImage, ImageModel.findById,
    cloudinaryConfig.deleteImage, ImageModel.findByIdAndDelete.
  unfold_monad.
  destruct (find_by_id ImageDoc._id id (images w)) as [i|]; [|exact Hw].
  destruct (isConfigured w); [|exact Hw].
  destruct (uploader_destroy (host w) (ImageDoc.cloudinaryId i)); simpl;
    [|now apply well_formed_with_call].
  destruct Hw as [H1 H2 H3 H4 H5 H6 H7].
  constructor; simpl; auto; unfold remove_by_id.
  - now apply (NoDup_map_filter ImageDoc._id).
  - now apply Forall_filter.
  - now apply (NoDup_map_filter ImageDoc.cloudinaryId).
Qed.

(** X3.  Every operation of the two services takes a well-formed store
    to a well-formed store, whether it returns or throws: ids stay
    unique and older than the next fresh id, and category names, slugs
    and asset ids stay unique. *)
Theorem run_keeps_well_formed (op : Operation) (w : World) :
  well_formed w -> well_formed (run op w).
Proof.
  intros Hw. pose proof (run_read op w) as Hread.
  destruct op; try (rewrite Hread; exact Hw).
  - now apply well_formed_createCategory.
  - now apply well_formed_updateCategory.
  - now apply well_formed_deleteCategory.
  - now apply well_formed_uploadImage.
  - now apply well_formed_getImageById.
  - now apply well_formed_updateImage.
  - now apply well_formed_deleteImage.
Qed.


(** The empty store is well formed, so the store after a create and an
    upload is. *)
Lemma run_keeps_well_formed_witness :
  well_formed Scenario.outdoor_with_sunset.
Proof.
  unfold Scenario.outdoor_with_sunset.
  apply run_keeps_well_formed, run_keeps_well_formed.
  constructor; simpl; constructor.
Defined.

(* ================================================================== *)
(** ** References from images to categories *)
(* ================================================================== *)

Lemma find_by_id_update_some {D} (id_of : D -> ObjectId) (id id' : ObjectId)
  (g : D -> D) (l : list D) :
  (forall d, id_of (g d) = id_of d) ->
  find_by_id id_of id l <> None ->
  find_by_id id_of id (update_by_id id_of id' g l) <> None.
Proof.
  intros Hg H. rewrite find_by_id_update by exact Hg.
  now destruct (find_by_id id_of id l).
Qed.

Lemma find_by_id_app_some {D} (id_of : D -> ObjectId) (id : ObjectId)
  (l l' : list D) :
  find_by_id id_of id l <> None -> find_by_id id_of id (l ++ l') <> None.
Proof.
  intros H. destruct (find_by_id id_of id l) as [d|] eqn:E; [|tauto].
  now rewrite (find_by_id_app _ _ _ l' _ E).
Qed.

Lemma references_resolve_createCategory (d : CategoryModel.CategoryData)
  (w : World) :
  references_resolve w -> references_resolve (run (CreateCategory d) w).
Proof.
  unfold references_resolve, run, world_after. rewrite createCategory_unfold.
  destruct (CategoryDoc.validate_name _ ++ _); [|auto].
  destruct (CategoryModel.unique_violation _ _); [auto|].
  cbv zeta. simpl. apply Forall_impl. intros i.
  apply find_by_id_app_some.
Qed.

Lemma references_resolve_updateCategory (id : ObjectId)
  (p : CategoryModel.CategoryPatch) (w : World) :
  references_resolve w -> references_resolve (run (UpdateCategory id p) w).
Proof.
  unfold references_resolve, run, CategoryService.updateCategory,
    CategoryModel.findByIdAndUpdate.
  unfold_monad.
  destruct (_ ++ _); [|auto].
  destruct (find_by_id CategoryDoc._id id (categories w)); [|auto].
  match goal with
  | |- context [if ?b then _ else _] => destruct b
  end; simpl; [auto|].
  apply Forall_impl. intros i. now apply find_by_id_update_some.
Qed.

Lemma references_resolve_deleteCategory (id : ObjectId) (w : World) :
  references_resolve w -> references_resolve (run (DeleteCategory id) w).
Proof.
  unfold references_resolve, run, CategoryService.deleteCategory,
    CategoryModel.findById, ImageModel.deleteMany_category,
    CategoryModel.findByIdAndDelete.
  unfold_monad.
  destruct (find_by_id CategoryDoc._id id (categories w)); [|auto].
  simpl. intros H. apply Forall_forall. intros i Hi.
  apply filter_In in Hi. destruct Hi as [Hi Hc].
  rewrite Forall_forall in H. specialize (H i Hi).
  rewrite find_by_id_remove.
  apply negb_true_iff in Hc. now rewrite Hc.
Qed.

Lemma references_resolve_uploadImage (file : Buffer)
  (data : ImageModel.ImageData) (id : ObjectId) (w : World) :
  references_resolve w ->
  references_resolve (run (UploadImage file data id) w).
Proof.
  unfold references_resolve, run, world_after. rewrite uploadImage_unfold.
  destruct (find_by_id CategoryDoc._id id (categories w)) as [c|] eqn:Hc;
    [|auto].
  destruct (isConfigured w); [|auto].
  destruct (upload_stream _ _ _); [|auto].
  cbv zeta.
  destruct (ImageDoc.validate _); [|auto].
  unfold counted, CategoryModel.inc_imageCount, modify.
  destruct (ImageModel.cloudinaryId_taken _ _); simpl; intros H.
  - revert H. apply Forall_impl. intros i.
    now apply find_by_id_update_some.
  - apply Forall_app. split.
    + revert H. apply Forall_impl. intros i.
      now apply find_by_id_update_some.
    + constructor; [|constructor]. simpl.
      apply find_by_id_update_some; [reflexivity|]. now rewrite Hc.
Qed.

Lemma references_resolve_update_images (id : ObjectId) (g : Image -> Image)
  (cs : list Category) (l : list Image) :
  (forall i, ImageDoc.category (g i) = ImageDoc.category i) ->
  Forall (fun i => find_by_id CategoryDoc._id (ImageDoc.category i) cs <> None)
         l ->
  Forall (fun i => find_by_id CategoryDoc._id (ImageDoc.category i) cs <> None)
         (update_by_id ImageDoc._id id g l).
Proof.
  intros Hg. apply Forall_update_by_id. intros i. now rewrite Hg.
Qed.

Lemma references_resolve_getImageById (id : ObjectId) (w : World) :
  references_resolve w -> references_resolve (run (GetImageById id) w).
Proof.
  unfold references_resolve, run, world_after. rewrite getImageById_unfold.
  destruct (find_by_id ImageDoc._id id (images w)); [|auto].
  cbv zeta. simpl. now apply references_resolve_update_images.
Qed.

Lemma references_resolve_updateImage (id : ObjectId)
  (p : ImageModel.ImagePatch) (w : World) :
  ImageModel.p_category p = None ->
  references_resolve w -> references_resolve (run (UpdateImage id p) w).
Proof.
  intros Hp.
  unfold references_resolve, run, ImageService.updateImage,
    ImageModel.findByIdAndUpdate.
  unfold_monad.
  destruct (ImageModel.validate_patch p); [|auto].
  destruct (find_by_id ImageDoc._id id (images w)); [|auto].
  simpl. apply references_resolve_update_images.
  intros i. simpl. now rewrite Hp.
Qed.

Lemma references_resolve_deleteImage (id : ObjectId) (w : World) :
  references_resolve w -> references_resolve (run (DeleteImage id) w).
Proof.
  unfold references_resolve, run, ImageService.deleteImage,
    ImageModel.findById, cloudinaryConfig.deleteImage,
    ImageModel.findByIdAndDelete.
  unfold_monad.
  destruct (find_by_id ImageDoc._id id (images w)) as [i|]; [|auto].
  destruct (isConfigured w); [|auto].
  destruct (uploader_destroy (host w) (ImageDoc.cloudinaryId i)); simpl;
    [|auto].
  apply Forall_filter.
Qed.

(** X4.  If every stored image references a stored category, this is
    still so after any operation of the two services other than an
    image update whose patch sets [category]: in particular the cascade
    of [deleteCategory] leaves no image behind that points to the
    deleted category. *)
Theorem run_keeps_references (op : Operation) (w : World) :
  sets_category op = false ->
  references_resolve w ->
  references_resolve (run op w).
Proof.
  intros Hop Hw. pose proof (run_read op w) as Hread.
  destruct op; try (rewrite Hread; exact Hw).
  - now apply references_resolve_createCategory.
  - now apply references_resolve_updateCategory.
  - now apply references_resolve_deleteCategory.
  - now apply references_resolve_uploadImage.
  - now apply references_resolve_getImageById.
  - apply references_resolve_updateImage; [|exact Hw].
    simpl in Hop. now destruct (ImageModel.p_category patch).
  - now apply references_resolve_deleteImage.
Qed.

(** The deletion of "Halls" with its two images. *)
Lemma run_keeps_references_witness :
  references_resolve (run (DeleteCategory 1) Scenario.halls_with_two_images).
Proof.
  apply run_keeps_references; [reflexivity|].
  unfold references_resolve. vm_compute.
  repeat constructor; discriminate.
Defined.

(** X5.  [updateImage] does not look the new category up: an update
    whose patch names a category that is not stored succeeds, leaves the
    image pointing to the missing category, and writes nothing to the
    categories, so no counter moves either. *)
Theorem updateImage_does_not_check_category (id missing : ObjectId)
  (w : World) (i : Image) :
  find_by_id ImageDoc._id id (images w) = Some i ->
  find_by_id CategoryDoc._id missing (categories w) = None ->
  let patch :=
    ImageModel.mkPatch None None (Some missing) None None None None in
  (exists p,
     result_of (ImageService.updateImage id patch) w = Ok p
     /\ ImageDoc.category (ImageModel.doc p) = missing
     /\ ImageModel.populated_category p = None)
  /\ option_map ImageDoc.category
       (find_by_id ImageDoc._id id (images (run (UpdateImage id patch) w)))
     = Some missing
  /\ categories (run (UpdateImage id patch) w) = categories w
  /\ ~ references_resolve (run (UpdateImage id patch) w).
Proof.
  intros Hi Hmissing patch.
  destruct (find_by_id_some _ _ _ _ Hi) as [Hin Hid].
  assert (Hstored :
    option_map ImageDoc.category
      (find_by_id ImageDoc._id id (images (run (UpdateImage id patch) w)))
    = Some missing).
  { unfold run, ImageService.updateImage, ImageModel.findByIdAndUpdate.
    unfold_monad. simpl. rewrite Hi. simpl.
    rewrite find_by_id_update by reflexivity. rewrite Hi. simpl.
    apply Nat.eqb_eq in Hid. now rewrite Hid. }
  assert (Hcats : categories (run (UpdateImage id patch) w) = categories w).
  { unfold run, ImageService.updateImage, ImageModel.findByIdAndUpdate.
    unfold_monad. simpl. now rewrite Hi. }
  repeat split; auto.
  - unfold result_of, ImageService.updateImage, ImageModel.findByIdAndUpdate.
    unfold_monad. simpl. rewrite Hi. simpl.
    eexists. split; [reflexivity|]. unfold ImageModel.populate. simpl.
    rewrite Hmissing. auto.
  - unfold references_resolve. rewrite Hcats. intros Hall.
    destruct (find_by_id ImageDoc._id id
                (images (run (UpdateImage id patch) w))) as [j|] eqn:Hj;
      [|discriminate].
    simpl in Hstored. injection Hstored as Hcat.
    apply find_by_id_some in Hj. destruct Hj as [Hjin _].
    rewrite Forall_forall in Hall. apply (Hall j Hjin).
    now rewrite Hcat.
Qed.

(** "Sunset Shot" moved to the category 9, which does not exist. *)
Lemma updateImage_does_not_check_category_witness :
  categories
    (run (UpdateImage 2
            (ImageModel.mkPatch None None (Some 9) None None None None))
       Scenario.outdoor_with_sunset)
  = categories Scenario.outdoor_with_sunset.
Proof.
  edestruct (updateImage_does_not_check_category 2 9
               Scenario.outdoor_with_sunset) as (_ & _ & Hcats & _).
  - vm_compute. reflexivity.
  - reflexivity.
  - exact Hcats.
Defined.

(* ================================================================== *)
(** ** Sorting *)
(* ================================================================== *)

Section InsertionSort.

Context {A : Type} (le : A -> A -> bool).

Hypothesis le_total : forall a b, le a b = false -> le b a = true.

Let R (a b : A) : Prop := le a b = true.

Lemma insert_by_HdRel (a x : A) (l : list A) :
  R a x -> HdRel R a l -> HdRel R a (insert_by le x l).
Proof.
  intros Hax Hl. destruct l as [|y l]; simpl; [now constructor|].
  destruct (le x y); constructor; [exact Hax|].
  now inversion Hl.
Qed.

Lemma insert_by_Sorted (x : A) (l : list A) :
  Sorted R l -> Sorted R (insert_by le x l).
Proof.
  induction l as [|y l IH]; simpl; intros Hs.
  - constructor; constructor.
  - destruct (le x y) eqn:E.
    + constructor; [exact Hs|]. now constructor.
    + inversion Hs as [|? ? Hl Hy]; subst. constructor; [now apply IH|].
      apply insert_by_HdRel; [|exact Hy]. now apply le_total.
Qed.

Lemma sort_by_Sorted (l : list A) : Sorted R (sort_by le l).
Proof.
  unfold sort_by. induction l as [|x l IH]; simpl; [constructor|].
  now apply insert_by_Sorted.
Qed.

End InsertionSort.

Lemma Sorted_impl {A} (R S : A -> A -> Prop) (l : list A) :
  (forall a b, R a b -> S a b) -> Sorted R l -> Sorted S l.
Proof.
  intros H. induction 1 as [|a l Hl IH Hd]; constructor; [exact IH|].
  destruct Hd; constructor. now apply H.
Qed.




Lemma map_doc_populate (keep : Category -> bool) (cs : list Category)
  (l : list Image) :
  map ImageModel.doc (map (ImageModel.populate keep cs) l) = l.
Proof. rewrite map_map. simpl. apply map_id. Qed.

Lemma compare_field_antisym (field : string) (a b : Image) :
  ImageModel.compare_field field b a
  = CompOpp (ImageModel.compare_field field a b).
Proof.
  unfold ImageModel.compare_field.
  repeat match goal with
         | |- context [String.eqb field ?s] => destruct (String.eqb field s)
         end;
    first [ apply Nat.compare_antisym | apply String.compare_antisym
          | reflexivity ].
Qed.

(** What [.sort({ field: -1 })] and [.sort({ field: 1 })] order by. *)
Lemma directed_spec (field : string) (desc : bool) (a b : Image) :
  directed (ImageModel.compare_field field) (if desc then (-1)%Z else 1%Z) a b
  = true
  <-> ImageModel.compare_field field a b <> (if desc then Lt else Gt).
Proof.
  unfold directed.
  destruct desc, (ImageModel.compare_field field a b); simpl;
    split; intros H; try reflexivity; try discriminate; congruence.
Qed.

Lemma directed_total (field : string) (desc : bool) (a b : Image) :
  directed (ImageModel.compare_field field) (if desc then (-1)%Z else 1%Z) a b
  = false ->
  directed (ImageModel.compare_field field) (if desc then (-1)%Z else 1%Z) b a
  = true.
Proof.
  unfold directed. rewrite (compare_field_antisym field a b).
  destruct desc, (ImageModel.compare_field field a b); simpl;
    intros H; try reflexivity; discriminate.
Qed.

Lemma find_sorted_Sorted (q : ImageModel.Query) (field : string)
  (desc : bool) (w : World) :
  Sorted (fun a b =>
            ImageModel.compare_field field a b <> (if desc then Lt else Gt))
    (ImageModel.find_sorted q
       (directed (ImageModel.compare_field field)
          (if desc then (-1)%Z else 1%Z)) w).
Proof.
  unfold ImageModel.find_sorted.
  eapply Sorted_impl; [|apply sort_by_Sorted, directed_total].
  intros a b. apply directed_spec.
Qed.

Lemma newest_first_Sorted (q : ImageModel.Query) (w : World) :
  StronglySorted not_older
    (ImageModel.find_sorted q ImageModel.newest_first w).
Proof.
  apply Sorted_StronglySorted.
  - intros a b c. unfold not_older. lia.
  - eapply Sorted_impl;
      [|exact (find_sorted_Sorted q "createdAt" true w)].
    intros a b. unfold not_older, ImageModel.compare_field. simpl.
    destruct (Nat.compare_spec (ImageDoc.createdAt a) (ImageDoc.createdAt b));
      intros Hcmp; [lia|congruence|lia].
Qed.

Lemma StronglySorted_firstn {A} (R : A -> A -> Prop) (n : nat) (l : list A) :
  StronglySorted R l -> StronglySorted R (firstn n l).
Proof.
  revert n. induction l as [|a l IH]; intros [|n] H; simpl;
    try constructor.
  - apply IH. now inversion H.
  - inversion H as [|? ? _ Hall]; subst.
    apply Forall_forall. intros x Hx. apply firstn_subset in Hx.
    rewrite Forall_forall in Hall. auto.
Qed.

Lemma StronglySorted_limit_docs {A} (R : A -> A -> Prop) (n : Z)
  (l : list A) :
  StronglySorted R l -> StronglySorted R (limit_docs n l).
Proof.
  unfold limit_docs. destruct (n =? 0)%Z; [auto|].
  apply StronglySorted_firstn.
Qed.

(* ================================================================== *)
(** ** Pages *)
(* ================================================================== *)

Lemma ceil_div_bounds (total limit : Z) :
  (1 <= limit)%Z ->
  exists tp,
    ImageService.ceil_div total limit = Some tp
    /\ (total <= tp * limit < total + limit)%Z.
Proof.
  intros Hl. unfold ImageService.ceil_div.
  destruct (limit =? 0)%Z eqn:E; [apply Z.eqb_eq in E; lia|].
  eexists. split; [reflexivity|].
  pose proof (Z.div_mod (- total) limit ltac:(lia)) as Hdm.
  pose proof (Z.mod_pos_bound (- total) limit ltac:(lia)) as Hb.
  nia.
Qed.

(** X6.  A listing without [featured] and [search], asked for page [p]
    >= 1 with limit [l] >= 1, returns; [total] is the number of active
    images (of the category, when one is given); the page holds
    [min(l, total - (p-1)l)] records (none beyond the last page);
    [totalPages] is the least number of pages of [l] records that hold
    [total]; [hasNext] says whether records remain after this page and
    [hasPrev] whether [p > 1]. *)
Theorem getAllImages_pagination (o : ImageService.Options) (w : World)
  (p l : Z) :
  ImageService.o_page o = Some p ->
  ImageService.o_limit o = Some l ->
  (1 <= p)%Z ->
  (1 <= l)%Z ->
  ImageService.o_featured o = None ->
  ImageService.truthy_string (ImageService.o_search o) = None ->
  exists page,
    result_of (ImageService.getAllImages o) w = Ok page
    /\ let total :=
         length (filter (ImageModel.matches (listing_query o)) (images w)) in
       let pg := ImageService.pagination page in
       ImageService.pg_page pg = p
       /\ ImageService.pg_limit pg = l
       /\ ImageService.pg_total pg = Z.of_nat total
       /\ length (ImageService.page_images page)
          = Nat.min (Z.to_nat l) (total - Z.to_nat ((p - 1) * l))
       /\ (exists tp,
             ImageService.pg_totalPages pg = Some tp
             /\ (Z.of_nat total <= tp * l < Z.of_nat total + l)%Z)
       /\ ImageService.pg_hasNext pg = (p * l <? Z.of_nat total)%Z
       /\ ImageService.pg_hasPrev pg = (1 <? p)%Z.
Proof.
  intros Hp Hl Hp1 Hl1 Hf Hs.
  unfold ImageService.getAllImages, ImageModel.countDocuments.
  rewrite Hp, Hl, Hf, Hs. unfold_monad.
  change (ImageModel.or_else (Some p) 1%Z) with p.
  change (ImageModel.or_else (Some l) 20%Z) with l.
  destruct ((p - 1) * l <? 0)%Z eqn:Hskip; [apply Z.ltb_lt in Hskip; nia|].
  fold (listing_query o).
  eexists. split; [reflexivity|]. cbv zeta. simpl.
  set (total := length (filter (ImageModel.matches (listing_query o))
                               (images w))).
  destruct (ceil_div_bounds (Z.of_nat total) l Hl1) as (tp & Htp & Hb).
  rewrite Htp. repeat split.
  - rewrite length_map. unfold limit_docs.
    destruct (l =? 0)%Z eqn:E; [apply Z.eqb_eq in E; lia|].
    rewrite length_firstn, length_skipn. unfold ImageModel.find_sorted.
    rewrite sort_by_length. fold total.
    replace (Z.abs_nat l) with (Z.to_nat l) by lia. reflexivity.
  - exists tp. split; [reflexivity|exact Hb].
  - destruct (Z.ltb_spec p tp), (Z.ltb_spec (p * l) (Z.of_nat total));
      try reflexivity; nia.
Qed.

(** Twenty-five images, page 2 of 10: ten records, three pages, a next
    and a previous page. *)
Lemma getAllImages_pagination_witness :
  exists page,
    result_of
      (ImageService.getAllImages
         (ImageService.mkOptions (Some 2%Z) (Some 10%Z) None None None None
            None))
      (Scenario.many_images 25) = Ok page
    /\ length (ImageService.page_images page) = 10
    /\ ImageService.pg_totalPages (ImageService.pagination page) = Some 3%Z
    /\ ImageService.pg_hasNext (ImageService.pagination page) = true
    /\ ImageService.pg_hasPrev (ImageService.pagination page) = true.
Proof.
  destruct (getAllImages_pagination
              (ImageService.mkOptions (Some 2%Z) (Some 10%Z) None None None
                 None None)
              (Scenario.many_images 25) 2%Z 10%Z)
    as (page & Hres & _); try reflexivity; try lia.
  exists page. split; [exact Hres|].
  vm_compute in Hres. injection Hres as <-. vm_compute. repeat split.
Defined.



(* ================================================================== *)
(** ** Featured images, homepage, categories *)
(* ================================================================== *)

Lemma matches_featured (i : Image) :
  ImageModel.matches (ImageModel.mkQuery (Some true) None (Some true) None) i
  = true
  <-> ImageDoc.isActive i = true /\ ImageDoc.isFeatured i = true.
Proof.
  unfold ImageModel.matches. simpl.
  destruct (ImageDoc.isActive i), (ImageDoc.isFeatured i); simpl;
    intuition discriminate.
Qed.

(** X8.  [getFeaturedImages] always returns; every record is a stored
    image that is active and featured; the records are newest first; a
    limit other than 0 bounds their number by its absolute value, and
    with limit 0 every active featured image is returned. *)
Theorem getFeaturedImages_spec (limit : Z) (w : World) :
  exists l,
    result_of (ImageService.getFeaturedImages limit) w = Ok l
    /\ (forall p, In p l ->
          In (ImageModel.doc p) (images w)
          /\ ImageDoc.isActive (ImageModel.doc p) = true
          /\ ImageDoc.isFeatured (ImageModel.doc p) = true)
    /\ StronglySorted not_older (map ImageModel.doc l)
    /\ (limit <> 0%Z -> length l <= Z.abs_nat limit)
    /\ (limit = 0%Z ->
        forall i, In i (images w) ->
                  ImageDoc.isActive i = true ->
                  ImageDoc.isFeatured i = true ->
                  In i (map ImageModel.doc l)).
Proof.
  unfold ImageService.getFeaturedImages, ImageModel.findFeatured.
  unfold_monad. eexists. split; [reflexivity|].
  rewrite map_doc_populate. repeat split.
  - apply in_map_iff in H. destruct H as (i & <- & Hi). simpl.
    apply limit_docs_In in Hi. unfold ImageModel.find_sorted in Hi.
    apply sort_by_In, filter_In in Hi. tauto.
  - apply in_map_iff in H. destruct H as (i & <- & Hi). simpl.
    apply limit_docs_In in Hi. unfold ImageModel.find_sorted in Hi.
    apply sort_by_In, filter_In in Hi. destruct Hi as [_ Hm].
    now apply matches_featured in Hm.
  - apply in_map_iff in H. destruct H as (i & <- & Hi). simpl.
    apply limit_docs_In in Hi. unfold ImageModel.find_sorted in Hi.
    apply sort_by_In, filter_In in Hi. destruct Hi as [_ Hm].
    now apply matches_featured in Hm.
  - apply StronglySorted_limit_docs, newest_first_Sorted.
  - intros Hne. rewrite length_map. unfold limit_docs.
    destruct (limit =? 0)%Z eqn:E; [apply Z.eqb_eq in E; tauto|].
    apply firstn_le_length.
  - intros -> i Hin Ha Hf. unfold limit_docs. simpl.
    unfold ImageModel.find_sorted. apply sort_by_In, filter_In.
    split; [exact Hin|]. now apply matches_featured.
Qed.

Lemma Sorted_map {A B} (R : B -> B -> Prop) (f : A -> B) (l : list A) :
  Sorted (fun a b => R (f a) (f b)) l -> Sorted R (map f l).
Proof.
  induction 1 as [|a l Hl IH Hd]; simpl; constructor; [exact IH|].
  destruct Hd; simpl; constructor. assumption.
Qed.

Lemma StronglySorted_map {A B} (R : B -> B -> Prop) (f : A -> B)
  (l : list A) :
  StronglySorted (fun a b => R (f a) (f b)) l -> StronglySorted R (map f l).
Proof.
  induction 1 as [|a l Hl IH Hall]; simpl; constructor; [exact IH|].
  apply Forall_forall. intros b Hb. apply in_map_iff in Hb.
  destruct Hb as (x & <- & Hx). rewrite Forall_forall in Hall. auto.
Qed.

Lemma name_le_total (a b : Category) :
  CategoryModel.name_le a b = false -> CategoryModel.name_le b a = true.
Proof.
  unfold CategoryModel.name_le, directed.
  rewrite (String.compare_antisym (CategoryDoc.name b) (CategoryDoc.name a)).
  destruct (String.compare (CategoryDoc.name a) (CategoryDoc.name b));
    simpl; intros H; try reflexivity; discriminate.
Qed.

Lemma sorted_by_name (l : list Category) :
  Sorted by_name (sort_by CategoryModel.name_le l).
Proof.
  eapply Sorted_impl; [|apply sort_by_Sorted, name_le_total].
  intros a b. unfold by_name, CategoryModel.name_le, directed.
  destruct (String.compare (CategoryDoc.name a) (CategoryDoc.name b));
    intros H; first [discriminate | discriminate H].
Qed.

(** X9.  [getAllCategories] always returns; the answer holds exactly the
    stored categories that are active, each as often as it is stored,
    in ascending order of name. *)
Theorem getAllCategories_spec (w : World) :
  exists l,
    result_of CategoryService.getAllCategories w = Ok l
    /\ (forall c, In c l <->
                  In c (categories w) /\ CategoryDoc.isActive c = true)
    /\ length l = length (filter CategoryDoc.isActive (categories w))
    /\ Sorted by_name l.
Proof.
  unfold CategoryService.getAllCategories, CategoryModel.find_sorted_by_name.
  unfold_monad. eexists. split; [reflexivity|]. repeat split.
  - apply sort_by_In, filter_In in H. tauto.
  - apply sort_by_In, filter_In in H. tauto.
  - intros [Hin Ha]. apply sort_by_In, filter_In. tauto.
  - apply sort_by_length.
  - apply sorted_by_name.
Qed.

Lemma matches_category (id : ObjectId) (i : Image) :
  ImageModel.matches (ImageModel.mkQuery (Some true) (Some id) None None) i
  = ((ImageDoc.category i =? id) && ImageDoc.isActive i).
Proof.
  unfold ImageModel.matches. simpl.
  destruct (ImageDoc.isActive i), (ImageDoc.category i =? id); reflexivity.
Qed.

Lemma home_images_of (c : Category) (w : World) (h : ImageModel.HomeImage) :
  In h (map ImageModel.project_home
          (limit_docs 20%Z
             (ImageModel.find_sorted
                (ImageModel.mkQuery (Some true) (Some (CategoryDoc._id c))
                   None None)
                ImageModel.newest_first w))) ->
  exists i,
    In i (images w) /\ ImageDoc.isActive i = true
    /\ ImageDoc.category i = CategoryDoc._id c
    /\ h = ImageModel.project_home i.
Proof.
  intros H. apply in_map_iff in H. destruct H as (i & <- & Hi).
  apply limit_docs_In in Hi. unfold ImageModel.find_sorted in Hi.
  apply sort_by_In, filter_In in Hi. destruct Hi as [Hin Hm].
  rewrite matches_category in Hm. apply andb_true_iff in Hm.
  destruct Hm as [Hc Ha]. apply Nat.eqb_eq in Hc.
  exists i. auto.
Qed.

Lemma limit_docs_20_length {A} (l : list A) :
  length (limit_docs 20%Z l) <= 20.
Proof.
  unfold limit_docs. change (20 =? 0)%Z with false. cbv iota.
  change (Z.abs_nat 20) with 20. apply firstn_le_length.
Qed.

(** X10.  [getHomepageData] always returns.  Every active category has
    an entry and every entry is the summary of an active category, one
    entry per active category, in ascending order of name.  An entry
    holds at most 20 images, newest first, each the projection of an
    active stored image of that category; a category without active
    images has an entry with no image. *)
Theorem getHomepageData_spec (w : World) :
  exists l,
    result_of ImageService.getHomepageData w = Ok l
    /\ (forall c, In c (categories w) -> CategoryDoc.isActive c = true ->
                  exists imgs, In (home_summary c, imgs) l)
    /\ length l = length (filter CategoryDoc.isActive (categories w))
    /\ Sorted (fun a b =>
                 String.compare (ImageModel.hc_name (fst a))
                                (ImageModel.hc_name (fst b)) <> Gt) l
    /\ forall entry, In entry l ->
         (exists c, In c (categories w) /\ CategoryDoc.isActive c = true
                    /\ fst entry = home_summary c)
         /\ length (snd entry) <= 20
         /\ StronglySorted
              (fun a b => ImageModel.h_createdAt b <= ImageModel.h_createdAt a)
              (snd entry)
         /\ (forall h, In h (snd entry) ->
               exists i,
                 In i (images w) /\ ImageDoc.isActive i = true
                 /\ ImageDoc.category i = ImageModel.hc_id (fst entry)
                 /\ h = ImageModel.project_home i)
         /\ (active_images_of (ImageModel.hc_id (fst entry)) w = 0 ->
             snd entry = []).
Proof.
  unfold ImageService.getHomepageData, ImageModel.getHomepageData,
    CategoryModel.find_sorted_by_name.
  unfold_monad. eexists. split; [reflexivity|].
  fold home_summary.
  set (cats := sort_by CategoryModel.name_le
                 (filter CategoryDoc.isActive (categories w))).
  split; [|split; [|split]].
  - intros c Hin Ha. eexists. apply in_map_iff. exists c.
    split; [reflexivity|]. apply sort_by_In, filter_In. tauto.
  - rewrite length_map. apply sort_by_length.
  - apply Sorted_map. simpl. apply sorted_by_name.
  - intros entry Hentry. apply in_map_iff in Hentry.
    destruct Hentry as (c & <- & Hc). cbn [fst snd].
    change (ImageModel.hc_id (home_summary c)) with (CategoryDoc._id c).
    apply sort_by_In, filter_In in Hc. repeat split.
    + exists c. tauto.
    + rewrite length_map. apply limit_docs_20_length.
    + apply StronglySorted_map, StronglySorted_limit_docs.
      apply (newest_first_Sorted _ w).
    + apply home_images_of.
    + intros Hzero. unfold active_images_of in Hzero.
      cbn [ImageModel.hc_id home_summary] in Hzero.
      apply length_zero_iff_nil in Hzero.
      assert (Hnone :
        filter (ImageModel.matches
                  (ImageModel.mkQuery (Some true) (Some (CategoryDoc._id c))
                     None None))
               (images w) = []).
      { rewrite (filter_ext _ _ (matches_category (CategoryDoc._id c))).
        exact Hzero. }
      unfold ImageModel.find_sorted. rewrite Hnone. reflexivity.
Qed.

(* ================================================================== *)
(** ** Plain search terms *)
(* ================================================================== *)

Lemma not_syntax_not_dot (c : ascii) :
  JsString.is_syntax_char c = false ->
  Ascii.eqb c "."%char = false /\ Ascii.eqb c "\"%char = false.
Proof.
  intros H. split.
  - destruct (Ascii.eqb c "."%char) eqn:E; [|reflexivity].
    apply Ascii.eqb_eq in E. subst c. discriminate H.
  - destruct (Ascii.eqb c "\"%char) eqn:E; [|reflexivity].
    apply Ascii.eqb_eq in E. subst c. discriminate H.
Qed.

Lemma compile_chars_plain (cs : list ascii) :
  Forall (fun c => JsString.is_syntax_char c = false) cs ->
  JsString.compile_chars cs = Some (map JsString.Lit cs).
Proof.
  induction 1 as [|c r Hc _ IH]; simpl; [reflexivity|].
  destruct (not_syntax_not_dot c Hc) as [-> ->]. now rewrite Hc, IH.
Qed.

Lemma match_here_literals (p cs : list ascii) :
  JsString.match_here (map JsString.Lit p) cs = JsString.prefix_ci p cs.
Proof.
  revert cs. induction p as [|a p IH]; intros [|c cs]; simpl; try reflexivity.
  now rewrite IH.
Qed.

Lemma search_from_literals (p cs : list ascii) :
  JsString.search_from (map JsString.Lit p) cs = JsString.contains_from p cs.
Proof.
  induction cs as [|c cs IH]; simpl.
  - now rewrite match_here_literals.
  - rewrite IH. f_equal. apply (match_here_literals p (c :: cs)).
Qed.

(** A term without syntax characters is a pattern, and the pattern finds
    exactly the texts that contain the term, whatever the case. *)
Lemma plain_term_contains (term : string) :
  plain_term term ->
  exists re,
    JsString.compile term = Some re
    /\ forall text, JsString.regex_test re text = JsString.contains_ci term text.
Proof.
  intros Hp. exists (map JsString.Lit (JsString.chars term)). split.
  - now apply compile_chars_plain.
  - intros text. apply search_from_literals.
Qed.

Lemma regex_on_category_contains (term : string) (re : list JsString.atom)
  (c : Category) :
  (forall text, JsString.regex_test re text = JsString.contains_ci term text) ->
  CategoryService.regex_on_category re c = true <-> category_contains term c.
Proof.
  intros Hre. unfold CategoryService.regex_on_category, category_contains.
  rewrite orb_true_iff, Hre.
  destruct (CategoryDoc.description c) as [d|].
  - rewrite Hre. split; intros [H|H]; auto.
    + right. now exists d.
    + destruct H as (d' & Hd & Hc). injection Hd as <-. auto.
  - split; intros [H|H]; auto; [discriminate|].
    destruct H as (d' & Hd & _). discriminate.
Qed.

(** X11.  For a term without regular-expression syntax characters,
    [searchCategories] returns, and the answer holds exactly the active
    stored categories whose name or description contains the term,
    whatever the case, in ascending order of name. *)
Theorem searchCategories_plain (term : string) (w : World) :
  plain_term term ->
  exists l,
    result_of (CategoryService.searchCategories term) w = Ok l
    /\ (forall c, In c l <->
                  In c (categories w) /\ CategoryDoc.isActive c = true
                  /\ category_contains term c)
    /\ Sorted by_name l.
Proof.
  intros Hp. destruct (plain_term_contains term Hp) as (re & Hre & Htest).
  unfold CategoryService.searchCategories, CategoryModel.find_sorted_by_name,
    regexp.
  unfold_monad. rewrite Hre. simpl. eexists. split; [reflexivity|]. split.
  - intros c. rewrite sort_by_In, filter_In, andb_true_iff.
    rewrite (regex_on_category_contains term re c Htest). tauto.
  - apply sorted_by_name.
Qed.

(** "hall" in the store of "Grand Hall". *)
Lemma searchCategories_plain_witness :
  exists l,
    result_of (CategoryService.searchCategories "hall") Scenario.grand_hall
    = Ok l
    /\ Sorted by_name l.
Proof.
  destruct (searchCategories_plain "hall" Scenario.grand_hall)
    as (l & Hres & _ & Hs).
  - unfold plain_term. vm_compute. repeat constructor.
  - exists l. split; [exact Hres|exact Hs].
Defined.

Lemma regex_on_image_contains (term : string) (re : list JsString.atom)
  (i : Image) :
  (forall text, JsString.regex_test re text = JsString.contains_ci term text) ->
  ImageModel.regex_on_image re i = true -> image_contains term i.
Proof.
  intros Hre. unfold ImageModel.regex_on_image, image_contains.
  rewrite !orb_true_iff, Hre. intros [[H|H]|H].
  - now left.
  - right. left. destruct (ImageDoc.description i) as [d|]; [|discriminate].
    exists d. now rewrite <- Hre.
  - right. right. apply existsb_exists in H. destruct H as (t & Ht & Hc).
    exists t. now rewrite <- Hre.
Qed.

(** The filter behind an answer of [getAllImages]. *)
Lemma getAllImages_query (o : ImageService.Options) (w : World)
  (page : ImageService.Page) :
  result_of (ImageService.getAllImages o) w = Ok page ->
  exists q,
    ImageModel.q_isActive q = Some true
    /\ ImageModel.q_category q = ImageService.o_category o
    /\ ImageModel.q_isFeatured q
       = match ImageService.o_featured o with
         | Some s => ImageService.cast_boolean s
         | None => None
         end
    /\ ImageModel.q_or_regex q
       = match ImageService.truthy_string (ImageService.o_search o) with
         | Some t => JsString.compile t
         | None => None
         end
    /\ forall p, In p (ImageService.page_images page) ->
         In (ImageModel.doc p) (images w)
         /\ ImageModel.matches q (ImageModel.doc p) = true.
Proof.
  unfold ImageService.getAllImages. unfold_monad. cbv zeta.
  destruct (ImageService.o_featured o) as [s|];
    [destruct (ImageService.cast_boolean s); [|discriminate]|];
    (destruct (ImageService.truthy_string (ImageService.o_search o)) as [t|];
     [unfold regexp; destruct (JsString.compile t); [|discriminate]|]);
    simpl;
    match goal with
    | |- context [if (?x <? 0)%Z then _ else _] =>
        destruct (x <? 0)%Z; [discriminate|]
    end;
    simpl; intros H; injection H as <-; simpl;
    eexists (ImageModel.mkQuery _ _ _ _);
    (repeat split; try reflexivity);
    apply in_map_iff in H; destruct H as (i & <- & Hi);
    apply limit_docs_In, skipn_In in Hi;
    unfold ImageModel.find_sorted in Hi;
    apply sort_by_In, filter_In in Hi; simpl; tauto.
Qed.

(** X12.  Every record of an answer of [getAllImages] is a stored active
    image that passes the filters of the request: it belongs to the
    category asked for, its [isFeatured] is the value [featured] casts
    to, and, for a search term without regular-expression syntax
    characters, its title, its description or one of its tags contains
    the term, whatever the case. *)
Theorem getAllImages_filters (o : ImageService.Options) (w : World)
  (page : ImageService.Page) (p : ImageModel.Populated) :
  result_of (ImageService.getAllImages o) w = Ok page ->
  In p (ImageService.page_images page) ->
  In (ImageModel.doc p) (images w)
  /\ ImageDoc.isActive (ImageModel.doc p) = true
  /\ (forall c, ImageService.o_category o = Some c ->
                ImageDoc.category (ImageModel.doc p) = c)
  /\ (forall s b, ImageService.o_featured o = Some s ->
                  ImageService.cast_boolean s = Some b ->
                  ImageDoc.isFeatured (ImageModel.doc p) = b)
  /\ (forall t, ImageService.truthy_string (ImageService.o_search o) = Some t ->
                plain_term t ->
                image_contains t (ImageModel.doc p)).
Proof.
  intros Hres Hp.
  destruct (getAllImages_query o w page Hres)
    as (q & Ha & Hc & Hf & Hr & Hall).
  destruct (Hall p Hp) as [Hin Hm].
  unfold ImageModel.matches in Hm. rewrite Ha, Hc, Hf, Hr in Hm.
  apply andb_true_iff in Hm. destruct Hm as [Hm H4].
  apply andb_true_iff in Hm. destruct Hm as [Hm H3].
  apply andb_true_iff in Hm. destruct Hm as [H1 H2].
  repeat split; auto.
  - simpl in H1. now apply Bool.eqb_prop in H1.
  - intros c Hoc. rewrite Hoc in H2. simpl in H2. now apply Nat.eqb_eq in H2.
  - intros s b Hs Hb. rewrite Hs, Hb in H3. simpl in H3.
    now apply Bool.eqb_prop in H3.
  - intros t Ht Hplain. rewrite Ht in H4.
    destruct (plain_term_contains t Hplain) as (re & Hre & Htest).
    rewrite Hre in H4. simpl in H4.
    now apply (regex_on_image_contains t re).
Qed.

(** The search for "hill" in the store of "Hill view". *)
Lemma getAllImages_filters_witness :
  exists page p,
    result_of (ImageService.getAllImages (Scenario.search_for "hill"))
      Scenario.hull_with_hill = Ok page
    /\ In p (ImageService.page_images page)
    /\ image_contains "hill" (ImageModel.doc p).
Proof.
  eexists. eexists. split; [vm_compute; reflexivity|].
  split; [left; reflexivity|].
  eapply (getAllImages_filters (Scenario.search_for "hill")
            Scenario.hull_with_hill).
  - vm_compute. reflexivity.
  - left. reflexivity.
  - reflexivity.
  - unfold plain_term. vm_compute. repeat constructor.
Defined.

(* ================================================================== *)
(** ** Deletions *)
(* ================================================================== *)

Lemma filter_filter_comm {A} (p q : A -> bool) (l : list A) :
  (forall x, p x = true -> q x = true) ->
  filter p (filter q l) = filter p l.
Proof.
  intros H. induction l as [|x l IH]; simpl; [reflexivity|].
  destruct (q x) eqn:Hq; simpl.
  - now rewrite IH.
  - destruct (p x) eqn:Hp; [|exact IH].
    rewrite (H x Hp) in Hq. discriminate.
Qed.

(** X13.  [deleteCategory] of an id that is not stored throws "Category
    not found" and changes nothing; the deletion of a category leaves
    every other category, and the images of every other category, as
    they were. *)
Theorem deleteCategory_frame (id : ObjectId) (w : World) :
  (find_by_id CategoryDoc._id id (categories w) = None ->
   CategoryService.deleteCategory id w = (Throw CategoryService.not_found, w))
  /\ forall other,
       other <> id ->
       images_of other (run (DeleteCategory id) w) = images_of other w
       /\ find_by_id CategoryDoc._id other
            (categories (run (DeleteCategory id) w))
          = find_by_id CategoryDoc._id other (categories w).
Proof.
  split; [apply deleteCategory_not_found|].
  intros other Hne.
  unfold run, CategoryService.deleteCategory, CategoryModel.findById,
    ImageModel.deleteMany_category, CategoryModel.findByIdAndDelete, images_of.
  unfold_monad.
  destruct (find_by_id CategoryDoc._id id (categories w)); simpl; [|tauto].
  split.
  - apply filter_filter_comm. intros x Hx. apply Nat.eqb_eq in Hx.
    apply negb_true_iff, Nat.eqb_neq. congruence.
  - rewrite find_by_id_remove.
    destruct (other =? id) eqn:E; [|reflexivity].
    apply Nat.eqb_eq in E. contradiction.
Qed.

(** The deletion of "Halls" seen from "Gardens". *)
Lemma deleteCategory_frame_witness :
  images_of 2 (run (DeleteCategory 1) Scenario.halls_and_gardens)
  = images_of 2 Scenario.halls_and_gardens
  /\ CategoryService.deleteCategory 7 Scenario.halls_and_gardens
     = (Throw CategoryService.not_found, Scenario.halls_and_gardens).
Proof.
  destruct (deleteCategory_frame 1 Scenario.halls_and_gardens) as [_ Hother].
  destruct (deleteCategory_frame 7 Scenario.halls_and_gardens) as [Habsent _].
  split.
  - apply (Hother 2). discriminate.
  - apply Habsent. reflexivity.
Defined.

(** X14.  [deleteImage] deletes the remote asset first.  For an absent
    id it throws "Image not found" and issues no call.  For a stored
    image (host configured) it issues exactly one delete call, for the
    image's asset id: when the host rejects it the operation throws and
    the record stays; when the host accepts it the record is removed,
    the other images and the categories stay, and the title and asset id
    are returned. *)
Theorem deleteImage_remote_first (id : ObjectId) (w : World) :
  (find_by_id ImageDoc._id id (images w) = None ->
   ImageService.deleteImage id w = (Throw ImageService.not_found, w))
  /\ forall i,
       find_by_id ImageDoc._id id (images w) = Some i ->
       isConfigured w = true ->
       let after := run (DeleteImage id) w in
       hostCalls after
       = hostCalls w ++ [CallDestroy (ImageDoc.cloudinaryId i)]
       /\ categories after = categories w
       /\ (uploader_destroy (host w) (ImageDoc.cloudinaryId i) = false ->
           is_throw (result_of (ImageService.deleteImage id) w)
           /\ images after = images w)
       /\ (uploader_destroy (host w) (ImageDoc.cloudinaryId i) = true ->
           result_of (ImageService.deleteImage id) w
           = Ok (ImageService.mkDeleted (ImageDoc.title i)
                   (ImageDoc.cloudinaryId i))
           /\ images after = remove_by_id ImageDoc._id id (images w)
           /\ find_by_id ImageDoc._id id (images after) = None
           /\ forall other, other <> id ->
                find_by_id ImageDoc._id other (images after)
                = find_by_id ImageDoc._id other (images w)).
Proof.
  unfold run, ImageService.deleteImage, ImageModel.findById,
    cloudinaryConfig.deleteImage, ImageModel.findByIdAndDelete.
  unfold_monad. split.
  - intros Hnone. now rewrite Hnone.
  - intros i Hi Hcfg. rewrite Hi, Hcfg. cbv zeta.
    destruct (uploader_destroy (host w) (ImageDoc.cloudinaryId i)); simpl.
    + split; [reflexivity|]. split; [reflexivity|].
      split; [discriminate|]. intros _.
      split; [reflexivity|]. split; [reflexivity|]. split.
      * rewrite find_by_id_remove. now rewrite Nat.eqb_refl.
      * intros other Hne. rewrite find_by_id_remove.
        destruct (other =? id) eqn:E; [|reflexivity].
        apply Nat.eqb_eq in E. contradiction.
    + split; [reflexivity|]. split; [reflexivity|].
      split; [|discriminate]. intros _. split; [exact I|reflexivity].
Qed.

(** "Sunset Shot" deleted on an accepting host, and an absent id. *)
Lemma deleteImage_remote_first_witness :
  hostCalls (run (DeleteImage 2) Scenario.outdoor_with_sunset)
  = hostCalls Scenario.outdoor_with_sunset
    ++ [CallDestroy "marriage-hall/outdoor venues/1001"]
  /\ ImageService.deleteImage 9 Scenario.outdoor_with_sunset
     = (Throw ImageService.not_found, Scenario.outdoor_with_sunset).
Proof.
  destruct (deleteImage_remote_first 2 Scenario.outdoor_with_sunset)
    as [_ Hstored].
  destruct (deleteImage_remote_first 9 Scenario.outdoor_with_sunset)
    as [Habsent _].
  split.
  - edestruct Hstored as (Hcalls & _); [vm_compute; reflexivity|reflexivity|].
    exact Hcalls.
  - apply Habsent. reflexivity.
Defined.

(* ================================================================== *)
(** ** An asset host that is not configured *)
(* ================================================================== *)

Lemma hostCalls_after_read (op : Operation) (w : World) :
  match op with
  | CreateCategory _ | UpdateCategory _ _ | DeleteCategory _
  | GetImageById _ | UpdateImage _ _ => hostCalls (run op w) = hostCalls w
  | _ => True
  end.
Proof.
  destruct op; try exact I.
  - unfold run, world_after. rewrite createCategory_unfold.
    destruct (CategoryDoc.validate_name _ ++ _); [|reflexivity].
    now destruct (CategoryModel.unique_violation _ _).
  - unfold run, CategoryService.updateCategory,
      CategoryModel.findByIdAndUpdate.
    unfold_monad.
    destruct (_ ++ _); [|reflexivity].
    destruct (find_by_id CategoryDoc._id id (categories w)); [|reflexivity].
    match goal with
    | |- context [if ?b then _ else _] => destruct b
    end; reflexivity.
  - apply deleteCategory_leaves_host_alone.
  - unfold run, world_after. rewrite getImageById_unfold.
    now destruct (find_by_id ImageDoc._id id (images w)).
  - unfold run, ImageService.updateImage, ImageModel.findByIdAndUpdate.
    unfold_monad.
    destruct (ImageModel.validate_patch patch); [|reflexivity].
    now destruct (find_by_id ImageDoc._id id (images w)).
Qed.

(** X15.  While the wrapper of the asset host is not configured, no
    operation of the two services issues a call to the host, and
    neither [uploadImage] nor [deleteImage] changes the stored images:
    an upload to an existing category and the deletion of a stored image
    both throw "Cloudinary is not configured". *)
Theorem unconfigured_host_is_never_called (op : Operation) (w : World) :
  isConfigured w = false ->
  hostCalls (run op w) = hostCalls w
  /\ (forall file data id c,
        op = UploadImage file data id ->
        find_by_id CategoryDoc._id id (categories w) = Some c ->
        ImageService.uploadImage file data id w
        = (Throw cloudinaryConfig.not_configured, w))
  /\ (forall id i,
        op = DeleteImage id ->
        find_by_id ImageDoc._id id (images w) = Some i ->
        ImageService.deleteImage id w
        = (Throw cloudinaryConfig.not_configured, w)).
Proof.
  intros Hcfg. split; [|split].
  - pose proof (run_read op w) as Hread.
    pose proof (hostCalls_after_read op w) as Hwrite.
    destruct op; try (now rewrite Hread); try exact Hwrite.
    + unfold run, world_after. rewrite uploadImage_unfold, Hcfg.
      now destruct (find_by_id CategoryDoc._id id (categories w)).
    + unfold run, ImageService.deleteImage, ImageModel.findById,
        cloudinaryConfig.deleteImage.
      unfold_monad.
      destruct (find_by_id ImageDoc._id id (images w)); [|reflexivity].
      now rewrite Hcfg.
  - intros file data id c _ Hc. now rewrite uploadImage_unfold, Hc, Hcfg.
  - intros id i _ Hi.
    unfold ImageService.deleteImage, ImageModel.findById,
      cloudinaryConfig.deleteImage.
    unfold_monad. rewrite Hi. now rewrite Hcfg.
Qed.

(** A deletion before the wrapper is configured. *)
Lemma unconfigured_host_is_never_called_witness :
  hostCalls (run (DeleteImage 2) MoreScenarios.sunset_unconfigured) = [].
Proof.
  now apply (unconfigured_host_is_never_called (DeleteImage 2)
               MoreScenarios.sunset_unconfigured).
Defined.

(* ================================================================== *)
(** ** The validation middleware and the counters *)
(* ================================================================== *)


Lemma spread_none {A} (o : option A) : Http.spread o None = o.
Proof. reflexivity. Qed.


Lemma count_active_images (id : ObjectId) (w : World) :
  length (filter (ImageModel.matches
                    (ImageModel.mkQuery (Some true) (Some id) None None))
                 (images w))
  = active_images_of id w.
Proof.
  unfold active_images_of. f_equal. apply filter_ext. apply matches_category.
Qed.

(** X17.  [updateImageCount] repairs the counter: called on a stored
    category it returns, and the stored [imageCount] then equals the
    number of active images that reference the category; no image is
    touched. *)
Theorem updateImageCount_reconciles (c stored : Category) (w : World) :
  find_by_id CategoryDoc._id (CategoryDoc._id c) (categories w) = Some stored ->
  let after := world_after (updateImageCount c) w in
  (exists c',
     result_of (updateImageCount c) w = Ok c'
     /\ CategoryDoc.imageCount c'
        = Z.of_nat (active_images_of (CategoryDoc._id c) w))
  /\ imageCount_at (CategoryDoc._id c) after
     = Some (Z.of_nat (active_images_of (CategoryDoc._id c) after))
  /\ images after = images w.
Proof.
  intros Hstored. cbv zeta.
  unfold updateImageCount, ImageModel.countDocuments,
    CategoryModel.save_imageCount.
  unfold_monad. simpl. rewrite count_active_images.
  destruct (Z.of_nat (active_images_of (CategoryDoc._id c) w) <? 0)%Z eqn:E;
    [apply Z.ltb_lt in E; lia|].
  simpl. repeat split.
  - eexists. split; reflexivity.
  - unfold imageCount_at, active_images_of. simpl.
    rewrite find_by_id_update by reflexivity. rewrite Hstored. simpl.
    destruct (find_by_id_some _ _ _ _ Hstored) as [_ Hid].
    apply Nat.eqb_eq in Hid. now rewrite Hid.
Qed.

(** After the deletion that left the counter of "Outdoor Venues" at 1,
    the repair brings it back to the 0 images the category has. *)
Lemma updateImageCount_reconciles_witness :
  let w := run (DeleteImage 2) Scenario.outdoor_with_sunset in
  imageCount_at 1 w = Some 1%Z
  /\ imageCount_at 1
       (world_after
          (updateImageCount (CategoryDoc.mk 1 "Outdoor Venues" None
                               "outdoor-venues" true 1 1000 1001))
          w)
     = Some 0%Z.
Proof.
  cbv zeta. split; [vm_compute; reflexivity|].
  edestruct (updateImageCount_reconciles
               (CategoryDoc.mk 1 "Outdoor Venues" None "outdoor-venues" true
                  1 1000 1001)
               (CategoryDoc.mk 1 "Outdoor Venues" None "outdoor-venues" true
                  1 1000 1001)
               (run (DeleteImage 2) Scenario.outdoor_with_sunset))
    as (_ & Hcount & _).
  - vm_compute. reflexivity.
  - simpl CategoryDoc._id in Hcount. rewrite Hcount. vm_compute. reflexivity.
Defined.

(** X18.  The save hook of a new image counts it before the insert: when
    the host answers an upload with an asset id that a stored image
    already carries, [uploadImage] throws the duplicate-key error and
    stores no image, yet the counter of the category has gone up by
    one. *)
Theorem uploadImage_duplicate_asset_still_counts (file : Buffer)
  (data : ImageModel.ImageData) (id : ObjectId) (w : World) (c : Category)
  (r : UploadResult) (j : Image) :
  well_formed w ->
  find_by_id CategoryDoc._id id (categories w) = Some c ->
  isConfigured w = true ->
  upload_stream (host w) file (ImageService.upload_public_id c w) = Some r ->
  ImageDoc.validate (uploaded_doc data id r w) = [] ->
  In j (images w) ->
  ImageDoc.cloudinaryId j = public_id r ->
  let after := world_after (ImageService.uploadImage file data id) w in
  result_of (ImageService.uploadImage file data id) w
  = Throw (DuplicateKeyError "cloudinaryId" (public_id r))
  /\ images after = images w
  /\ imageCount_at id after = Some (CategoryDoc.imageCount c + 1)%Z.
Proof.
  intros Hw Hc Hcfg Hup Hvalid Hj Hcid. cbv zeta.
  unfold result_of, world_after.
  rewrite uploadImage_unfold, Hc, Hcfg, Hup. cbv zeta. rewrite Hvalid.
  assert (Htaken :
    ImageModel.cloudinaryId_taken (uploaded_doc data id r w) (images w) = true).
  { unfold ImageModel.cloudinaryId_taken. apply existsb_exists. exists j.
    split; [exact Hj|]. apply andb_true_iff. split.
    - apply negb_true_iff, Nat.eqb_neq. simpl.
      pose proof (wf_image_fresh w Hw) as Hfresh.
      rewrite Forall_forall in Hfresh. specialize (Hfresh j Hj). lia.
    - apply String.eqb_eq. now rewrite Hcid. }
  rewrite Htaken. simpl. repeat split.
  unfold imageCount_at, counted, CategoryModel.inc_imageCount, modify. simpl.
  rewrite find_by_id_update by reflexivity. rewrite Hc. simpl.
  destruct (find_by_id_some _ _ _ _ Hc) as [_ Hid].
  apply Nat.eqb_eq in Hid. now rewrite Hid.
Qed.

Ltac small_well_formed :=
  constructor; vm_compute;
  repeat first
    [ apply NoDup_nil | apply Forall_nil
    | apply NoDup_cons; [simpl; intuition discriminate|]
    | apply Forall_cons; [lia|] ].

(** "Sunset Shot" uploaded again on a host that reuses its asset id. *)
Lemma uploadImage_duplicate_asset_still_counts_witness :
  result_of
    (ImageService.uploadImage Scenario.file (Scenario.image_data "Again") 1)
    MoreScenarios.sunset_on_same_asset
  = Throw (DuplicateKeyError "cloudinaryId" "marriage-hall/outdoor venues/1001")
  /\ imageCount_at 1
       (world_after
          (ImageService.uploadImage Scenario.file
             (Scenario.image_data "Again") 1)
          MoreScenarios.sunset_on_same_asset)
     = Some 2%Z.
Proof.
  edestruct (uploadImage_duplicate_asset_still_counts Scenario.file
               (Scenario.image_data "Again") 1
               MoreScenarios.sunset_on_same_asset)
    as (Hres & _ & Hcount).
  - small_well_formed.
  - vm_compute. reflexivity.
  - reflexivity.
  - vm_compute. reflexivity.
  - vm_compute. reflexivity.
  - left. reflexivity.
  - vm_compute. reflexivity.
  - split; [exact Hres|]. rewrite Hcount. vm_compute. reflexivity.
Defined.

(* ------------------------------------------------------------------ *)
(** ** The routes: guards and status codes *)
(* ------------------------------------------------------------------ *)


Lemma errorHandler_validation (development : bool) (msgs : list string) :
  Http.status (Http.errorHandler development (ValidationError msgs)) = 400.
Proof. reflexivity. Qed.



Lemma read_digits_hex (cs : list ascii) (acc : option Z) :
  forallb Routes.is_hex cs = true ->
  cs <> [] \/ acc <> None ->
  JsString.read_digits 16 acc cs <> None.
Proof.
  revert acc. induction cs as [|c cs IH]; intros acc Hall Hne.
  - simpl. destruct Hne as [Hne|Hne]; [congruence|exact Hne].
  - simpl in Hall. apply andb_true_iff in Hall. destruct Hall as [Hc Hall].
    unfold Routes.is_hex in Hc. simpl.
    destruct (JsString.digit_val 16 c) as [v|]; [|discriminate].
    apply IH; [exact Hall|]. right. discriminate.
Qed.

Lemma chars_nonempty (s : string) :
  String.length s <> 0 -> JsString.chars s <> [].
Proof. destruct s; simpl; [congruence|discriminate]. Qed.

(** An id the guard accepts is one Mongoose casts. *)
Lemma validated_id_casts (param : string) :
  Routes.validateObjectId param = true ->
  exists id, Http.cast_objectId param = Some id.
Proof.
  intros Hv. unfold Http.cast_objectId.
  change (fun c : ascii =>
            match JsString.digit_val 16 c with
            | Some _ => true
            | None => false
            end) with Routes.is_hex.
  unfold Routes.validateObjectId in Hv. rewrite Hv.
  apply andb_true_iff in Hv. destruct Hv as [Hlen Hall].
  apply Nat.eqb_eq in Hlen.
  destruct (JsString.read_digits 16 None (JsString.chars param)) as [z|] eqn:E.
  - now exists (Z.to_nat z).
  - exfalso. apply (read_digits_hex (JsString.chars param) None Hall);
      [|exact E].
    left. apply chars_nonempty. lia.
Qed.

Lemma forallb_false_intro {A} (p : A -> bool) (l : list A) (x : A) :
  In x l -> p x = false -> forallb p l = false.
Proof.
  intros Hin Hp. destruct (forallb p l) eqn:E; [|reflexivity].
  rewrite forallb_forall in E. rewrite (E x Hin) in Hp. discriminate.
Qed.

Lemma malformed_id (param : string) :
  String.length param <> 24
  \/ (exists c, In c (JsString.chars param) /\ Routes.is_hex c = false) ->
  Routes.validateObjectId param = false.
Proof.
  intros [Hlen|(c & Hin & Hc)]; unfold Routes.validateObjectId.
  - apply Nat.eqb_neq in Hlen. now rewrite Hlen.
  - rewrite (forallb_false_intro _ _ c Hin Hc). apply andb_false_r.
Qed.

(** X20.  The routes guarded by [validateObjectId('id')] answer a
    parameter that is not 24 hexadecimal digits with 400 before the
    handler runs: no view is counted, nothing is deleted, no call reaches
    the asset host. *)
Theorem guarded_routes_reject_malformed_ids (development : bool)
  (param : string) (w : World) :
  String.length param <> 24
  \/ (exists c, In c (JsString.chars param) /\ Routes.is_hex c = false) ->
  Routes.GET_image development param w = (Routes.invalid_id, w)
  /\ Routes.GET_category development param w = (Routes.invalid_id, w)
  /\ Routes.DELETE_image development param w = (Routes.invalid_id, w)
  /\ Routes.DELETE_category development param w = (Routes.invalid_id, w).
Proof.
  intros Hbad. apply malformed_id in Hbad.
  unfold Routes.GET_image, Routes.GET_category, Routes.DELETE_image,
    Routes.DELETE_category, Routes.with_id.
  rewrite Hbad. now repeat split.
Qed.

(** Twenty-four characters, one of them no hexadecimal digit. *)
Lemma guarded_routes_reject_malformed_ids_witness :
  Routes.DELETE_image false "00000000000000000000000g"
    Scenario.outdoor_with_sunset
  = (Routes.invalid_id, Scenario.outdoor_with_sunset).
Proof.
  apply (guarded_routes_reject_malformed_ids false "00000000000000000000000g"
           Scenario.outdoor_with_sunset).
  right. exists "g"%char. split; [|reflexivity].
  vm_compute. tauto.
Defined.

(** X21.  [GET /api/images/:id] with a parameter the guard accepts: the
    parameter denotes an id; when no image has it the answer is 500 (the
    service's plain error carries no status), with the message "Something
    went wrong!" outside development, and the store is untouched; when an
    image has it the answer is 200 and the persisted view count is one
    more than before. *)
Theorem GET_image_by_valid_id (development : bool) (param : string)
  (w : World) :
  Routes.validateObjectId param = true ->
  exists id,
    Http.cast_objectId param = Some id
    /\ match find_by_id ImageDoc._id id (images w) with
       | None =>
           Routes.GET_image development param w
           = (Http.mkResponse 500 false
                (if development then "Image not found"
                 else "Something went wrong!")
                Http.NoData, w)
       | Some i =>
           Http.status (fst (Routes.GET_image development param w)) = 200
           /\ exists i',
                find_by_id ImageDoc._id id
                  (images (snd (Routes.GET_image development param w)))
                = Some i'
                /\ ImageDoc.viewCount i' = ImageDoc.viewCount i + 1
       end.
Proof.
  intros Hv. destruct (validated_id_casts param Hv) as [id Hid].
  exists id. split; [exact Hid|].
  unfold Routes.GET_image, Routes.with_id, Http.asyncHandler.
  rewrite Hv, Hid.
  destruct (find_by_id ImageDoc._id id (images w)) as [i|] eqn:Hfind.
  - destruct (getImageById_increments id w i Hfind)
      as ((p & Hres & _) & (i' & Hfind' & Hcount & _)).
    unfold result_of in Hres. unfold run, world_after in Hfind'.
    destruct (ImageService.getImageById id w) as [[p'|e] w'];
      simpl in Hres; [|discriminate].
    simpl. split; [reflexivity|]. now exists i'.
  - rewrite getImageById_unfold, Hfind. now destruct development.
Qed.

(** The id 2 of "Sunset Shot", written with 24 digits. *)
Lemma GET_image_by_valid_id_witness :
  Http.status
    (fst (Routes.GET_image false "000000000000000000000002"
            Scenario.outdoor_with_sunset)) = 200
  /\ Http.status
       (fst (Routes.GET_image false "000000000000000000000009"
               Scenario.outdoor_with_sunset)) = 500.
Proof.
  split.
  - destruct (GET_image_by_valid_id false "000000000000000000000002"
                Scenario.outdoor_with_sunset) as (id & Hid & H);
      [reflexivity|].
    vm_compute in Hid. injection Hid as <-.
    exact (proj1 H).
  - destruct (GET_image_by_valid_id false "000000000000000000000009"
                Scenario.outdoor_with_sunset) as (id & Hid & H);
      [reflexivity|].
    vm_compute in Hid. injection Hid as <-.
    vm_compute in H. vm_compute. congruence.
Defined.

(* ------------------------------------------------------------------ *)
(** ** Lookups of a category *)
(* ------------------------------------------------------------------ *)



Lemma createCategory_defaults (d : CategoryModel.CategoryData) (w w' : World)
  (c : Category) :
  CategoryService.createCategory d w = (Ok c, w') ->
  CategoryDoc.isActive c = true
  /\ CategoryDoc.imageCount c = 0%Z
  /\ images w' = images w
  /\ w' = run (CreateCategory d) w.
Proof.
  intros H. assert (Hrun : w' = run (CreateCategory d) w).
  { unfold run, world_after. now rewrite H. }
  rewrite createCategory_unfold in H.
  destruct (CategoryDoc.validate_name _ ++ _); [|discriminate].
  destruct (CategoryModel.unique_violation _ _); [discriminate|].
  cbv zeta in H. injection H as <- <-. now repeat split.
Qed.



(** X23.  [getCategoryByName] with a name free of regular-expression
    syntax characters reads only; it returns a stored active category
    whose name contains the text, whatever the case (the name need not
    equal it), and it throws "Category not found" exactly when no active
    category has such a name. *)
Theorem getCategoryByName_plain (name : string) (w : World) :
  plain_term name ->
  world_after (CategoryService.getCategoryByName name) w = w
  /\ match result_of (CategoryService.getCategoryByName name) w with
     | Ok c =>
         In c (categories w)
         /\ CategoryDoc.isActive c = true
         /\ JsString.contains_ci name (CategoryDoc.name c) = true
     | Throw e =>
         e = CategoryService.not_found
         /\ forall c, In c (categories w) ->
                      CategoryDoc.isActive c = true ->
                      JsString.contains_ci name (CategoryDoc.name c) = false
     end.
Proof.
  intros Hp. destruct (plain_term_contains name Hp) as (re & Hre & Htest).
  unfold CategoryService.getCategoryByName, regexp. unfold_monad.
  rewrite Hre. simpl.
  destruct (find (fun c => JsString.regex_test re (CategoryDoc.name c)
                           && CategoryDoc.isActive c)
              (categories w)) as [c|] eqn:Hfind; simpl.
  - split; [reflexivity|]. apply find_some in Hfind.
    destruct Hfind as [Hin Hc]. apply andb_true_iff in Hc.
    destruct Hc as [Hc Hact]. rewrite Htest in Hc. auto.
  - split; [reflexivity|]. split; [reflexivity|].
    intros c Hin Hact. apply (find_none _ _ Hfind) in Hin.
    rewrite Hact, andb_true_r, Htest in Hin. exact Hin.
Qed.

(** "hall" finds "Grand Hall". *)
Lemma getCategoryByName_plain_witness :
  match
    result_of (CategoryService.getCategoryByName "hall") Scenario.grand_hall
  with
  | Ok c =>
      In c (categories Scenario.grand_hall)
      /\ CategoryDoc.isActive c = true
      /\ JsString.contains_ci "hall" (CategoryDoc.name c) = true
  | Throw e =>
      e = CategoryService.not_found
      /\ forall c, In c (categories Scenario.grand_hall) ->
                   CategoryDoc.isActive c = true ->
                   JsString.contains_ci "hall" (CategoryDoc.name c) = false
  end.
Proof.
  apply (getCategoryByName_plain "hall" Scenario.grand_hall).
  unfold plain_term. vm_compute. repeat constructor.
Defined.

(* ------------------------------------------------------------------ *)
(** ** The counter of a category *)
(* ------------------------------------------------------------------ *)









(* ------------------------------------------------------------------ *)
(** ** Uploads through the routes *)
(* ------------------------------------------------------------------ *)

(** X25.  [POST /api/images/with-category] does not undo the category
    when the upload then fails: if the file passes the guard, the
    category is created and the remote upload fails (wrapper not
    configured, or upload rejected), the answer is 500, no image is
    stored, and the new category stays in the store with a counter
    of 0. *)
Theorem uploadImageWithCategory_keeps_category (development : bool)
  (env : Routes.Env) (fields : Routes.Fields) (f : Routes.File)
  (w w1 : World) (c : Category) :
  well_formed w ->
  Routes.validateFileUpload env (Some f) = None ->
  CategoryService.createCategory
    (CategoryModel.mkData
       (ImageModel.or_else (Routes.f_categoryName fields) "")
       (Routes.f_categoryDescription fields)) w
  = (Ok c, w1) ->
  upload_fails (Routes.buffer f) c w1 ->
  let answer :=
    Routes.POST_image_with_category development env fields (Some f) w in
  Http.status (fst answer) = 500
  /\ categories (snd answer) = categories w ++ [c]
  /\ images (snd answer) = images w
  /\ imageCount_at (CategoryDoc._id c) (snd answer) = Some 0%Z.
Proof.
  intros Hw Hguard Hc Hfails. cbv zeta.
  destruct (createCategory_defaults _ w w1 c Hc) as (_ & Hzero & Himgs & Hrun).
  destruct (createCategory_ok _ w w1 c Hc) as (_ & _ & _ & _ & Hcats & _).
  destruct (createCategory_slug _ w w1 c Hc) as [Hin _].
  assert (Hw1 : well_formed w1).
  { rewrite Hrun. now apply well_formed_createCategory. }
  assert (Hfind : find_by_id CategoryDoc._id (CategoryDoc._id c)
                    (categories w1) = Some c).
  { apply find_by_id_unique; [apply (wf_category_ids w1 Hw1)|exact Hin]. }
  assert (Ha : Routes.POST_image_with_category development env fields
                 (Some f) w
               = match
                   ImageService.uploadImage (Routes.buffer f)
                     (Routes.imageData_of fields f) (CategoryDoc._id c) w1
                 with
                 | (Ok i, w2) =>
                     (Http.mkResponse 201 true
                        "Image and category created successfully"
                        (Http.OneCategory c), w2)
                 | (Throw e, w2) => (Http.errorHandler development e, w2)
                 end).
  { unfold Routes.POST_image_with_category. rewrite Hguard.
    unfold Http.asyncHandler, Routes.uploadImageWithCategory, bind, ret.
    rewrite Hc.
    now destruct (ImageService.uploadImage _ _ _ w1) as [[i|e] w2]. }
  rewrite Ha, uploadImage_unfold, Hfind. clear Ha.
  unfold imageCount_at.
  assert (Hdone : forall e w2,
            Http.classify e = None ->
            categories w2 = categories w1 ->
            images w2 = images w1 ->
            Http.status (Http.errorHandler development e) = 500
            /\ categories w2 = categories w ++ [c]
            /\ images w2 = images w
            /\ option_map CategoryDoc.imageCount
                 (find_by_id CategoryDoc._id (CategoryDoc._id c)
                    (categories w2)) = Some 0%Z).
  { intros e w2 He Hc2 Hi2. rewrite Hc2, Hi2, Hfind. simpl.
    rewrite Hzero. repeat split; auto.
    unfold Http.errorHandler. rewrite He. now destruct development. }
  destruct Hfails as [Hcfg|Hup].
  - rewrite Hcfg. cbn [fst snd]. now apply Hdone.
  - destruct (isConfigured w1).
    + rewrite Hup. cbn [fst snd]. now apply Hdone.
    + cbn [fst snd]. now apply Hdone.
Qed.

(** "Gardens" and a photo on a host that rejects every upload. *)
Lemma uploadImageWithCategory_keeps_category_witness :
  let answer :=
    Routes.POST_image_with_category false MoreScenarios.no_env
      (MoreScenarios.fields_for "Gardens" "Rose walk")
      (Some MoreScenarios.photo) Scenario.empty_rejecting in
  Http.status (fst answer) = 500
  /\ map CategoryDoc.name (categories (snd answer)) = ["Gardens"]
  /\ images (snd answer) = [].
Proof.
  cbv zeta.
  assert (Hc : CategoryService.createCategory
                 (CategoryModel.mkData "Gardens" None) Scenario.empty_rejecting
               = (Ok (CategoryDoc.mk 1 "Gardens" None "gardens" true 0
                        1000 1000),
                  run (CreateCategory (CategoryModel.mkData "Gardens" None))
                    Scenario.empty_rejecting)).
  { vm_compute. reflexivity. }
  destruct (uploadImageWithCategory_keeps_category false MoreScenarios.no_env
              (MoreScenarios.fields_for "Gardens" "Rose walk")
              MoreScenarios.photo Scenario.empty_rejecting
              (run (CreateCategory (CategoryModel.mkData "Gardens" None))
                 Scenario.empty_rejecting)
              (CategoryDoc.mk 1 "Gardens" None "gardens" true 0 1000 1000))
    as (Hstatus & Hcats & Himgs & _).
  - small_well_formed.
  - vm_compute. reflexivity.
  - exact Hc.
  - right. vm_compute. reflexivity.
  - split; [exact Hstatus|]. split; [|exact Himgs].
    rewrite Hcats. reflexivity.
Defined.

Lemma existsb_eqb_In (x : string) (l : list string) :
  existsb (String.eqb x) l = true <-> In x l.
Proof.
  rewrite existsb_exists. split.
  - intros (y & Hin & Heq). apply String.eqb_eq in Heq. now subst.
  - intros Hin. exists x. split; [exact Hin|apply String.eqb_refl].
Qed.

Lemma parseInt_or_nonzero (q : option string) (d : Z) :
  d <> 0%Z -> JsString.parseInt_or q d <> 0%Z.
Proof.
  intros Hd. unfold JsString.parseInt_or.
  destruct q as [s|]; [|exact Hd].
  destruct (JsString.parseInt s) as [v|]; [|exact Hd].
  destruct (v =? 0)%Z eqn:E; [exact Hd|]. now apply Z.eqb_neq in E.
Qed.

(** X26.  [validateFileUpload()] lets a request through exactly when it
    carries a file whose type is one of the allowed types and whose size
    does not exceed the maximum; every answer it gives itself is a 400;
    the maximum is never 0 (an unset, non-numeric or zero
    [MAX_FILE_SIZE] gives 10 MB), and without [ALLOWED_FILE_TYPES] the
    allowed types are the four image types. *)
Theorem validateFileUpload_spec (env : Routes.Env)
  (file : option Routes.File) :
  (Routes.validateFileUpload env file = None <->
   exists f,
     file = Some f
     /\ In (Routes.mimetype f) (Routes.allowedTypes env)
     /\ (Z.of_nat (Routes.size f) <= Routes.maxSize env)%Z)
  /\ (forall r, Routes.validateFileUpload env file = Some r ->
                Http.status r = 400 /\ Http.success r = false)
  /\ Routes.maxSize env <> 0%Z
  /\ (Routes.ALLOWED_FILE_TYPES env = None ->
      Routes.allowedTypes env
      = ["image/jpeg"; "image/png"; "image/webp"; "image/gif"])
  /\ (Routes.MAX_FILE_SIZE env = None -> Routes.maxSize env = 10485760%Z).
Proof.
  split; [|split; [|split; [|split]]].
  - unfold Routes.validateFileUpload. destruct file as [f|].
    + destruct (existsb (String.eqb (Routes.mimetype f))
                  (Routes.allowedTypes env)) eqn:Htype; simpl.
      * apply existsb_eqb_In in Htype.
        destruct (Routes.maxSize env <? Z.of_nat (Routes.size f))%Z eqn:Hsize.
        -- split; [discriminate|]. intros (f' & Hf & _ & Hle).
           injection Hf as <-. apply Z.ltb_lt in Hsize. lia.
        -- split; [|reflexivity]. intros _. exists f.
           apply Z.ltb_ge in Hsize. auto.
      * split; [discriminate|]. intros (f' & Hf & Hin & _).
        injection Hf as <-. apply existsb_eqb_In in Hin. congruence.
    + split; [discriminate|]. intros (f & Hf & _). discriminate.
  - intros r. unfold Routes.validateFileUpload. destruct file as [f|].
    + destruct (negb _); [intros H; injection H as <-; now split|].
      destruct (_ <? _)%Z; [intros H; injection H as <-; now split|].
      discriminate.
    + intros H; injection H as <-; now split.
  - apply parseInt_or_nonzero. discriminate.
  - intros H. unfold Routes.allowedTypes. now rewrite H.
  - intros H. unfold Routes.maxSize. now rewrite H.
Qed.

(* ================================================================== *)
(** ** The older router *)
(* ================================================================== *)

Lemma chars_app (a b : string) :
  JsString.chars (a ++ b) = JsString.chars a ++ JsString.chars b.
Proof.
  unfold JsString.chars. induction a as [|c a IH]; simpl; [reflexivity|].
  now rewrite IH.
Qed.

Lemma eqb_not_in (sep x : ascii) (l : list ascii) :
  ~ In sep (x :: l) -> Ascii.eqb x sep = false /\ ~ In sep l.
Proof.
  intros H. split.
  - apply Ascii.eqb_neq. intros ->. apply H. now left.
  - intros Hin. apply H. now right.
Qed.

(** A text without the separator is one piece. *)
Lemma split_acc_one (sep : ascii) (a cur : list ascii) :
  ~ In sep a -> JsString.split_acc sep cur a = [rev cur ++ a].
Proof.
  revert cur. induction a as [|x a IH]; intros cur H; simpl.
  - now rewrite app_nil_r.
  - destruct (eqb_not_in sep x a H) as [E Ha]. rewrite E, IH by exact Ha.
    simpl. now rewrite <- app_assoc.
Qed.

(** The first piece ends at the first separator. *)
Lemma split_acc_first (sep : ascii) (a b cur : list ascii) :
  ~ In sep a ->
  JsString.split_acc sep cur (a ++ sep :: b)
  = (rev cur ++ a) :: JsString.split_acc sep [] b.
Proof.
  revert cur. induction a as [|x a IH]; intros cur H; simpl.
  - now rewrite Ascii.eqb_refl, app_nil_r.
  - destruct (eqb_not_in sep x a H) as [E Ha]. rewrite E, IH by exact Ha.
    simpl. now rewrite <- app_assoc.
Qed.

Lemma split_acc_not_nil (sep : ascii) (cs cur : list ascii) :
  JsString.split_acc sep cur cs <> [].
Proof.
  revert cur. induction cs as [|x cs IH]; intros cur; simpl; [discriminate|].
  destruct (Ascii.eqb x sep); [discriminate|apply IH].
Qed.

(** The last piece starts after the last separator. *)
Lemma split_acc_last (sep : ascii) (p tail cur d : list ascii) :
  ~ In sep tail ->
  last (JsString.split_acc sep cur (p ++ sep :: tail)) d = tail.
Proof.
  intros Ht. revert cur. induction p as [|x p IH]; intros cur.
  - simpl. rewrite Ascii.eqb_refl, (split_acc_one sep tail [] Ht).
    reflexivity.
  - simpl. destruct (Ascii.eqb x sep); [|apply IH].
    specialize (IH []).
    destruct (JsString.split_acc sep [] (p ++ sep :: tail)) eqn:E;
      [now apply split_acc_not_nil in E|].
    exact IH.
Qed.

Lemma last_map {A B} (f : A -> B) (l : list A) (d : A) :
  last (map f l) (f d) = f (last l d).
Proof.
  induction l as [|x l IH]; simpl; [reflexivity|].
  destruct l; simpl in *; [reflexivity|exact IH].
Qed.

Lemma last_map_str (l : list (list ascii)) :
  last (map JsString.str l) ""%string = JsString.str (last l []).
Proof. exact (last_map JsString.str l []). Qed.

(** The asset "name.ext" at the end of a URL gives back "name". *)
Lemma publicId_of_asset_url (base name ext : string) :
  ~ In "/"%char (JsString.chars name) ->
  ~ In "."%char (JsString.chars name) ->
  ~ In "/"%char (JsString.chars ext) ->
  Legacy.publicId_of_url (base ++ "/" ++ name ++ "." ++ ext) = name.
Proof.
  intros Hn Hd He. unfold Legacy.publicId_of_url, JsString.split.
  rewrite chars_app.
  change (JsString.chars ("/" ++ name ++ "." ++ ext))
    with ("/"%char :: JsString.chars (name ++ "." ++ ext)).
  rewrite last_map_str, split_acc_last.
  - rewrite chars_str, chars_app.
    change (JsString.chars ("." ++ ext))
      with ("."%char :: JsString.chars ext).
    rewrite split_acc_first by exact Hd. simpl. apply str_chars.
  - rewrite chars_app.
    change (JsString.chars ("." ++ ext))
      with ("."%char :: JsString.chars ext).
    rewrite in_app_iff. simpl. intros [H|[H|H]]; [tauto|discriminate|tauto].
Qed.

(** X27.  The public id the older router deletes is rebuilt from the
    stored URL and the present name of the category: for a URL that ends
    in "/name.ext" it is "myapp/<category name>/name", whatever folder
    the URL itself names. *)
Theorem fullPublicId_of_asset_url (c : Legacy.LCategory) (i : Legacy.LImage)
  (base name ext : string) :
  Legacy.i_image i = (base ++ "/" ++ name ++ "." ++ ext)%string ->
  ~ In "/"%char (JsString.chars name) ->
  ~ In "."%char (JsString.chars name) ->
  ~ In "/"%char (JsString.chars ext) ->
  Legacy.fullPublicId c i
  = ("myapp/" ++ Legacy.c_name c ++ "/" ++ name)%string.
Proof.
  intros Hurl Hn Hd He. unfold Legacy.fullPublicId.
  now rewrite Hurl, publicId_of_asset_url.
Qed.

(** The asset "abc.jpg" of the folder "myapp/halls", after the category
    has become "venues". *)
Lemma fullPublicId_of_asset_url_witness :
  Legacy.fullPublicId (Legacy.mkCategory 1 "venues")
    (Legacy.mkImage 2 1 "https://assets.test/v1/myapp/halls/abc.jpg" 10)
  = "myapp/venues/abc"%string.
Proof.
  apply (fullPublicId_of_asset_url (Legacy.mkCategory 1 "venues")
           (Legacy.mkImage 2 1 "https://assets.test/v1/myapp/halls/abc.jpg" 10)
           "https://assets.test/v1/myapp/halls" "abc" "jpg").
  - reflexivity.
  - simpl. intuition discriminate.
  - simpl. intuition discriminate.
  - simpl. intuition discriminate.
Defined.

(** X28.  [DELETE /images/:imageId] of the older router.  An absent id is
    answered with 404 and changes nothing.  For a stored image the record
    is removed whatever the host answers, the other images and the
    categories stay; when the category of the image is stored the answer
    is 200 and exactly one delete call is issued, for the rebuilt public
    id; when it is not, no call is issued and the answer is 500, the
    record being removed all the same. *)
Theorem legacy_DELETE_image_spec (imageId : ObjectId) (w : Legacy.LWorld) :
  match find_by_id Legacy.i_id imageId (Legacy.l_images w) with
  | None =>
      LegacyRoutes.DELETE_image imageId w = (LegacyRoutes.reply 404, w)
  | Some image =>
      let answer := fst (LegacyRoutes.DELETE_image imageId w) in
      let after := snd (LegacyRoutes.DELETE_image imageId w) in
      find_by_id Legacy.i_id imageId (Legacy.l_images after) = None
      /\ (forall other, other <> imageId ->
            find_by_id Legacy.i_id other (Legacy.l_images after)
            = find_by_id Legacy.i_id other (Legacy.l_images w))
      /\ Legacy.l_categories after = Legacy.l_categories w
      /\ match
           find_by_id Legacy.c_id (Legacy.i_category image)
             (Legacy.l_categories w)
         with
         | Some c =>
             Legacy.status answer = 200
             /\ Legacy.l_calls after
                = Legacy.l_calls w ++ [CallDestroy (Legacy.fullPublicId c image)]
         | None =>
             Legacy.status answer = 500
             /\ Legacy.l_calls after = Legacy.l_calls w
         end
  end.
Proof.
  unfold LegacyRoutes.DELETE_image.
  destruct (find_by_id Legacy.i_id imageId (Legacy.l_images w)) as [image|];
    [|reflexivity].
  cbv zeta.
  assert (Hrm : forall l other,
            find_by_id Legacy.i_id other (remove_by_id Legacy.i_id imageId l)
            = if other =? imageId then None
              else find_by_id Legacy.i_id other l).
  { intros l other. apply find_by_id_remove. }
  destruct (find_by_id Legacy.c_id (Legacy.i_category image)
              (Legacy.l_categories w)) as [c|].
  - unfold Legacy.destroy_one.
    destruct (uploader_destroy (Legacy.l_host w)
                (Legacy.fullPublicId c image)); simpl;
      (split; [rewrite Hrm; now rewrite Nat.eqb_refl|]);
      (split; [intros other Ho; rewrite Hrm;
               apply Nat.eqb_neq in Ho; now rewrite Ho|]);
      now repeat split.
  - simpl. split; [rewrite Hrm; now rewrite Nat.eqb_refl|].
    split; [intros other Ho; rewrite Hrm;
            apply Nat.eqb_neq in Ho; now rewrite Ho|].
    now repeat split.
Qed.

(** The image 3 of the category 7, which is not stored, on a host that
    rejects every call. *)
Lemma legacy_DELETE_image_spec_witness :
  Legacy.status
    (fst (LegacyRoutes.DELETE_image 3
            (MoreScenarios.legacy_orphan Scenario.rejecting))) = 500
  /\ find_by_id Legacy.i_id 3
       (Legacy.l_images
          (snd (LegacyRoutes.DELETE_image 3
                  (MoreScenarios.legacy_orphan Scenario.rejecting)))) = None.
Proof.
  pose proof (legacy_DELETE_image_spec 3
                (MoreScenarios.legacy_orphan Scenario.rejecting)) as H.
  change (find_by_id Legacy.i_id 3
            (Legacy.l_images (MoreScenarios.legacy_orphan Scenario.rejecting)))
    with (Some (Legacy.mkImage 3 7
                  "https://assets.test/v1/myapp/gone/def.png" 11)) in H.
  cbv zeta in H. destruct H as (Hgone & _ & _ & Hanswer).
  split; [|exact Hgone].
  change (find_by_id Legacy.c_id
            (Legacy.i_category
               (Legacy.mkImage 3 7
                  "https://assets.test/v1/myapp/gone/def.png" 11))
            (Legacy.l_categories
               (MoreScenarios.legacy_orphan Scenario.rejecting)))
    with (@None Legacy.LCategory) in Hanswer.
  exact (proj1 Hanswer).
Defined.

Lemma upload_one_step (c : Legacy.LCategory) (ok : bool)
  (w : Legacy.LWorld) (f : Buffer) :
  let folder := ("myapp/" ++ Legacy.c_name c)%string in
  let accepts :=
    match upload_stream (Legacy.l_host w) f folder with
    | Some _ => true
    | None => false
    end in
  exists w1 added,
    Legacy.upload_one c (ok, w) f = (ok && accepts, w1)
    /\ Legacy.l_host w1 = Legacy.l_host w
    /\ Legacy.l_categories w1 = Legacy.l_categories w
    /\ Legacy.l_images w1 = Legacy.l_images w ++ added
    /\ Forall (fun i => Legacy.i_category i = Legacy.c_id c) added
    /\ length added = (if accepts then 1 else 0)
    /\ Legacy.l_calls w1 = Legacy.l_calls w ++ [CallUpload folder].
Proof.
  cbv zeta. unfold Legacy.upload_one.
  destruct (upload_stream (Legacy.l_host w) f ("myapp/" ++ Legacy.c_name c))
    as [r|].
  - eexists. eexists [_]. rewrite andb_true_r.
    split; [reflexivity|]. simpl. repeat split; auto.
  - eexists. exists []. rewrite andb_false_r.
    split; [reflexivity|]. simpl. rewrite app_nil_r. repeat split; auto.
Qed.

Lemma accepted_host (w w1 : Legacy.LWorld) (folder : string)
  (files : list Buffer) :
  Legacy.l_host w1 = Legacy.l_host w ->
  LegacyRoutes.accepted w1 folder files = LegacyRoutes.accepted w folder files.
Proof. intros H. unfold LegacyRoutes.accepted. now rewrite H. Qed.

Lemma accepted_length (w : Legacy.LWorld) (folder : string)
  (files : list Buffer) :
  length (LegacyRoutes.accepted w folder files) <= length files.
Proof. apply filter_length_le. Qed.

Lemma upload_loop (c : Legacy.LCategory) (files : list Buffer)
  (ok : bool) (w : Legacy.LWorld) :
  let folder := ("myapp/" ++ Legacy.c_name c)%string in
  let done := fold_left (Legacy.upload_one c) files (ok, w) in
  Legacy.l_host (snd done) = Legacy.l_host w
  /\ Legacy.l_categories (snd done) = Legacy.l_categories w
  /\ (exists added,
        Legacy.l_images (snd done) = Legacy.l_images w ++ added
        /\ Forall (fun i => Legacy.i_category i = Legacy.c_id c) added
        /\ length added = length (LegacyRoutes.accepted w folder files))
  /\ Legacy.l_calls (snd done)
     = Legacy.l_calls w ++ map (fun _ => CallUpload folder) files
  /\ fst done
     = ok && (length (LegacyRoutes.accepted w folder files) =? length files).
Proof.
  cbv zeta. revert ok w. induction files as [|f files IH]; intros ok w.
  - simpl. repeat split; auto.
    + exists []. now rewrite app_nil_r.
    + now rewrite app_nil_r.
    + now rewrite andb_true_r.
  - destruct (upload_one_step c ok w f)
      as (w1 & added1 & Hstep & Hh1 & Hc1 & Hi1 & Hall1 & Hn1 & Hl1).
    cbn [fold_left]. rewrite Hstep.
    destruct (IH (ok && match
                          upload_stream (Legacy.l_host w) f
                            ("myapp/" ++ Legacy.c_name c)
                        with
                        | Some _ => true
                        | None => false
                        end) w1)
      as (Hh & Hc & (added & Hi & Hall & Hn) & Hl & Hok).
    rewrite (accepted_host w w1 _ files Hh1) in Hn, Hok.
    pose proof (accepted_length w ("myapp/" ++ Legacy.c_name c) files) as Hle.
    split; [congruence|]. split; [congruence|]. split; [|split].
    + exists (added1 ++ added). rewrite Hi, Hi1, <- app_assoc.
      split; [reflexivity|]. split; [now apply Forall_app|].
      rewrite length_app, Hn, Hn1. unfold LegacyRoutes.accepted at 2.
      cbn [filter].
      destruct (upload_stream (Legacy.l_host w) f
                  ("myapp/" ++ Legacy.c_name c)); reflexivity.
    + rewrite Hl, Hl1, <- app_assoc. reflexivity.
    + rewrite Hok. unfold LegacyRoutes.accepted at 2. cbn [filter].
      destruct (upload_stream (Legacy.l_host w) f
                  ("myapp/" ++ Legacy.c_name c)).
      * now rewrite andb_true_r.
      * rewrite andb_false_r. cbn [andb]. symmetry.
        rewrite andb_false_iff. right. apply Nat.eqb_neq.
        unfold LegacyRoutes.accepted in *. cbn [length]. lia.
Qed.

(** X29.  [POST /categories/:categoryId/images] of the older router keeps
    what it has stored when an upload fails.  For a stored category and 1
    to 10 files, one upload call is issued per file; an image record is
    added, for this category, for each file the host accepts and for no
    other; the answer is 201 when the host accepts every file and 500
    otherwise, the records of the accepted files staying in the store. *)
Theorem legacy_POST_images_partial (categoryId : ObjectId)
  (files : list Buffer) (w : Legacy.LWorld) (c : Legacy.LCategory) :
  find_by_id Legacy.c_id categoryId (Legacy.l_categories w) = Some c ->
  1 <= length files <= 10 ->
  let folder := ("myapp/" ++ Legacy.c_name c)%string in
  let accepted := LegacyRoutes.accepted w folder files in
  let answer := fst (LegacyRoutes.POST_images categoryId files w) in
  let after := snd (LegacyRoutes.POST_images categoryId files w) in
  Legacy.status answer
  = (if length accepted =? length files then 201 else 500)
  /\ (exists added,
        Legacy.l_images after = Legacy.l_images w ++ added
        /\ Forall (fun i => Legacy.i_category i = categoryId) added
        /\ length added = length accepted)
  /\ Legacy.l_calls after
     = Legacy.l_calls w ++ map (fun _ => CallUpload folder) files
  /\ Legacy.l_categories after = Legacy.l_categories w.
Proof.
  intros Hc Hlen. cbv zeta. unfold LegacyRoutes.POST_images. rewrite Hc.
  destruct (length files =? 0) eqn:E0; [apply Nat.eqb_eq in E0; lia|].
  destruct (10 <? length files) eqn:E10; [apply Nat.ltb_lt in E10; lia|].
  destruct (upload_loop c files true w)
    as (_ & Hcats & (added & Hi & Hall & Hn) & Hcalls & Hok).
  destruct (find_by_id_some _ _ _ _ Hc) as [_ Hid].
  destruct (fold_left (Legacy.upload_one c) files (true, w)) as [ok w1].
  cbn [fst snd] in *. rewrite Hid in Hall. rewrite Hok. cbn [andb].
  destruct (length (LegacyRoutes.accepted w ("myapp/" ++ Legacy.c_name c) files)
            =? length files); cbn [fst snd];
    (split; [reflexivity|]);
    (split; [exists added; auto|]);
    now split.
Qed.

(** Two files for "halls", the second one empty, on a host that accepts
    non-empty files only. *)
Lemma legacy_POST_images_partial_witness :
  let w := Scenario.legacy_halls MoreScenarios.picky in
  let after :=
    snd (LegacyRoutes.POST_images 1 [[Byte.x01]; []] w) in
  Legacy.status (fst (LegacyRoutes.POST_images 1 [[Byte.x01]; []] w)) = 500
  /\ length (Legacy.l_images after) = 3.
Proof.
  cbv zeta.
  destruct (legacy_POST_images_partial 1 [[Byte.x01]; []]
              (Scenario.legacy_halls MoreScenarios.picky)
              (Legacy.mkCategory 1 "halls"))
    as (Hstatus & (added & Hi & _ & Hn) & _).
  - reflexivity.
  - simpl. lia.
  - split; [exact Hstatus|]. rewrite Hi, length_app, Hn. reflexivity.
Defined.

(* ------------------------------------------------------------------ *)
(** ** Names of the older store *)
(* ------------------------------------------------------------------ *)

Lemma is_space_lower_char (c : ascii) :
  JsString.is_space (JsString.lower_char c) = JsString.is_space c.
Proof. destruct c as [[] [] [] [] [] [] [] []]; reflexivity. Qed.

Lemma lower_char_idempotent (c : ascii) :
  JsString.lower_char (JsString.lower_char c) = JsString.lower_char c.
Proof. destruct c as [[] [] [] [] [] [] [] []]; reflexivity. Qed.

Lemma trim_start_lower (cs : list ascii) :
  JsString.trim_start (map JsString.lower_char cs)
  = map JsString.lower_char (JsString.trim_start cs).
Proof.
  induction cs as [|c cs IH]; simpl; [reflexivity|].
  rewrite is_space_lower_char. now destruct (JsString.is_space c).
Qed.

Lemma trim_end_lower (cs : list ascii) :
  JsString.trim_end (map JsString.lower_char cs)
  = map JsString.lower_char (JsString.trim_end cs).
Proof.
  unfold JsString.trim_end.
  now rewrite <- map_rev, trim_start_lower, map_rev.
Qed.

Lemma trim_start_idempotent (cs : list ascii) :
  JsString.trim_start (JsString.trim_start cs) = JsString.trim_start cs.
Proof.
  induction cs as [|c cs IH]; simpl; [reflexivity|].
  destruct (JsString.is_space c) eqn:E; [exact IH|].
  simpl. now rewrite E.
Qed.

Lemma trim_start_snoc (l : list ascii) (c : ascii) :
  JsString.is_space c = false ->
  JsString.trim_start (l ++ [c]) = JsString.trim_start l ++ [c].
Proof.
  intros Hc. induction l as [|x l IH]; simpl; [now rewrite Hc|].
  now destruct (JsString.is_space x).
Qed.

Lemma trim_end_cons (c : ascii) (r : list ascii) :
  JsString.is_space c = false ->
  JsString.trim_end (c :: r) = c :: JsString.trim_end r.
Proof.
  intros Hc. unfold JsString.trim_end. simpl.
  rewrite trim_start_snoc by exact Hc. now rewrite rev_app_distr.
Qed.

(** A trimmed text has no white space left at either end. *)
Lemma trim_chars_fixpoint (cs : list ascii) :
  let t := JsString.trim_end (JsString.trim_start cs) in
  JsString.trim_end (JsString.trim_start t) = t.
Proof.
  cbv zeta.
  assert (Hstart : JsString.trim_start
                     (JsString.trim_end (JsString.trim_start cs))
                   = JsString.trim_end (JsString.trim_start cs)).
  { induction cs as [|c cs IH]; simpl; [reflexivity|].
    destruct (JsString.is_space c) eqn:E; [exact IH|].
    rewrite trim_end_cons by exact E. simpl. now rewrite E. }
  rewrite Hstart. unfold JsString.trim_end at 1 2.
  now rewrite rev_involutive, trim_start_idempotent.
Qed.

(** The setters [trim] and [lowercase], applied twice, give what they
    give once. *)
Lemma lowercase_trim_idempotent (n : string) :
  JsString.toLowerCase
    (JsString.trim (JsString.toLowerCase (JsString.trim n)))
  = JsString.toLowerCase (JsString.trim n).
Proof.
  unfold JsString.toLowerCase, JsString.trim. rewrite !chars_str.
  rewrite trim_start_lower, trim_end_lower, trim_chars_fixpoint.
  rewrite map_map. f_equal. apply map_ext. intros c.
  apply lower_char_idempotent.
Qed.

(** X30.  [PATCH /categories/:categoryId] of the older router keeps the
    names of the categories unique, and touches neither the ids, nor the
    images, nor the asset host.  Only the answer 200 changes the store:
    the category then carries the name given, trimmed and in lower
    case, and every other category is as before. *)
Theorem legacy_PATCH_category_spec (categoryId : ObjectId)
  (name : option string) (w : Legacy.LWorld) :
  NoDup (map Legacy.c_id (Legacy.l_categories w)) ->
  NoDup (map Legacy.c_name (Legacy.l_categories w)) ->
  let answer := fst (LegacyRoutes.PATCH_category categoryId name w) in
  let after := snd (LegacyRoutes.PATCH_category categoryId name w) in
  NoDup (map Legacy.c_name (Legacy.l_categories after))
  /\ map Legacy.c_id (Legacy.l_categories after)
     = map Legacy.c_id (Legacy.l_categories w)
  /\ Legacy.l_images after = Legacy.l_images w
  /\ Legacy.l_calls after = Legacy.l_calls w
  /\ (Legacy.status answer <> 200 -> after = w)
  /\ (Legacy.status answer = 200 ->
      exists n,
        name = Some n
        /\ find_by_id Legacy.c_id categoryId (Legacy.l_categories after)
           = Some (Legacy.mkCategory categoryId
                     (JsString.toLowerCase (JsString.trim n)))
        /\ forall other, other <> categoryId ->
             find_by_id Legacy.c_id other (Legacy.l_categories after)
             = find_by_id Legacy.c_id other (Legacy.l_categories w)).
Proof.
  intros Hids Hnames. cbv zeta. unfold LegacyRoutes.PATCH_category.
  assert (Hkeep : forall s (P : Prop),
            s <> 200 ->
            NoDup (map Legacy.c_name (Legacy.l_categories w))
            /\ map Legacy.c_id (Legacy.l_categories w)
               = map Legacy.c_id (Legacy.l_categories w)
            /\ Legacy.l_images w = Legacy.l_images w
            /\ Legacy.l_calls w = Legacy.l_calls w
            /\ (s <> 200 -> w = w)
            /\ (s = 200 -> P)).
  { intros s P Hs. repeat split; auto. intros E. congruence. }
  destruct name as [n|];
    [|cbn [fst snd LegacyRoutes.reply Legacy.status];
      apply (Hkeep 400); discriminate].
  destruct (String.length (JsString.trim n) =? 0);
    [cbn [fst snd LegacyRoutes.reply Legacy.status];
     apply (Hkeep 400); discriminate|].
  destruct (find_by_id Legacy.c_id categoryId (Legacy.l_categories w))
    as [c|] eqn:Hc;
    [|cbn [fst snd LegacyRoutes.reply Legacy.status];
      apply (Hkeep 404); discriminate].
  rewrite lowercase_trim_idempotent.
  destruct (existsb _ (Legacy.l_categories w)) eqn:Hex;
    [cbn [fst snd LegacyRoutes.reply Legacy.status];
     apply (Hkeep 409); discriminate|].
  cbn [fst snd Legacy.l_categories Legacy.l_images Legacy.l_calls
       LegacyRoutes.reply Legacy.status].
  split; [|split; [|split; [|split; [|split]]]]; auto.
  - apply (NoDup_map_update Legacy.c_id Legacy.c_name categoryId _
             (JsString.toLowerCase (JsString.trim n)));
      auto.
    intros d Hd Hid.
    apply (index_free_others Legacy.c_id Legacy.c_name String.eqb
             categoryId _ (Legacy.l_categories w) d string_eqb_iff Hex Hd Hid).
  - now apply map_update_by_id.
  - congruence.
  - intros _. exists n. split; [reflexivity|]. split.
    + rewrite find_by_id_update by reflexivity. rewrite Hc. simpl.
      destruct (find_by_id_some _ _ _ _ Hc) as [_ Hid].
      rewrite Hid, Nat.eqb_refl. reflexivity.
    + intros other Ho. rewrite find_by_id_update by reflexivity.
      destruct (find_by_id Legacy.c_id other (Legacy.l_categories w))
        as [d|] eqn:Hd; [|reflexivity].
      simpl. destruct (find_by_id_some _ _ _ _ Hd) as [_ Hid].
      rewrite Hid. apply Nat.eqb_neq in Ho. now rewrite Ho.
Qed.

(** "halls" becomes "venues". *)
Lemma legacy_PATCH_category_spec_witness :
  find_by_id Legacy.c_id 1
    (Legacy.l_categories
       (snd (LegacyRoutes.PATCH_category 1 (Some "  Venues ")
               (Scenario.legacy_halls Scenario.accepting))))
  = Some (Legacy.mkCategory 1 "venues").
Proof.
  destruct (legacy_PATCH_category_spec 1 (Some "  Venues ")
              (Scenario.legacy_halls Scenario.accepting))
    as (_ & _ & _ & _ & _ & H).
  - simpl. repeat constructor. simpl. tauto.
  - simpl. repeat constructor. simpl. tauto.
  - destruct H as (n & Hn & Hfind & _); [reflexivity|].
    injection Hn as <-. exact Hfind.
Defined.
